(** * PyMESHub: graph-to-matrix compilation and coupling derivation

    A shallow embedding of the core of PyMESHub:
    - [pymeshub/components] (component variants, their ports and
      characteristic matrices),
    - [pymeshub/core/energy_hub.py] (the hub and [load_config]),
    - [pymeshub/core/matrix_builder.py] (assembly of X, Y, Z),
    - [pymeshub/graph/builder.py] (the topology graph and [build]),
    - [pymeshub/analysis/symbolic_analyzer.py] (the coupling matrix).

    Scalars are the elements of a field [F]: the field in which sympy
    computes (numbers for numeric parameters, rational functions of the
    symbols for symbolic ones).  The code divides once, by the discharging
    efficiency of a storage, and sympy leaves the field when that is zero:
    see [finite_parameters].  Python dictionaries keep insertion order, and
    that order is observable here (component order fixes the order of the
    blocks of Z, edge order fixes which binding of a port survives), so they
    are association lists with Python's update-in-place semantics. *)

From HB Require Import structures.
From Stdlib Require Import String Ascii NArith.
From mathcomp Require Import ssreflect ssrfun ssrbool eqtype ssrnat seq path.
From mathcomp Require Import choice fintype finfun bigop ssralg matrix.
From mathcomp Require Import order ssrnum ssrint rat.

Set Implicit Arguments.
Unset Strict Implicit.
Unset Printing Implicit Defensive.
Set Warnings "-deprecated,-notation-overridden,-ambiguous-paths".

Import GRing.Theory.

Local Open Scope string_scope.
Local Open Scope seq_scope.

(** ** Strings: equality and Python's lexicographic order *)

HB.instance Definition _ := hasDecEq.Build string String.eqb_spec.

(** [sorted] on Python strings compares code points lexicographically;
    [String.leb] does so on the bytes. *)
Definition str_le : rel string := fun s t => String.leb s t.

(** ** Python dictionaries (insertion ordered) *)

Section Dict.
Variables (K : eqType) (V : Type).

Definition dict := seq (K * V).

Fixpoint dict_get (d : dict) (k : K) : option V :=
  if d is (k', v) :: d' then
    if k' == k then Some v else dict_get d' k
  else None.

(** [d[k] = v]: an existing key keeps its position, a new key goes last. *)
Fixpoint dict_set (d : dict) (k : K) (v : V) : dict :=
  if d is (k', v') :: d' then
    if k' == k then (k', v) :: d' else (k', v') :: dict_set d' k v
  else [:: (k, v)].

Definition dict_mem (d : dict) (k : K) : bool := isSome (dict_get d k).

Definition dict_keys (d : dict) : seq K := [seq kv.1 | kv <- d].

Definition dict_vals (d : dict) : seq V := [seq kv.2 | kv <- d].

End Dict.

(** ** Errors

    Every failure of the source is a [ValueError] (sympy's [ShapeError] and
    [NonInvertibleMatrixError] are subclasses of it) or an [IndexError]; the
    constructors keep the raise sites apart. *)

Inductive error : Type :=
  | NodeExists (name : string)
  | SourceNotFound (node : string)
  | DestinationNotFound (node : string)
  | NotAnOutputPort (port node : string)
  | NotAnInputNode (node : string)
  | NotAnInputPort (port node : string)
  | NotAnOutputNode (node : string)
  | KeyError (key : string)
  | ComponentExists (name : string)
  | NoBranchesInConfig
  | MappingForUnknownComponent (comp : string)
  | UnknownBranch (branch comp port : string)
  | UnknownHubInput (branch : string)
  | UnknownHubOutput (branch : string)
  | NoGlobalBranches
  | InputPortNotMapped (port comp : string)
  | OutputPortNotMapped (port comp : string)
  | IndexError
  | ShapeError
  | NonInvertibleMatrix
  | MatricesNotSet
  | QNotSquare (rows cols : nat)
  | QSingular.

Inductive result (A : Type) : Type :=
  | Ok (a : A)
  | Err (e : error).

Arguments Ok {A} a.
Arguments Err {A} e.

Definition bind {A B : Type} (r : result A) (k : A -> result B) : result B :=
  match r with
  | Ok a => k a
  | Err e => Err e
  end.

Notation "x <- r ;; k" := (bind r (fun x => k))
  (at level 100, r at next level, right associativity).

Definition is_ok {A : Type} (r : result A) : bool :=
  if r is Ok _ then true else false.

(** The value of a result, [d] when it is an error; the error of a result. *)
Definition value_or {A : Type} (d : A) (r : result A) : A :=
  if r is Ok a then a else d.

Definition error_of {A : Type} (r : result A) : option error :=
  if r is Err e then Some e else None.

(** A [for] loop whose body may raise: the first error stops the loop. *)
Fixpoint for_each {A S : Type} (body : S -> A -> result S) (s : S)
    (xs : seq A) : result S :=
  if xs is x :: xs' then (s' <- body s x ;; for_each body s' xs')
  else Ok s.

(** A property of the loop state kept by every iteration that does not
    raise. *)
Definition preserves {A S : Type} (body : S -> A -> result S)
    (I : S -> Prop) (xs : seq A) : Prop :=
  forall s x s', List.In x xs -> I s -> body s x = Ok s' -> I s'.

(** The binding errors of the spec's taxonomy: a declared port without a
    branch, met by one of the two loops of the assembler. *)
Definition is_binding_error (e : error) : bool :=
  match e with
  | InputPortNotMapped _ _ | OutputPortNotMapped _ _ => true
  | _ => false
  end.

(** ** sympy matrices

    A sympy [Matrix] knows its shape even when it has no rows, and the
    squareness test of the coupling derivation depends on that, so the shape
    is stored next to the rows. *)

Section Matrices.
Variable F : fieldType.

Record Matrix : Type := Mx { rows : nat; cols : nat; entries : seq (seq F) }.

Definition wf_matrix (M : Matrix) : bool :=
  (size (entries M) == rows M) && all (fun r => size r == cols M) (entries M).

Definition mget (M : Matrix) (i j : nat) : F :=
  nth 0%R (nth [::] (entries M) i) j.

(** [sympy.Matrix([[...], ...])] *)
Definition of_rows (rs : seq (seq F)) : Matrix :=
  Mx (size rs) (size (head [::] rs)) rs.

Definition zeros (r c : nat) : Matrix := Mx r c (nseq r (nseq c 0%R)).

Definition eye (n : nat) : Matrix :=
  Mx n n (mkseq (fun i => mkseq (fun j => if i == j then 1%R else 0%R) n) n).

(** [M] with [v] written at row [i], column [j]. *)
Definition updated (M : Matrix) (i j : nat) (v : F) : Matrix :=
  Mx (rows M) (cols M)
     (set_nth [::] (entries M) i (set_nth 0%R (nth [::] (entries M) i) j v)).

(** [M[i, j] = v] with non-negative indices; out of range raises. *)
Definition setitem (M : Matrix) (i j : nat) (v : F) : result Matrix :=
  if (i < rows M) && (j < cols M) then Ok (updated M i j v)
  else Err IndexError.

Definition mneg (M : Matrix) : Matrix :=
  Mx (rows M) (cols M) [seq [seq (- x)%R | x <- r] | r <- entries M].

Definition dot (u v : seq F) : F :=
  foldr (fun p acc => (p.1 * p.2 + acc)%R) 0%R (zip u v).

Definition column (M : Matrix) (j : nat) : seq F :=
  [seq nth 0%R r j | r <- entries M].

(** The rows-by-columns product. *)
Definition product (A B : Matrix) : Matrix :=
  Mx (rows A) (cols B)
     [seq [seq dot r (column B j) | j <- iota 0 (cols B)] | r <- entries A].

(** [A * B]; the shapes must agree. *)
Definition mmul (A B : Matrix) : result Matrix :=
  if cols A == rows B then Ok (product A B) else Err ShapeError.

(** [A] above [B]. *)
Definition stacked (A B : Matrix) : Matrix :=
  Mx (rows A + rows B) (cols A) (entries A ++ entries B).

(** [A.col_join(B)]: a matrix without rows can always be stacked. *)
Definition col_join (A B : Matrix) : result Matrix :=
  if (rows A == 0) && (cols A != cols B) then Ok (Mx (rows B) (cols B) (entries B))
  else if cols A != cols B then Err ShapeError
  else Ok (stacked A B).

(** [sympy.Matrix.vstack] of the blocks is [reduce(col_join, blocks)]. *)
Definition vstack (ms : seq Matrix) : result Matrix :=
  if ms is m :: ms' then for_each col_join m ms' else Ok (Mx 0 0 [::]).

(** *** Exact inversion

    [Q.inv()] is sympy's: it returns the exact inverse of a square matrix
    over the field of its entries and raises [NonInvertibleMatrixError] when
    there is none.  The inverse is taken here from MathComp's matrices. *)

Definition to_mx (n : nat) (M : Matrix) : 'M[F]_n :=
  (\matrix_(i, j) mget M i j)%R.

Definition of_mx (n : nat) (A : 'M[F]_n) : Matrix :=
  Mx n n [seq [seq A i j | j <- enum 'I_n] | i <- enum 'I_n].

Definition inv (M : Matrix) : result Matrix :=
  if rows M != cols M then Err ShapeError
  else if to_mx (rows M) M \in unitmx then
    Ok (of_mx (invmx (to_mx (rows M) M)))
  else Err NonInvertibleMatrix.

(** [M'] is a well-formed matrix of the shape of [M]. *)
Definition same_shape (M M' : Matrix) : Prop :=
  [/\ wf_matrix M', rows M' = rows M & cols M' = cols M].

(** [M] is a well-formed [n] by [n] matrix. *)
Definition square (n : nat) (M : Matrix) : bool :=
  [&& wf_matrix M, rows M == n & cols M == n].

(** [P] is a two-sided inverse of [Q], in terms of [mmul]. *)
Definition inverse_of (Q P : Matrix) : Prop :=
  [/\ square (rows Q) P, mmul P Q = Ok (eye (rows Q))
    & mmul Q P = Ok (eye (rows Q))].

End Matrices.

Arguments Mx {F} rows cols entries.

Section Hub.
Variable F : fieldType.

Definition enumerate {A : Type} (xs : seq A) : seq (nat * A) :=
  zip (iota 0 (size xs)) xs.

(** ** Components ([components/base.py], [converters.py], [storage.py])

    The catalogue of component classes is closed; a value of [comp_init] is a
    class together with the keyword arguments of its constructor.  For the
    back-pressure unit an absent [elec_ports] and an empty one are the same
    (both are falsy in the source). *)

Inductive comp_init : Type :=
  | CHPBackPressure (eta_q eta_w : F) (elec_ports : seq string)
  | Boiler (eta : F)
  | Storage (eta_c eta_d : F)
  | ConvertibleLoad (substitution_ratio : F)
  | ElectricBoiler (eta : F)
  | HeatPump (cop : F)
  | AbsorptionChiller (cop : F)
  | Transformer (eta : F)
  | PowerToGas (eta : F).

Record Component : Type := mkComponent {
  name : string;
  init : comp_init;
  input_ports : dict string nat;
  output_ports : dict string nat
}.

Definition add_input_port (c : Component) (port_name : string)
    (port_index : nat) : Component :=
  mkComponent (name c) (init c)
    (dict_set (input_ports c) port_name port_index) (output_ports c).

Definition add_output_port (c : Component) (port_name : string)
    (port_index : nat) : Component :=
  mkComponent (name c) (init c)
    (input_ports c) (dict_set (output_ports c) port_name port_index).

(** [self.elec_ports] of the back-pressure unit *)
Definition chp_elec_ports (elec_ports : seq string) : seq string :=
  if elec_ports is [::] then [:: "elec_out"] else elec_ports.

(** The constructors: [cls(name=name, **params)]. *)
Definition new_component (nm : string) (i : comp_init) : Component :=
  let c := mkComponent nm i [::] [::] in
  match i with
  | CHPBackPressure _ _ eps =>
      let c := add_input_port c "fuel_in" 0 in
      let c := add_output_port c "heat_out" 1 in
      foldl (fun c ip => add_output_port c ip.2 (2 + ip.1)) c
        (enumerate (chp_elec_ports eps))
  | Boiler _ =>
      add_output_port (add_input_port c "fuel_in" 0) "heat_out" 1
  | Storage _ _ =>
      let c := add_input_port c "energy_in" 0 in
      let c := add_output_port c "energy_out" 1 in
      add_input_port c "delta_soc" 2
  | ConvertibleLoad _ =>
      let c := add_input_port c "elec_supply" 0 in
      let c := add_input_port c "heat_supply" 1 in
      add_output_port c "satisfied_demand" 2
  | ElectricBoiler _ =>
      add_output_port (add_input_port c "elec_in" 0) "heat_out" 1
  | HeatPump _ =>
      add_output_port (add_input_port c "elec_in" 0) "heat_out" 1
  | AbsorptionChiller _ =>
      add_output_port (add_input_port c "heat_in" 0) "cool_out" 1
  | Transformer _ =>
      add_output_port (add_input_port c "elec_in" 0) "elec_out" 1
  | PowerToGas _ =>
      add_output_port (add_input_port c "elec_in" 0) "gas_out" 1
  end.

(** [isinstance(comp_instance, Storage)] *)
Definition is_storage (c : Component) : bool :=
  if init c is Storage _ _ then true else false.

Definition get_characteristic_matrix (c : Component) : Matrix F :=
  match init c with
  | CHPBackPressure eta_q eta_w eps =>
      let n := size (chp_elec_ports eps) in
      let heat_balance_row := [:: eta_q; -1] ++ nseq n 0 in
      let elec_balance_row := [:: eta_w; 0] ++ nseq n (-1) in
      of_rows [:: heat_balance_row; elec_balance_row]
  | Boiler eta => of_rows [:: [:: eta; -1]]
  | Storage eta_c eta_d => of_rows [:: [:: eta_c; -1 / eta_d; -1]]
  | ConvertibleLoad substitution_ratio =>
      of_rows [:: [:: -1; - substitution_ratio; 1]]
  | ElectricBoiler eta => of_rows [:: [:: eta; -1]]
  | HeatPump cop => of_rows [:: [:: cop; -1]]
  | AbsorptionChiller cop => of_rows [:: [:: cop; -1]]
  | Transformer eta => of_rows [:: [:: eta; -1]]
  | PowerToGas eta => of_rows [:: [:: eta; -1]]
  end%R.

(** [-1/eta_d] is the one division of the catalogue.  For [eta_d = 0] sympy
    answers [zoo], which is no element of a field, and the products of the
    assembly with it are [nan]: the matrix above is the one of the code for
    the parameters below, and what is stated of the entries of the block of
    a storage is stated for them. *)
Definition finite_parameters (i : comp_init) : bool :=
  if i is Storage _ eta_d then eta_d != 0%R else true.

(** ** The hub ([core/energy_hub.py]) *)

Record EnergyHub : Type := mkEnergyHub {
  hub_name : string;
  components : dict string Component;
  global_branches : seq string;
  port_to_global_branch_map : dict (string * string)%type nat;
  hub_input_branch_indices : seq nat;
  hub_output_branch_indices : seq nat;
  X_matrix : option (Matrix F);
  Y_matrix : option (Matrix F);
  Z_matrix : option (Matrix F)
}.

(** [EnergyHub(name)] *)
Definition new_hub (nm : string) : EnergyHub :=
  mkEnergyHub nm [::] [::] [::] [::] [::] None None None.

Definition EnergyHub_add_component (hub : EnergyHub) (c : Component)
    : result EnergyHub :=
  if dict_mem (components hub) (name c) then Err (ComponentExists (name c))
  else Ok (mkEnergyHub (hub_name hub) (dict_set (components hub) (name c) c)
             (global_branches hub) (port_to_global_branch_map hub)
             (hub_input_branch_indices hub) (hub_output_branch_indices hub)
             (X_matrix hub) (Y_matrix hub) (Z_matrix hub)).

Definition set_global_branches (hub : EnergyHub) (bs : seq string) : EnergyHub :=
  mkEnergyHub (hub_name hub) (components hub) bs
    (port_to_global_branch_map hub)
    (hub_input_branch_indices hub) (hub_output_branch_indices hub)
    (X_matrix hub) (Y_matrix hub) (Z_matrix hub).

Definition map_port (hub : EnergyHub) (key : (string * string)%type) (i : nat)
    : EnergyHub :=
  mkEnergyHub (hub_name hub) (components hub) (global_branches hub)
    (dict_set (port_to_global_branch_map hub) key i)
    (hub_input_branch_indices hub) (hub_output_branch_indices hub)
    (X_matrix hub) (Y_matrix hub) (Z_matrix hub).

Definition append_hub_input (hub : EnergyHub) (i : nat) : EnergyHub :=
  mkEnergyHub (hub_name hub) (components hub) (global_branches hub)
    (port_to_global_branch_map hub)
    (rcons (hub_input_branch_indices hub) i) (hub_output_branch_indices hub)
    (X_matrix hub) (Y_matrix hub) (Z_matrix hub).

Definition append_hub_output (hub : EnergyHub) (i : nat) : EnergyHub :=
  mkEnergyHub (hub_name hub) (components hub) (global_branches hub)
    (port_to_global_branch_map hub)
    (hub_input_branch_indices hub) (rcons (hub_output_branch_indices hub) i)
    (X_matrix hub) (Y_matrix hub) (Z_matrix hub).

Definition set_system_matrices (hub : EnergyHub) (X Y Z : Matrix F) : EnergyHub :=
  mkEnergyHub (hub_name hub) (components hub) (global_branches hub)
    (port_to_global_branch_map hub)
    (hub_input_branch_indices hub) (hub_output_branch_indices hub)
    (Some X) (Some Y) (Some Z).

(** The configuration dictionary handed from [build] to [load_config]. *)
Record Config : Type := mkConfig {
  cfg_components : seq (string * comp_init);
  cfg_branches : seq string;
  cfg_port_mappings : dict string (dict string string);
  cfg_hub_inputs : seq string;
  cfg_hub_outputs : seq string
}.

(** [{name: i for i, name in enumerate(branches)}] *)
Definition branch_name_to_index (branches : seq string) : dict string nat :=
  foldl (fun d ib => dict_set d ib.2 ib.1) [::] (enumerate branches).

Definition load_config (hub : EnergyHub) (config : Config) : result EnergyHub :=
  hub <- for_each (fun h cc =>
           EnergyHub_add_component h (new_component cc.1 cc.2))
         hub (cfg_components config) ;;
  let hub := set_global_branches hub (cfg_branches config) in
  if nilp (global_branches hub) then Err NoBranchesInConfig else
  let index := branch_name_to_index (global_branches hub) in
  hub <- for_each (fun h cm =>
           let: (comp_name, port_mappings) := cm in
           if ~~ dict_mem (components h) comp_name
           then Err (MappingForUnknownComponent comp_name)
           else for_each (fun h pb =>
                  let: (port_name, branch) := pb in
                  if dict_get index branch is Some i
                  then Ok (map_port h (comp_name, port_name) i)
                  else Err (UnknownBranch branch comp_name port_name))
                h port_mappings)
         hub (cfg_port_mappings config) ;;
  hub <- for_each (fun h branch =>
           if dict_get index branch is Some i then Ok (append_hub_input h i)
           else Err (UnknownHubInput branch))
         hub (cfg_hub_inputs config) ;;
  for_each (fun h branch =>
    if dict_get index branch is Some i then Ok (append_hub_output h i)
    else Err (UnknownHubOutput branch))
  hub (cfg_hub_outputs config).

(** ** Matrix assembly ([core/matrix_builder.py]) *)

(** The global incidence expansion [Ag_global] of one component. *)
Definition build_Ag_global (hub : EnergyHub) (comp_name : string)
    (component : Component) (B : nat) : result (Matrix F) :=
  let Hg := get_characteristic_matrix component in
  let num_comp_ports := cols Hg in
  let Ag_global := zeros F num_comp_ports B in
  Ag_global <- for_each (fun Ag pl =>
      let: (port_name, local_port_index) := pl in
      if dict_get (port_to_global_branch_map hub) (comp_name, port_name)
        is Some global_branch_index
      then setitem Ag local_port_index global_branch_index 1%R
      else Err (InputPortNotMapped port_name comp_name))
    Ag_global (input_ports component) ;;
  for_each (fun Ag pl =>
      let: (port_name, local_port_index) := pl in
      if dict_get (port_to_global_branch_map hub) (comp_name, port_name)
        is Some global_branch_index
      then setitem Ag local_port_index global_branch_index (-1)%R
      else Err (OutputPortNotMapped port_name comp_name))
    Ag_global (output_ports component).

(** The two loops of [build_Ag_global] share their body up to the value
    written and the message: write [x] at the row of the port and the column
    of the branch it is bound to. *)
Definition mark (hub : EnergyHub) (comp_name : string) (x : F)
    (err : string -> string -> error) (M : Matrix F) (pl : string * nat)
    : result (Matrix F) :=
  let: (port_name, local_port_index) := pl in
  if dict_get (port_to_global_branch_map hub) (comp_name, port_name)
    is Some global_branch_index
  then setitem M local_port_index global_branch_index x
  else Err (err port_name comp_name).

(** The branch a port of a component is bound to. *)
Definition bound_to (hub : EnergyHub) (comp_name port_name : string)
    : option nat :=
  dict_get (port_to_global_branch_map hub) (comp_name, port_name).

(** The port entry [pl] writes at row [i], column [j]. *)
Definition hits (hub : EnergyHub) (comp_name : string) (i j : nat)
    (pl : string * nat) : bool :=
  (pl.2 == i) && (bound_to hub comp_name pl.1 == Some j).

(** The local indices of the ports of a component, inputs first. *)
Definition local_indices (c : Component) : seq nat :=
  dict_vals (input_ports c) ++ dict_vals (output_ports c).

(** One block of Z: [Zg = Hg * Ag_global]. *)
Definition build_Z_block (hub : EnergyHub) (comp_name : string)
    (component : Component) (B : nat) : result (Matrix F) :=
  Ag_global <- build_Ag_global hub comp_name component B ;;
  mmul (get_characteristic_matrix component) Ag_global.

(** The 0/1 selector over a list of branch indices (X and Y). *)
Definition selector (indices : seq nat) (B : nat) : result (Matrix F) :=
  for_each (fun M ib => setitem M ib.1 ib.2 1%R)
    (zeros F (size indices) B) (enumerate indices).

Definition build_system_matrices (hub : EnergyHub)
    : result (EnergyHub * (Matrix F * Matrix F * Matrix F))%type :=
  let B := size (global_branches hub) in
  if B == 0 then Err NoGlobalBranches else
  Z_blocks <- for_each (fun blocks nc =>
      Zg <- build_Z_block hub nc.1 nc.2 B ;; Ok (rcons blocks Zg))
    [::] (components hub) ;;
  Z_matrix <- (if nilp Z_blocks then Ok (zeros F 0 B) else vstack Z_blocks) ;;
  X_matrix <- selector (hub_input_branch_indices hub) B ;;
  Y_matrix <- selector (hub_output_branch_indices hub) B ;;
  Ok (set_system_matrices hub X_matrix Y_matrix Z_matrix,
      (X_matrix, Y_matrix, Z_matrix)).

(** ** The topology graph ([graph/builder.py])

    [networkx.DiGraph] keeps a node table and, per node, a table of its
    successors holding the attributes of the edge; both are dictionaries.  A
    [DiGraph] has at most one edge from [u] to [v]: [add_edge] on an existing
    pair updates the attributes of that edge in place. *)

Inductive io_type : Type := io_input | io_output.

Inductive node_attr : Type :=
  | NodeComponent (component_instance : Component)
  | NodeIO (t : io_type).

Record edge_attr : Type := mkEdge {
  from_port : string;
  to_port : string;
  branch_name : string
}.

Record DiGraph : Type := mkDiGraph {
  nodes : dict string node_attr;
  adj : dict string (dict string edge_attr)
}.

Definition empty_graph : DiGraph := mkDiGraph [::] [::].

Definition add_node (G : DiGraph) (n : string) (a : node_attr) : DiGraph :=
  if dict_mem (nodes G) n then mkDiGraph (dict_set (nodes G) n a) (adj G)
  else mkDiGraph (dict_set (nodes G) n a) (dict_set (adj G) n [::]).

Definition add_edge (G : DiGraph) (u v : string) (e : edge_attr) : DiGraph :=
  let nbrs := if dict_get (adj G) u is Some d then d else [::] in
  mkDiGraph (nodes G) (dict_set (adj G) u (dict_set nbrs v e)).

(** [G.edges(data=True)]: by source node in node order, then by successor
    in the order the successors were first linked. *)
Definition edges (G : DiGraph) : seq (string * string * edge_attr) :=
  flatten [seq [seq (un.1, ve.1, ve.2) | ve <- un.2] | un <- adj G].

Definition is_component_node (G : DiGraph) (n : string) : bool :=
  if dict_get (nodes G) n is Some (NodeComponent _) then true else false.

Definition is_io_node (G : DiGraph) (n : string) (t : io_type) : bool :=
  match dict_get (nodes G) n, t with
  | Some (NodeIO io_input), io_input => true
  | Some (NodeIO io_output), io_output => true
  | _, _ => false
  end.

(** The builder.  The keyword arguments kept in [component_init_args] are
    those carried by [init] of the instance. *)
Record GraphEnergyHub : Type := mkGraphEnergyHub {
  graph_name : string;
  graph : DiGraph;
  component_instances : dict string Component;
  io_nodes : dict string io_type
}.

Definition new_graph_hub (nm : string) : GraphEnergyHub :=
  mkGraphEnergyHub nm empty_graph [::] [::].

Definition add_component (g : GraphEnergyHub) (nm : string) (i : comp_init)
    : result GraphEnergyHub :=
  if dict_mem (nodes (graph g)) nm then Err (NodeExists nm) else
  let component_instance := new_component nm i in
  Ok (mkGraphEnergyHub (graph_name g)
        (add_node (graph g) nm (NodeComponent component_instance))
        (dict_set (component_instances g) nm component_instance)
        (io_nodes g)).

Definition add_io_node (g : GraphEnergyHub) (nm : string) (t : io_type)
    : result GraphEnergyHub :=
  if dict_mem (nodes (graph g)) nm then Err (NodeExists nm) else
  Ok (mkGraphEnergyHub (graph_name g)
        (add_node (graph g) nm (NodeIO t))
        (component_instances g)
        (dict_set (io_nodes g) nm t)).

(** The name of the branch of an edge. *)
Definition edge_branch_name (from_node from_port to_node to_port : string)
    : string :=
  from_node ++ "_" ++ from_port ++ "_to_" ++ to_node ++ "_" ++ to_port.

Definition check_source (g : GraphEnergyHub) (from_node from_port : string)
    : result unit :=
  match dict_get (nodes (graph g)) from_node with
  | Some (NodeComponent _) =>
      if dict_get (component_instances g) from_node is Some comp then
        if dict_mem (output_ports comp) from_port then Ok tt
        else Err (NotAnOutputPort from_port from_node)
      else Err (KeyError from_node)
  | Some (NodeIO _) =>
      match dict_get (io_nodes g) from_node with
      | Some io_input => Ok tt
      | Some io_output => Err (NotAnInputNode from_node)
      | None => Err (KeyError from_node)
      end
  | None => Err (SourceNotFound from_node)
  end.

Definition check_destination (g : GraphEnergyHub) (to_node to_port : string)
    : result unit :=
  match dict_get (nodes (graph g)) to_node with
  | Some (NodeComponent _) =>
      if dict_get (component_instances g) to_node is Some comp then
        if dict_mem (input_ports comp) to_port then Ok tt
        else Err (NotAnInputPort to_port to_node)
      else Err (KeyError to_node)
  | Some (NodeIO _) =>
      match dict_get (io_nodes g) to_node with
      | Some io_output => Ok tt
      | Some io_input => Err (NotAnOutputNode to_node)
      | None => Err (KeyError to_node)
      end
  | None => Err (DestinationNotFound to_node)
  end.

Definition connect (g : GraphEnergyHub)
    (from_node from_port to_node to_port : string) : result GraphEnergyHub :=
  if ~~ dict_mem (nodes (graph g)) from_node then Err (SourceNotFound from_node)
  else if ~~ dict_mem (nodes (graph g)) to_node
  then Err (DestinationNotFound to_node) else
  _ <- check_source g from_node from_port ;;
  _ <- check_destination g to_node to_port ;;
  let branch_name := edge_branch_name from_node from_port to_node to_port in
  Ok (mkGraphEnergyHub (graph_name g)
        (add_edge (graph g) from_node to_node
           (mkEdge from_port to_port branch_name))
        (component_instances g) (io_nodes g)).

(** *** Compilation: [GraphEnergyHub.build] *)

(** [config['port_mappings'][comp][port] = branch] on a
    [defaultdict(dict)] *)
Definition bind_port (pm : dict string (dict string string))
    (comp port branch : string) : dict string (dict string string) :=
  let ports := if dict_get pm comp is Some d then d else [::] in
  dict_set pm comp (dict_set ports port branch).

(** The body of the loop over the edges. *)
Definition compile_edge (G : DiGraph) (config : Config)
    (edge : string * string * edge_attr) : Config :=
  let: (u, v, edge_data) := edge in
  let branch_name := branch_name edge_data in
  let branches := rcons (cfg_branches config) branch_name in
  let pm := cfg_port_mappings config in
  let pm := if is_component_node G u
            then bind_port pm u (from_port edge_data) branch_name else pm in
  let pm := if is_component_node G v
            then bind_port pm v (to_port edge_data) branch_name else pm in
  let hub_inputs := if is_io_node G u io_input
                    then rcons (cfg_hub_inputs config) branch_name
                    else cfg_hub_inputs config in
  let hub_outputs := if is_io_node G v io_output
                     then rcons (cfg_hub_outputs config) branch_name
                     else cfg_hub_outputs config in
  mkConfig (cfg_components config) branches pm hub_inputs hub_outputs.

Definition virtual_port_name : string := "delta_soc".

Definition virtual_branch_name (comp_name : string) : string :=
  comp_name ++ "_" ++ virtual_port_name ++ "_branch".

(** The body of the loop that adds the virtual branches of the storages. *)
Definition compile_storage (config : Config) (nc : string * Component)
    : Config :=
  let: (comp_name, comp_instance) := nc in
  if is_storage comp_instance then
    mkConfig (cfg_components config)
      (rcons (cfg_branches config) (virtual_branch_name comp_name))
      (bind_port (cfg_port_mappings config) comp_name virtual_port_name
         (virtual_branch_name comp_name))
      (cfg_hub_inputs config) (cfg_hub_outputs config)
  else config.

(** The configuration before [sorted(list(set(...)))] is applied. *)
Definition raw_config (g : GraphEnergyHub) : Config :=
  let config :=
    mkConfig [seq (nc.1, init nc.2) | nc <- component_instances g]
      [::] [::] [::] [::] in
  let config := foldl (compile_edge (graph g)) config (edges (graph g)) in
  foldl compile_storage config (component_instances g).

(** [sorted(list(set(xs)))].  The order in which Python lists the elements
    of a set is not specified; [set_list] is that order. *)
Definition sorted_set (set_list : seq string -> seq string) (xs : seq string)
    : seq string :=
  sort str_le (set_list xs).

Definition build_config_with (set_list : seq string -> seq string)
    (g : GraphEnergyHub) : Config :=
  let config := raw_config g in
  mkConfig (cfg_components config)
    (sorted_set set_list (cfg_branches config))
    (cfg_port_mappings config)
    (sorted_set set_list (cfg_hub_inputs config))
    (sorted_set set_list (cfg_hub_outputs config)).

Definition build_with (set_list : seq string -> seq string)
    (g : GraphEnergyHub) : result EnergyHub :=
  let config := build_config_with set_list g in
  hub <- load_config (new_hub (graph_name g)) config ;;
  r <- build_system_matrices hub ;;
  Ok r.1.

Definition build_config : GraphEnergyHub -> Config := build_config_with undup.

Definition build : GraphEnergyHub -> result EnergyHub := build_with undup.

(** The number of balance rows of the components of a hub. *)
Definition balance_rows (hub : EnergyHub) : nat :=
  sumn [seq rows (get_characteristic_matrix nc.2) | nc <- components hub].

(** *** Vocabulary of the statements on compilation *)

(** The branch names of the edges, in the order of enumeration. *)
Definition edge_branches (g : GraphEnergyHub) : seq string :=
  [seq branch_name e.2 | e <- edges (graph g)].

(** The names of the storage components, in registration order. *)
Definition storages (g : GraphEnergyHub) : seq string :=
  [seq nc.1 | nc <- component_instances g & is_storage nc.2].

(** The branch bound to a port of a component: [pm[comp][port]]. *)
Definition pm_binding (pm : dict string (dict string string))
    (comp port : string) : option string :=
  if dict_get pm comp is Some ports then dict_get ports port else None.

Definition port_binding (config : Config) (comp port : string)
    : option string :=
  pm_binding (cfg_port_mappings config) comp port.

(** The edge has port [port] of the component node [comp] as an endpoint. *)
Definition edge_touches (G : DiGraph) (comp port : string)
    (e : string * string * edge_attr) : bool :=
  let: (u, v, d) := e in
  [&& is_component_node G u, u == comp & from_port d == port]
  || [&& is_component_node G v, v == comp & to_port d == port].

(** The branches of the edges at a port, in the order of enumeration. *)
Definition touching_branches (g : GraphEnergyHub) (comp port : string)
    : seq string :=
  [seq branch_name e.2
     | e <- edges (graph g) & edge_touches (graph g) comp port e].

(** An order of listing is admissible when it lists each element of the
    set once. *)
Definition set_listing (set_list : seq string -> seq string) : Prop :=
  forall xs, perm_eq (set_list xs) (undup xs).

(** ** Coupling derivation ([analysis/symbolic_analyzer.py]) *)

Record SymbolicAnalyzer : Type := mkSymbolicAnalyzer {
  energy_hub : EnergyHub;
  C_matrix : option (Matrix F)
}.

Definition new_analyzer (hub : EnergyHub) : SymbolicAnalyzer :=
  mkSymbolicAnalyzer hub None.

Definition derive_coupling_matrix (a : SymbolicAnalyzer)
    : result (SymbolicAnalyzer * Matrix F) :=
  match X_matrix (energy_hub a), Y_matrix (energy_hub a),
        Z_matrix (energy_hub a) with
  | Some X, Some Y, Some Z =>
      Q <- vstack [:: X; Z] ;;
      let num_hub_inputs := rows X in
      let num_Z_rows := rows Z in
      R <- vstack [:: mneg (eye F num_hub_inputs);
                      zeros F num_Z_rows num_hub_inputs] ;;
      if rows Q != cols Q then Err (QNotSquare (rows Q) (cols Q)) else
      Q_inv <- (if inv Q is Ok Q_inv then Ok Q_inv else Err QSingular) ;;
      YQ <- mmul (mneg Y) Q_inv ;;
      C <- mmul YQ R ;;
      Ok (mkSymbolicAnalyzer (energy_hub a) (Some C), C)
  | _, _, _ => Err MatricesNotSet
  end.

End Hub.

(** ** Example topologies

    The scalars of the examples are rational numbers. *)

(** The two-converter example of [examples/01_build_with_graph.py], for
    arbitrary efficiencies. *)
Definition two_converters (F : fieldType) (eta_q eta_w eta : F)
    : result (GraphEnergyHub F) :=
  g <- add_component (new_graph_hub F "MyGraphHub")
         "CHP1" (CHPBackPressure eta_q eta_w [::]) ;;
  g <- add_component g "Boiler1" (Boiler eta) ;;
  g <- add_io_node g "GasInput" io_input ;;
  g <- add_io_node g "HeatLoad" io_output ;;
  g <- add_io_node g "ElecLoad" io_output ;;
  g <- connect g "GasInput" "out" "CHP1" "fuel_in" ;;
  g <- connect g "CHP1" "heat_out" "HeatLoad" "in" ;;
  g <- connect g "CHP1" "elec_out" "ElecLoad" "in" ;;
  g <- connect g "GasInput" "out" "Boiler1" "fuel_in" ;;
  connect g "Boiler1" "heat_out" "HeatLoad" "in".

(** A cogeneration unit whose two electrical ports both feed one load. *)
Definition parallel_ports : result (GraphEnergyHub rat) :=
  g <- add_component (new_graph_hub rat "Parallel")
         "CHP1" (CHPBackPressure 0.8%Q 0.3%Q [:: "e1"; "e2"]) ;;
  g <- add_io_node g "GasInput" io_input ;;
  g <- add_io_node g "HeatLoad" io_output ;;
  g <- add_io_node g "ElecLoad" io_output ;;
  g <- connect g "GasInput" "out" "CHP1" "fuel_in" ;;
  g <- connect g "CHP1" "heat_out" "HeatLoad" "in" ;;
  g <- connect g "CHP1" "e1" "ElecLoad" "in" ;;
  connect g "CHP1" "e2" "ElecLoad" "in".

(** A storage whose name makes its virtual branch share the name of the
    branch of an edge between two boundary nodes. *)
Definition colliding_storage : result (GraphEnergyHub rat) :=
  g <- add_component (new_graph_hub rat "Collision")
         "Gas_out_to_Load" (Storage 0.95%Q 0.9%Q) ;;
  g <- add_io_node g "Gas" io_input ;;
  g <- add_io_node g "Load" io_output ;;
  g <- connect g "Gas" "out" "Gas_out_to_Load" "energy_in" ;;
  g <- connect g "Gas_out_to_Load" "energy_out" "Load" "in" ;;
  connect g "Gas" "out" "Load" "delta_soc_branch".

(** A storage whose virtual port is the destination of two edges. *)
Definition fed_virtual_port : result (GraphEnergyHub rat) :=
  g <- add_component (new_graph_hub rat "Virtual") "S" (Storage 0.95%Q 0.9%Q) ;;
  g <- add_io_node g "I1" io_input ;;
  g <- add_io_node g "I2" io_input ;;
  g <- add_io_node g "I3" io_input ;;
  g <- add_io_node g "O" io_output ;;
  g <- connect g "I1" "out" "S" "delta_soc" ;;
  g <- connect g "I2" "out" "S" "delta_soc" ;;
  g <- connect g "I3" "out" "S" "energy_in" ;;
  connect g "S" "energy_out" "O" "in".

(** A boiler feeding two loads from its single output port. *)
Definition fan_out : result (GraphEnergyHub rat) :=
  g <- add_component (new_graph_hub rat "FanOut") "Boiler1" (Boiler 0.9%Q) ;;
  g <- add_io_node g "GasInput" io_input ;;
  g <- add_io_node g "Load1" io_output ;;
  g <- add_io_node g "Load2" io_output ;;
  g <- connect g "GasInput" "out" "Boiler1" "fuel_in" ;;
  g <- connect g "Boiler1" "heat_out" "Load1" "in" ;;
  connect g "Boiler1" "heat_out" "Load2" "in".

(** The graph of a successful construction, the hub of a successful
    build. *)
Definition the_graph (r : result (GraphEnergyHub rat)) : GraphEnergyHub rat :=
  value_or (new_graph_hub rat "") r.

Definition the_hub (r : result (EnergyHub rat)) : EnergyHub rat :=
  value_or (new_hub rat "") r.

(** A matrix as plain data: its shape and its rows. *)
Definition matrix_data (M : Matrix rat) : nat * nat * seq (seq rat) :=
  (rows M, cols M, entries M).

(** A hub without branches holding a boiler, none of whose ports is bound. *)
Definition hub_without_branches : result (EnergyHub rat) :=
  EnergyHub_add_component (new_hub rat "Empty") (new_component "B1" (Boiler 0.9%Q)).

(** A manually configured hub (as in [tests/test_matrix_builder.py]) with a
    boiler whose output port is left unbound. *)
Definition hub_unbound_output : EnergyHub rat :=
  mkEnergyHub "Unbound" [:: ("B1", new_component "B1" (Boiler 0.9%Q))]
    [:: "gas_in"; "heat_out"] [:: (("B1", "fuel_in"), 0)] [:: 0] [:: 1]
    None None None.

(** The same hub with the input port of the boiler bound beyond the two
    branches. *)
Definition hub_binding_out_of_range : EnergyHub rat :=
  mkEnergyHub "OutOfRange" [:: ("B1", new_component "B1" (Boiler 0.9%Q))]
    [:: "gas_in"; "heat_out"] [:: (("B1", "fuel_in"), 5)] [:: 0] [:: 1]
    None None None.

(** The same hub with a boiler that was given, by [add_input_port], a further
    port whose local index is beyond its matrices. *)
Definition hub_port_added_by_hand : EnergyHub rat :=
  mkEnergyHub "ByHand"
    [:: ("B1", add_input_port (new_component "B1" (Boiler 0.9%Q)) "x" 9)]
    [:: "gas_in"; "heat_out"] [:: (("B1", "fuel_in"), 0); (("B1", "x"), 0)]
    [:: 0] [:: 1] None None None.

(** The hub of [test_simple_chp_system_numeric]. *)
Definition hub_simple_chp : EnergyHub rat :=
  mkEnergyHub "TestHub_CHP_Numeric"
    [:: ("CHP1", new_component "CHP1" (CHPBackPressure 0.8%Q 0.3%Q [:: "elec_out"]))]
    [:: "gas_in"; "heat_out"; "elec_out"]
    [:: (("CHP1", "fuel_in"), 0); (("CHP1", "heat_out"), 1);
        (("CHP1", "elec_out"), 2)]
    [:: 0] [:: 1; 2] None None None.

(** A storage bound by hand to three branches. *)
Definition hub_storage : EnergyHub rat :=
  mkEnergyHub "Storage"
    [:: ("S", new_component "S" (Storage 0.95%Q 0.9%Q))]
    [:: "in"; "out"; "soc"]
    [:: (("S", "energy_in"), 0); (("S", "energy_out"), 1);
        (("S", "delta_soc"), 2)]
    [:: 0] [:: 1] None None None.

(** Listing a set in the reverse of the order of [undup]. *)
Definition rev_listing (xs : seq string) : seq string := rev (undup xs).

(** The hub of a graph as [load_config] leaves it, before assembly. *)
Definition loaded (g : GraphEnergyHub rat) : EnergyHub rat :=
  the_hub (load_config (new_hub rat (graph_name g)) (build_config g)).

(** The result of a successful assembly. *)
Definition assembled (hub : EnergyHub rat)
    : EnergyHub rat * (Matrix rat * Matrix rat * Matrix rat) :=
  value_or (hub, (zeros rat 0 0, zeros rat 0 0, zeros rat 0 0))
    (build_system_matrices hub).

(** The matrices expected by [examples/01_build_with_graph.py]. *)
Definition expected_X : Matrix rat :=
  Mx 2 5 [:: [:: 0; 0; 0; 1; 0]; [:: 0; 0; 0; 0; 1]]%Q.

Definition expected_Y : Matrix rat :=
  Mx 3 5 [:: [:: 1; 0; 0; 0; 0]; [:: 0; 1; 0; 0; 0]; [:: 0; 0; 1; 0; 0]]%Q.

Definition expected_Z : Matrix rat :=
  Mx 3 5 [:: [:: 0; 0; 1; 0; 0.8]; [:: 0; 1; 0; 0; 0.3];
             [:: 1; 0; 0; 0.9; 0]]%Q.

(** The inverse of the matrix Q of [hub_simple_chp], and its coupling
    matrix. *)
Definition simple_chp_Q_inv : Matrix rat :=
  Mx 3 3 [:: [:: 1; 0; 0]; [:: -0.8; 1; 0]; [:: -0.3; 0; 1]]%Q.

Definition simple_chp_C : Matrix rat := Mx 2 1 [:: [:: -0.8]; [:: -0.3]]%Q.

(** * Further parts of the code

    The local incidence matrices of the components, the hub's accessor for
    its matrices, the graphs that the builder's interface can produce, and
    the bookkeeping on branch names with which
    [solvers/optimizer.py] starts. *)

HB.instance Definition _ := hasDecEq.Build ascii Ascii.eqb_spec.

Section Further.
Variable F : fieldType.

(** ** [get_port_branch_matrix] ([converters.py], [storage.py]) *)

Definition get_port_branch_matrix (c : Component F) : result (Matrix F) :=
  match init c with
  | CHPBackPressure _ _ eps =>
      let elec_ports := chp_elec_ports eps in
      let num_ports := 2 + size elec_ports in
      let Ag := zeros F num_ports num_ports in
      Ag <- setitem Ag 0 0 1%R ;;
      Ag <- setitem Ag 1 1 (-1)%R ;;
      for_each (fun Ag i => setitem Ag (2 + i) (2 + i) (-1)%R)
        Ag (iota 0 (size elec_ports))
  | Boiler _ => Ok (of_rows [:: [:: 1; 0]; [:: 0; -1]])%R
  | Storage _ _ =>
      Ok (of_rows [:: [:: 1; 0; 0]; [:: 0; -1; 0]; [:: 0; 0; 1]])%R
  | ConvertibleLoad _ =>
      Ok (of_rows [:: [:: 1; 0; 0]; [:: 0; 1; 0]; [:: 0; 0; -1]])%R
  | ElectricBoiler _ => Ok (of_rows [:: [:: 1; 0]; [:: 0; -1]])%R
  | HeatPump _ => Ok (of_rows [:: [:: 1; 0]; [:: 0; -1]])%R
  | AbsorptionChiller _ => Ok (of_rows [:: [:: 1; 0]; [:: 0; -1]])%R
  | Transformer _ => Ok (of_rows [:: [:: 1; 0]; [:: 0; -1]])%R
  | PowerToGas _ => Ok (of_rows [:: [:: 1; 0]; [:: 0; -1]])%R
  end.

(** ** [EnergyHub.get_system_matrices] *)

Definition get_system_matrices (hub : EnergyHub F)
    : option (Matrix F) * option (Matrix F) * option (Matrix F) :=
  (X_matrix hub, Y_matrix hub, Z_matrix hub).

(** ** The loops of [load_config]

    The bodies of the three loops that follow the instantiation of the
    components, and the hub that a successful [load_config] leaves. *)

Definition map_ports (index : dict string nat) (h : EnergyHub F)
    (cm : string * dict string string) : result (EnergyHub F) :=
  let: (comp_name, port_mappings) := cm in
  if ~~ dict_mem (components h) comp_name
  then Err (MappingForUnknownComponent comp_name)
  else for_each (fun h pb =>
         let: (port_name, branch) := pb in
         if dict_get index branch is Some i
         then Ok (map_port h (comp_name, port_name) i)
         else Err (UnknownBranch branch comp_name port_name))
       h port_mappings.

Definition note_hub_input (index : dict string nat) (h : EnergyHub F)
    (branch : string) : result (EnergyHub F) :=
  if dict_get index branch is Some i then Ok (append_hub_input h i)
  else Err (UnknownHubInput branch).

Definition note_hub_output (index : dict string nat) (h : EnergyHub F)
    (branch : string) : result (EnergyHub F) :=
  if dict_get index branch is Some i then Ok (append_hub_output h i)
  else Err (UnknownHubOutput branch).

(** The index of a branch name in the branch list of a configuration. *)
Definition cfg_index (config : Config F) (b : string) : nat :=
  odflt 0 (dict_get (branch_name_to_index (cfg_branches config)) b).

(** The bindings of a configuration in the order in which the loops meet
    them. *)
Definition cfg_bindings (config : Config F)
    : seq ((string * string) * string) :=
  flatten [seq [seq ((cm.1, pb.1), pb.2) | pb <- cm.2]
          | cm <- cfg_port_mappings config].

Definition loaded_hub (hub : EnergyHub F) (config : Config F) : EnergyHub F :=
  mkEnergyHub (hub_name hub)
    (components hub
     ++ [seq (cc.1, new_component cc.1 cc.2) | cc <- cfg_components config])
    (cfg_branches config)
    (foldl (fun m kb => dict_set m kb.1 (cfg_index config kb.2))
       (port_to_global_branch_map hub) (cfg_bindings config))
    (hub_input_branch_indices hub
     ++ [seq cfg_index config b | b <- cfg_hub_inputs config])
    (hub_output_branch_indices hub
     ++ [seq cfg_index config b | b <- cfg_hub_outputs config])
    (X_matrix hub) (Y_matrix hub) (Z_matrix hub).

(** What [load_config] checks, in the order of its checks. *)
Definition loadable (hub : EnergyHub F) (config : Config F) : bool :=
  [&& uniq (dict_keys (cfg_components config)),
      all (fun n => ~~ dict_mem (components hub) n)
          (dict_keys (cfg_components config)),
      cfg_branches config != [::],
      all (fun cm =>
             (dict_mem (components hub) cm.1
              || (cm.1 \in dict_keys (cfg_components config)))
             && all (fun pb => pb.2 \in cfg_branches config) cm.2)
          (cfg_port_mappings config),
      all (fun b => b \in cfg_branches config) (cfg_hub_inputs config)
    & all (fun b => b \in cfg_branches config) (cfg_hub_outputs config)].

(** ** What the loaders and the assembler require *)

(** A hub whose components are instances made by the constructors of the
    catalogue (the only way [load_config] and the builder make them). *)
Definition catalogue_instances (hub : EnergyHub F) : Prop :=
  forall nc, List.In nc (components hub) ->
    nc.2 = new_component (name nc.2) (init nc.2).

(** Every declared port of the component is bound to one of [B] branches. *)
Definition ports_bound (hub : EnergyHub F) (B : nat)
    (nc : string * Component F) : bool :=
  all (fun pl => if bound_to hub nc.1 pl.1 is Some b then b < B else false)
      (input_ports nc.2 ++ output_ports nc.2).

(** ** The graphs made through the builder's interface *)

Inductive constructed : GraphEnergyHub F -> Prop :=
  | constructed_new nm : constructed (new_graph_hub F nm)
  | constructed_add_component g nm i g' :
      constructed g -> add_component g nm i = Ok g' -> constructed g'
  | constructed_add_io_node g nm t g' :
      constructed g -> add_io_node g nm t = Ok g' -> constructed g'
  | constructed_connect g u p v q g' :
      constructed g -> connect g u p v q = Ok g' -> constructed g'.

(** The result of a sequence of calls of the interface. *)
Definition constructed_result (r : result (GraphEnergyHub F)) : Prop :=
  if r is Ok g then constructed g else True.

(** [G[u][v]]: the attributes of the edge from [u] to [v], if there is one. *)
Definition edge_data (G : DiGraph F) (u v : string) : option edge_attr :=
  if dict_get (adj G) u is Some nbrs then dict_get nbrs v else None.

(** What [connect] checks of a source and of a destination. *)
Definition source_ok (g : GraphEnergyHub F) (from_node from_port : string)
    : bool :=
  match dict_get (nodes (graph g)) from_node with
  | Some (NodeComponent comp) => dict_mem (output_ports comp) from_port
  | Some (NodeIO io_input) => true
  | _ => false
  end.

Definition destination_ok (g : GraphEnergyHub F) (to_node to_port : string)
    : bool :=
  match dict_get (nodes (graph g)) to_node with
  | Some (NodeComponent comp) => dict_mem (input_ports comp) to_port
  | Some (NodeIO io_output) => true
  | _ => false
  end.

(** An edge as [connect] makes it: its source and its destination pass the
    checks and its branch is named after its four fields. *)
Definition edge_ok (g : GraphEnergyHub F) (e : string * string * edge_attr)
    : bool :=
  [&& source_ok g e.1.1 (from_port e.2),
      destination_ok g e.1.2 (to_port e.2)
    & branch_name e.2
      == edge_branch_name e.1.1 (from_port e.2) e.1.2 (to_port e.2)].

(** The node table of the graph and the dictionaries of the builder agree,
    the components are instances of the catalogue under their own names, and
    the edges are as [connect] makes them. *)
Definition consistent (g : GraphEnergyHub F) : Prop :=
  [/\ forall n c, dict_get (nodes (graph g)) n = Some (NodeComponent c)
                  <-> dict_get (component_instances g) n = Some c,
      forall n t, dict_get (nodes (graph g)) n = Some (NodeIO F t)
                  <-> dict_get (io_nodes g) n = Some t,
      uniq (dict_keys (component_instances g)),
      forall nc, List.In nc (component_instances g) ->
        nc.2 = new_component nc.1 (init nc.2)
    & (forall n, n \in dict_keys (adj (graph g)) ->
         n \in dict_keys (nodes (graph g)))
      /\ all (edge_ok g) (edges (graph g))].

(** A well-formed configuration for components named [names]: its port
    mappings are dictionaries (no key twice) for components of [names] to
    branches of its list, and its hub inputs and outputs are branches of its
    list. *)
Definition mapping_ok (names branches : seq string)
    (cm : string * dict string string) : bool :=
  [&& uniq (dict_keys cm.2), cm.1 \in names
    & all (fun pb => pb.2 \in branches) cm.2].

Definition config_ok (names : seq string) (config : Config F) : bool :=
  [&& uniq (dict_keys (cfg_port_mappings config)),
      all (mapping_ok names (cfg_branches config)) (cfg_port_mappings config),
      all (fun b => b \in cfg_branches config) (cfg_hub_inputs config)
    & all (fun b => b \in cfg_branches config) (cfg_hub_outputs config)].

(** The declared ports of the components of the graph, as pairs of a
    component name and a port name. *)
Definition declared_ports (g : GraphEnergyHub F) : seq (string * string) :=
  flatten [seq [seq (nc.1, p) | p <- dict_keys (input_ports nc.2)
                                      ++ dict_keys (output_ports nc.2)]
          | nc <- component_instances g].

(** A port is connected when an edge has it as an endpoint, or when it is
    the virtual port of a storage. *)
Definition connected (g : GraphEnergyHub F) (cp : string * string) : bool :=
  has (edge_touches (graph g) cp.1 cp.2) (edges (graph g))
  || ((cp.2 == virtual_port_name) && (cp.1 \in storages g)).

End Further.

(** ** Branch names in [solve_economic_dispatch] ([solvers/optimizer.py]) *)

(** [xs[i]] on a list, for a non-negative index. *)
Definition getitem (xs : seq string) (i : nat) : result string :=
  if i < size xs then Ok (nth "" xs i) else Err IndexError.

(** [[global_branches[i] for i in indices]] *)
Definition branches_at (global_branches : seq string) (indices : seq nat)
    : result (seq string) :=
  for_each (fun acc i => b <- getitem global_branches i ;; Ok (rcons acc b))
    [::] indices.

Definition hub_input_branches (F : fieldType) (hub : EnergyHub F)
    : result (seq string) :=
  branches_at (global_branches hub) (hub_input_branch_indices hub).

Definition hub_output_branches (F : fieldType) (hub : EnergyHub F)
    : result (seq string) :=
  branches_at (global_branches hub) (hub_output_branch_indices hub).

(** [s.startswith(p)] *)
Fixpoint starts_with (p s : string) : bool :=
  match p, s with
  | EmptyString, _ => true
  | String a p', String b s' => (a == b) && starts_with p' s'
  | String _ _, EmptyString => false
  end.

(** [s.split(sep)] for a separator that is not empty: the occurrences of
    [sep] are searched from the left and do not overlap.  [skip] counts the
    characters of a separator just found that are still to be passed, [cur]
    is the piece being read. *)
Fixpoint split_loop (sep s : string) (skip : nat) (cur : string)
    : seq string :=
  match s with
  | EmptyString => [:: cur]
  | String a s' =>
      if skip is k.+1 then split_loop sep s' k cur
      else if starts_with sep s
      then cur :: split_loop sep s' (String.length sep).-1 ""
      else split_loop sep s' 0 (cur ++ String a "")%string
  end.

Definition split (sep s : string) : seq string := split_loop sep s 0 "".

(** [branch_name.split('_to_')[1].split('_')[0]] *)
Definition destination_node (branch_name : string) : result string :=
  match split "_to_" branch_name with
  | _ :: rest :: _ => Ok (head "" (split "_" rest))
  | _ => Err IndexError
  end.

(** The grouping of the output branches by destination node, a
    [defaultdict(list)]. *)
Definition output_node_to_branches (hub_output_branches : seq string)
    : result (dict string (seq string)) :=
  for_each (fun d branch_name =>
      to_node <- destination_node branch_name ;;
      let bs := if dict_get d to_node is Some bs then bs else [::] in
      Ok (dict_set d to_node (rcons bs branch_name)))
    [::] hub_output_branches.

(** ['_' in s] *)
Fixpoint has_underscore (s : string) : bool :=
  if s is String a s' then (a == "_"%char) || has_underscore s' else false.


(** ** Further examples *)

(** A boiler between a gas input and a heat output, as a configuration. *)
Definition config_boiler : Config rat :=
  mkConfig [:: ("B1", Boiler 0.9%Q)] [:: "gas"; "heat"]
    [:: ("B1", [:: ("fuel_in", "gas"); ("heat_out", "heat")])]
    [:: "gas"] [:: "heat"].

(** The same configuration without its branches. *)
Definition config_without_branches : Config rat :=
  mkConfig [:: ("B1", Boiler 0.9%Q)] [::] [::] [::] [::].

Definition hub_boiler : EnergyHub rat :=
  the_hub (load_config (new_hub rat "Hub") config_boiler).

(** The hub of [hub_simple_chp] with one more branch, to which no port is
    bound. *)
Definition hub_spare_branch : EnergyHub rat :=
  mkEnergyHub "Spare"
    [:: ("CHP1", new_component "CHP1" (CHPBackPressure 0.8%Q 0.3%Q [:: "elec_out"]))]
    [:: "gas_in"; "heat_out"; "elec_out"; "spare"]
    [:: (("CHP1", "fuel_in"), 0); (("CHP1", "heat_out"), 1);
        (("CHP1", "elec_out"), 2)]
    [:: 0] [:: 1; 2] None None None.

(** Branch values of [hub_simple_chp] that satisfy its balance equations. *)
Definition simple_chp_flows : Matrix rat :=
  Mx 3 1 [:: [:: 1]; [:: -0.8]; [:: -0.3]]%Q.

(** * Theory *)

(** ** The order on strings *)

Lemma ascii_compare_lt_trans (a b c : ascii) :
  Ascii.compare a b = Lt -> Ascii.compare b c = Lt -> Ascii.compare a c = Lt.
Proof.
rewrite /Ascii.compare !N.compare_lt_iff; exact: N.lt_trans.
Qed.

Lemma ascii_compare_refl (a : ascii) : Ascii.compare a a = Eq.
Proof. by rewrite /Ascii.compare N.compare_refl. Qed.

Lemma string_compare_lt_trans (s t u : string) :
  String.compare s t = Lt -> String.compare t u = Lt -> String.compare s u = Lt.
Proof.
elim: s t u => [|a s IH] [|b t] [|c u] //=.
case ab: (Ascii.compare a b) => //; case bc: (Ascii.compare b c) => //.
- move/Ascii.compare_eq_iff: ab => ->; move/Ascii.compare_eq_iff: bc => ->.
  by rewrite ascii_compare_refl; exact: IH.
- by move/Ascii.compare_eq_iff: ab => ->; rewrite bc.
- by move/Ascii.compare_eq_iff: bc => <-; rewrite ab.
- by rewrite (ascii_compare_lt_trans ab bc).
Qed.

Lemma str_le_total : total str_le.
Proof.
by move=> s t; rewrite /str_le; case: (String.leb_total s t) => ->; rewrite ?orbT.
Qed.

Lemma str_le_antisym : antisymmetric str_le.
Proof. by move=> s t /andP[]; exact: String.leb_antisym. Qed.

Lemma str_le_trans : transitive str_le.
Proof.
move=> t s u; rewrite /str_le /String.leb.
case st: (String.compare s t) => // _; case tu: (String.compare t u) => // _.
- by move/String.compare_eq_iff: st => ->; rewrite tu.
- by move/String.compare_eq_iff: st => ->; rewrite tu.
- by move/String.compare_eq_iff: tu => <-; rewrite st.
- by rewrite (string_compare_lt_trans st tu).
Qed.

(** [sorted(list(set(xs)))] does not depend on the order in which the set
    lists its elements. *)
Lemma sorted_set_listing (l1 l2 : seq string -> seq string) (xs : seq string) :
  set_listing l1 -> set_listing l2 -> sorted_set l1 xs = sorted_set l2 xs.
Proof.
move=> h1 h2; apply: (sorted_eq str_le_trans str_le_antisym).
- exact: sort_sorted str_le_total _.
- exact: sort_sorted str_le_total _.
rewrite /sorted_set perm_sort perm_sym perm_sort perm_sym.
apply: (perm_trans (h1 xs)).
by rewrite perm_sym; exact: h2.
Qed.

(** ** Loops *)

Section ForEach.
Variables (A S : Type) (body : S -> A -> result S).
Variable I : S -> Prop.

Local Notation preserves := (preserves body I).

Lemma preserves_cons x xs : preserves (x :: xs) -> preserves xs.
Proof. by move=> h s y s' yin; apply: h; right. Qed.

Lemma for_each_inv s xs s' :
  I s -> preserves xs -> for_each body s xs = Ok s' -> I s'.
Proof.
elim: xs s => [|x xs IH] s /= Is pres; first by case=> <-.
case E: (body s x) => [s1|e] //=; apply: IH (preserves_cons pres).
by apply: pres E => //; left.
Qed.

Lemma for_each_err (P : error -> Prop) s xs e :
  I s -> preserves xs ->
  (forall s x e, List.In x xs -> I s -> body s x = Err e -> P e) ->
  for_each body s xs = Err e -> P e.
Proof.
elim: xs s => [|x xs IH] s //= Is pres herr.
case E: (body s x) => [s1|e1] /=.
- apply: IH (preserves_cons pres) _; first by apply: pres E => //; left.
  by move=> s2 y e2 yin; apply: herr; right.
- by case=> <-; apply: herr E => //; left.
Qed.

Lemma for_each_fail s xs x :
  I s -> preserves xs -> List.In x xs ->
  (forall s, I s -> ~~ is_ok (body s x)) ->
  ~~ is_ok (for_each body s xs).
Proof.
elim: xs s => [|y xs IH] s //= Is pres xin hx.
case E: (body s y) => [s1|e1] //=.
case: xin => [yx|xin]; first by have:= hx s Is; rewrite -yx E.
apply: IH (preserves_cons pres) xin hx.
by apply: pres E => //; left.
Qed.

End ForEach.

Lemma Ok_inj (A : Type) (a b : A) : Ok a = Ok b -> a = b.
Proof. by case. Qed.

(** ** Dictionaries *)

Section DictTheory.
Variables (K : eqType) (V : Type).
Implicit Types (d : dict K V) (k : K) (v : V).

Lemma dict_get_set d k v k' :
  dict_get (dict_set d k v) k' = if k == k' then Some v else dict_get d k'.
Proof.
elim: d => [|[k0 v0] d IH] /=; first by [].
case: (k0 =P k) => [->|ne] /=; first by case: ifP.
rewrite IH; case: (k =P k') => [<-|//].
by case: (k0 =P k).
Qed.

Lemma dict_keys_set d k v :
  dict_keys (dict_set d k v) =
  if k \in dict_keys d then dict_keys d else rcons (dict_keys d) k.
Proof.
rewrite /dict_keys; elim: d => [|[k0 v0] d IH] //=.
rewrite in_cons (eq_sym k); case: (k0 =P k) => [//|_] /=.
by rewrite IH; case: ifP.
Qed.

Lemma dict_keys_filter (P : pred (K * V)) d k :
  k \in [seq kv.1 | kv <- d & P kv] -> k \in dict_keys d.
Proof.
rewrite /dict_keys; elim: d => [|kv d IH] //=; case: ifP => _ /=.
- by rewrite !in_cons => /orP [->//|/IH ->]; rewrite orbT.
- by rewrite in_cons => /IH ->; rewrite orbT.
Qed.

Lemma dict_keys_filter_uniq (P : pred (K * V)) d :
  uniq (dict_keys d) -> uniq [seq kv.1 | kv <- d & P kv].
Proof.
elim: d => [|kv d IH] //= /andP [nk /IH u]; case: ifP => _ //=.
by rewrite u andbT; apply: contra nk; exact: dict_keys_filter.
Qed.

End DictTheory.

(** ** Matrices *)

Section MatrixTheory.
Variable F : fieldType.
Implicit Types (M A B : Matrix F) (u v : seq F).

Lemma wf_matrixP M :
  reflect (size (entries M) = rows M /\
           forall i, i < rows M -> size (nth [::] (entries M) i) = cols M)
          (wf_matrix M).
Proof.
apply: (iffP andP) => [[/eqP sz /all_nthP h]|[sz h]].
- by split=> // i; rewrite -sz => /(h [::]) /eqP.
- split; first exact/eqP.
  by apply/(all_nthP [::]) => i; rewrite sz => /h ->.
Qed.

Lemma wf_zeros r c : wf_matrix (zeros F r c).
Proof.
apply/wf_matrixP; rewrite /= size_nseq; split=> // i ir.
by rewrite nth_nseq ir size_nseq.
Qed.

Lemma mget_zeros r c i j : mget (zeros F r c) i j = 0%R.
Proof.
rewrite /mget /= nth_nseq; case: ifP => _; last by rewrite nth_nil.
by rewrite nth_nseq; case: ifP.
Qed.

Lemma setitem_ok M i j x :
  i < rows M -> j < cols M -> setitem M i j x = Ok (updated M i j x).
Proof. by rewrite /setitem => -> ->. Qed.

Lemma mget_updated M i j x i' j' :
  mget (updated M i j x) i' j' =
  if (i' == i) && (j' == j) then x else mget M i' j'.
Proof.
rewrite /mget /= nth_set_nth /=; case: (i' =P i) => [->|//] /=.
by rewrite nth_set_nth /=; case: (j' =P j).
Qed.

Lemma wf_updated M i j x :
  wf_matrix M -> i < rows M -> j < cols M -> wf_matrix (updated M i j x).
Proof.
move=> /wf_matrixP [sz h] ir jc; apply/wf_matrixP => /=; split.
- by rewrite size_set_nth sz; apply/maxn_idPr.
- move=> k kr; rewrite nth_set_nth /=; case: (k =P i) => [_|_]; last exact: h.
  by rewrite size_set_nth h //; apply/maxn_idPr.
Qed.

Lemma dot_sum n u v :
  size u = n -> size v = n ->
  dot u v = (\sum_(k < n) nth 0 u k * nth 0 v k)%R.
Proof.
rewrite /dot; elim: n u v => [|n IH] [|a u] [|b w] //=; first by rewrite big_ord0.
case=> su [sw]; rewrite big_ord_recl /=; congr (_ + _)%R.
exact: IH.
Qed.

Lemma size_column M j : size (column M j) = size (entries M).
Proof. by rewrite /column size_map. Qed.

Lemma nth_column M j k : nth 0%R (column M j) k = mget M k j.
Proof.
rewrite /column /mget; case: (ltnP k (size (entries M))) => h.
- by rewrite (nth_map [::]).
- by rewrite !nth_default ?size_map //= ?nth_nil.
Qed.

Lemma mmul_ok A B : cols A = rows B -> mmul A B = Ok (product A B).
Proof. by rewrite /mmul => ->; rewrite eqxx. Qed.

Lemma wf_product A B : wf_matrix A -> wf_matrix (product A B).
Proof.
move=> /wf_matrixP [sz _]; apply/wf_matrixP; rewrite /= size_map; split=> // i ir.
by rewrite (nth_map [::]) ?sz // size_map size_iota.
Qed.

Lemma mget_product A B i j :
  wf_matrix A -> wf_matrix B -> cols A = rows B ->
  i < rows A -> j < cols B ->
  mget (product A B) i j =
  (\sum_(k < cols A) mget A i k * mget B k j)%R.
Proof.
move=> /wf_matrixP [szA hA] /wf_matrixP [szB _] ab ir jc.
rewrite /mget /= (nth_map [::]) ?szA // (nth_map 0) ?size_iota // nth_iota //.
rewrite add0n (@dot_sum (cols A)) ?hA ?size_column ?szB //.
by apply: eq_bigr => k _; rewrite nth_column.
Qed.

Lemma wf_eye n : wf_matrix (eye F n).
Proof.
apply/wf_matrixP; rewrite /= size_mkseq; split=> // i ir.
by rewrite nth_mkseq // size_mkseq.
Qed.

Lemma mget_eye n i j :
  i < n -> j < n -> mget (eye F n) i j = if i == j then 1%R else 0%R.
Proof. by move=> ir jr; rewrite /mget /= nth_mkseq // nth_mkseq. Qed.

(** Two well-formed matrices of one shape with the same entries are equal. *)
Lemma matrix_eq A B :
  wf_matrix A -> wf_matrix B -> rows A = rows B -> cols A = cols B ->
  (forall i j, i < rows A -> j < cols A -> mget A i j = mget B i j) ->
  A = B.
Proof.
case: A => rA cA eA; case: B => rB cB eB /=.
move=> /wf_matrixP /= [szA hA] /wf_matrixP /= [szB hB] er ec h.
rewrite -er -ec; congr Mx; apply: (@eq_from_nth _ [::]).
  by rewrite szA szB.
rewrite szA => i ir; apply: (@eq_from_nth _ 0%R).
  by rewrite hA ?hB // -er.
by rewrite hA // => j jc; apply: h.
Qed.

End MatrixTheory.

(** ** Exact inversion *)

Section Inversion.
Variable F : fieldType.
Implicit Types (M P Q : Matrix F).

Lemma squareP n M :
  reflect [/\ wf_matrix M, rows M = n & cols M = n] (square n M).
Proof.
by apply: (iffP and3P) => [[w /eqP r /eqP c]|[w r c]]; split=> //; apply/eqP.
Qed.

Lemma mget_of_mx n (A : 'M[F]_n) (i j : 'I_n) : mget (of_mx A) i j = A i j.
Proof.
rewrite /mget /= (nth_map i) ?size_enum_ord // (nth_map j) ?size_enum_ord //.
by rewrite !nth_ord_enum.
Qed.

Lemma square_of_mx n (A : 'M[F]_n) : square n (of_mx A).
Proof.
apply/squareP; split=> //; apply/wf_matrixP; rewrite /= size_map size_enum_ord.
split=> // i ir; rewrite (nth_map (Ordinal ir)) ?size_enum_ord //.
by rewrite size_map size_enum_ord.
Qed.

Lemma to_mx_of_mx n (A : 'M[F]_n) : to_mx n (of_mx A) = A.
Proof. by apply/matrixP => i j; rewrite mxE mget_of_mx. Qed.

Lemma of_mx_to_mx n M : square n M -> of_mx (to_mx n M) = M.
Proof.
move=> /squareP [w r c]; have /squareP [w' r' c'] := square_of_mx (to_mx n M).
apply: matrix_eq => //; rewrite ?r ?c // => i j hi hj.
by rewrite (mget_of_mx _ (Ordinal hi) (Ordinal hj)) mxE.
Qed.

Lemma to_mx_product n P Q :
  square n P -> square n Q ->
  to_mx n (product P Q) = (to_mx n P *m to_mx n Q)%R.
Proof.
move=> /squareP [wP rP cP] /squareP [wQ rQ cQ].
apply/matrixP => i j; rewrite !mxE mget_product ?rP ?cQ ?cP ?rQ //.
by apply: eq_bigr => k _; rewrite !mxE.
Qed.

Lemma square_product n P Q : square n P -> square n Q -> square n (product P Q).
Proof.
move=> /squareP [wP rP cP] /squareP [wQ rQ cQ]; apply/squareP.
by split; rewrite ?wf_product.
Qed.

Lemma square_eye n : square n (eye F n).
Proof. by apply/squareP; split; rewrite ?wf_eye. Qed.

Lemma to_mx_eye n : to_mx n (eye F n) = 1%:M%R.
Proof.
by apply/matrixP => i j; rewrite !mxE mget_eye // -val_eqE /=; case: eqP.
Qed.

Lemma inv_inverse Q P :
  wf_matrix Q -> rows Q = cols Q -> inverse_of Q P -> inv Q = Ok P.
Proof.
move=> wQ rc [sP PQ _]; rewrite /inv rc eqxx /= -rc.
have sQ : square (rows Q) Q by apply/squareP; split.
have /squareP [wP rP cP] := sP.
move: PQ; rewrite mmul_ok ?cP // => hPQ; have ePQ := Ok_inj hPQ.
have:= congr1 (to_mx (rows Q)) ePQ; rewrite to_mx_product // to_mx_eye => PQ1.
have [_ uQ] := mulmx1_unit PQ1; rewrite uQ; congr Ok.
rewrite -[RHS](of_mx_to_mx sP); congr of_mx.
by rewrite -[LHS]mul1mx -PQ1 mulmxK.
Qed.

Lemma inv_unit Q :
  wf_matrix Q -> rows Q = cols Q -> to_mx (rows Q) Q \in unitmx ->
  inverse_of Q (of_mx (invmx (to_mx (rows Q) Q))).
Proof.
move=> wQ rc uQ; have sQ : square (rows Q) Q by apply/squareP; split.
have sP := square_of_mx (invmx (to_mx (rows Q) Q)).
have /squareP [wP rP cP] := sP.
split=> //; rewrite mmul_ok -?rc ?cP ?rP //; congr Ok.
- rewrite -[LHS](@of_mx_to_mx (rows Q)) ?square_product //.
  rewrite to_mx_product // to_mx_of_mx.
  by rewrite mulVmx // -to_mx_eye of_mx_to_mx // square_eye.
- rewrite -[LHS](@of_mx_to_mx (rows Q)) ?square_product //.
  rewrite to_mx_product // to_mx_of_mx.
  by rewrite mulmxV // -to_mx_eye of_mx_to_mx // square_eye.
Qed.

Lemma inv_singular Q :
  wf_matrix Q -> rows Q = cols Q -> (forall P, ~ inverse_of Q P) ->
  inv Q = Err NonInvertibleMatrix.
Proof.
move=> wQ rc none; rewrite /inv rc eqxx /= -rc.
by case: ifP => // /(inv_unit wQ rc) /none.
Qed.

End Inversion.

(** ** Stacking *)

Section Stacking.
Variable F : fieldType.
Implicit Types (A M : Matrix F).

Lemma col_join_ok A M : cols A = cols M -> col_join A M = Ok (stacked A M).
Proof. by rewrite /col_join => ->; rewrite eqxx andbF. Qed.

Lemma wf_stacked A M :
  wf_matrix A -> wf_matrix M -> cols A = cols M -> wf_matrix (stacked A M).
Proof.
move=> /andP [/eqP sA aA] /andP [/eqP sB aB] ab.
by rewrite /wf_matrix /= size_cat sA sB eqxx all_cat aA ab aB.
Qed.

(** Blocks of [B] columns stack to a matrix of [B] columns whose rows are
    those of the blocks. *)
Lemma for_each_col_join B M Ms :
  wf_matrix M -> cols M = B ->
  all (fun N => wf_matrix N && (cols N == B)) Ms ->
  exists2 S, for_each (@col_join F) M Ms = Ok S &
    [/\ wf_matrix S, cols S = B
      & rows S = rows M + sumn [seq rows N | N <- Ms]].
Proof.
elim: Ms M => [|N Ms IH] M wM cM /=; first by exists M; rewrite ?addn0.
case/andP=> /andP [wN /eqP cN] hMs; rewrite col_join_ok ?cM ?cN //=.
have [|//|S -> [wS cS rS]] := IH (stacked M N) _ _ hMs.
  by rewrite wf_stacked ?cM ?cN.
by exists S => //; split=> //; rewrite rS /= addnA.
Qed.

End Stacking.

(** ** Components *)

Section ComponentTheory.
Variable F : fieldType.
Implicit Types (c : Component F) (i : comp_init F).

Lemma wf_characteristic_matrix c : wf_matrix (get_characteristic_matrix c).
Proof.
rewrite /get_characteristic_matrix; case: (init c) => //= *.
by rewrite /wf_matrix /= !size_nseq !eqxx.
Qed.

Lemma dict_vals_set (K : eqType) (V : eqType) (d : dict K V) k v :
  {subset dict_vals (dict_set d k v) <= v :: dict_vals d}.
Proof.
rewrite /dict_vals; elim: d => [|[k0 v0] d IH] x /=; first by [].
case: ifP => _ /=; rewrite !in_cons.
- by case/orP=> [->//|->]; rewrite !orbT.
- by case/orP=> [->|/IH]; rewrite ?orbT // in_cons => /orP [->|->]; rewrite ?orbT.
Qed.

Lemma dict_vals_uniq_set (K : eqType) (V : eqType) (d : dict K V) k v :
  uniq (dict_vals d) -> v \notin dict_vals d ->
  uniq (dict_vals (dict_set d k v)).
Proof.
elim: d => [|[k0 v0] d IH] //=; rewrite in_cons negb_or.
case/andP=> nv0 ud /andP [vv0 nv]; case: ifP => _ /=; first by rewrite nv.
rewrite IH // andbT; apply/negP => /dict_vals_set; rewrite in_cons.
by rewrite eq_sym (negbTE vv0) (negbTE nv0).
Qed.

(** Electrical ports are numbered from 2 on; a name met again keeps its
    place in the dictionary and takes the later number. *)
Lemma chp_ports_spec (c : Component F) (t : nat) (eps : seq string) :
  let c' := foldl (fun c ip => add_output_port c ip.2 (2 + ip.1)) c
              (zip (iota t (size eps)) eps) in
  uniq (dict_vals (output_ports c)) ->
  all (fun l => 0 < l < 2 + t) (dict_vals (output_ports c)) ->
  [/\ init c' = init c, input_ports c' = input_ports c,
      uniq (dict_vals (output_ports c'))
    & all (fun l => 0 < l < 2 + t + size eps) (dict_vals (output_ports c'))].
Proof.
elim: eps c t => [|p eps IH] c t /= u a.
  by split=> //; rewrite addn0.
have [] := IH (add_output_port c p (2 + t)) t.+1.
- apply: dict_vals_uniq_set => //; apply/negP => /(allP a).
  by rewrite ltnn andbF.
- apply/allP => l /dict_vals_set; rewrite in_cons => /orP [/eqP ->|/(allP a)].
    by rewrite /= addnS ltnS leqnn.
  by case/andP=> -> /= lt; rewrite addnS ltnS ltnW.
by move=> -> -> u' a'; split=> //; rewrite addnS -addSn -addSnnS in a' *.
Qed.

Lemma new_component_ports nm i :
  let c := new_component nm i in
  uniq (local_indices c) /\
  all (fun l => l < cols (get_characteristic_matrix c)) (local_indices c).
Proof.
case: i => [eta_q eta_w eps|eta|eta_c eta_d|r|eta|cop|cop|eta|eta] //.
rewrite /new_component /enumerate /local_indices.
set c0 := add_output_port _ _ _.
have [] := @chp_ports_spec c0 0 (chp_elec_ports eps) => // ei ip u a.
rewrite /get_characteristic_matrix ei ip /= size_nseq.
split.
- by rewrite u andbT; apply/negP => /(allP a).
- by apply/allP => l /(allP a) /andP [_]; rewrite addn0.
Qed.

End ComponentTheory.

(** ** The incidence expansion *)

Lemma InP (T : eqType) (x : T) (s : seq T) : reflect (List.In x s) (x \in s).
Proof.
elim: s => [|y s IH] /=; first by rewrite in_nil; constructor.
rewrite in_cons; apply: (iffP orP) => [[/eqP ->|/IH]|[->|/IH]]; auto.
Qed.

Section Marking.
Variable F : fieldType.
Variables (hub : EnergyHub F) (comp_name : string) (x : F).
Variable err : string -> string -> error.
Implicit Types (M : Matrix F) (ps : seq (string * nat)).

Local Notation mark := (mark hub comp_name x err).
Local Notation bound_to := (bound_to hub comp_name).
Local Notation hits := (hits hub comp_name).

Lemma mark_preserves M ps : wf_matrix M -> preserves mark (same_shape M) ps.
Proof.
move=> wM N [p l] N' _ [wN rN cN]; rewrite /mark.
case: (dict_get _ _) => [b|//]; rewrite /setitem; case: ifP => // /andP [lr bc].
by case=> <-; split; rewrite ?wf_updated.
Qed.

Lemma mark_shape M ps M' :
  wf_matrix M -> for_each mark M ps = Ok M' -> same_shape M M'.
Proof. by move=> wM; apply: (for_each_inv _ (mark_preserves wM)); split. Qed.

Lemma mark_unbound M ps p l :
  (p, l) \in ps -> bound_to p = None -> ~~ is_ok (for_each mark M ps).
Proof.
move=> /InP pin unb; apply: (@for_each_fail _ _ _ (fun=> True) _ _ (p, l)) => //.
by move=> N _; rewrite /mark -/(bound_to p) unb.
Qed.

Lemma mark_binding_error M ps e :
  wf_matrix M ->
  (forall pl, pl \in ps -> pl.2 < rows M) ->
  (forall p b, bound_to p = Some b -> b < cols M) ->
  for_each mark M ps = Err e ->
  exists2 p, p \in dict_keys ps & e = err p comp_name /\ bound_to p = None.
Proof.
move=> wM hl hb.
pose P e := exists2 p, p \in dict_keys ps
              & e = err p comp_name /\ bound_to p = None.
apply: (@for_each_err _ _ _ _ P _ _ _ _ (mark_preserves wM)); first by split.
move=> N [p l] e' /InP pin [wN rN cN]; rewrite /mark /P -/(bound_to p).
case E: (bound_to p) => [b|]; last first.
  by case=> <-; exists p => //; apply/mapP; exists (p, l).
by rewrite /setitem rN cN (hl _ pin) (hb _ _ E).
Qed.

(** When every port of the list is bound in range, the loop succeeds and
    writes [x] exactly at the positions it visits. *)
Lemma mark_all M ps :
  wf_matrix M ->
  (forall pl, pl \in ps ->
     exists2 b, bound_to pl.1 = Some b & (pl.2 < rows M) && (b < cols M)) ->
  exists2 M', for_each mark M ps = Ok M' &
    same_shape M M' /\
    forall i j, mget M' i j = if has (hits i j) ps then x else mget M i j.
Proof.
elim: ps M => [|[p l] ps IH] M wM h /=; first by exists M.
have [|b bp /andP [lr bc]] := h (p, l); first by rewrite mem_head.
rewrite -/(bound_to p) bp setitem_ok //=.
have [||M' -> [[wM' rM' cM'] ent]] := IH (updated M l b x).
- exact: wf_updated.
- by move=> pl pin; apply: h; rewrite in_cons pin orbT.
exists M' => //; split=> // i j.
rewrite ent mget_updated /hits /= bp (eq_sym l).
have -> : (Some b == Some j) = (j == b) by rewrite eq_sym.
by case: (has _ ps); rewrite ?orbT // orbF.
Qed.

End Marking.

(** ** Assembly *)

Section Assembly.
Variable F : fieldType.
Implicit Types (hub : EnergyHub F) (c : Component F) (M X Y Z : Matrix F).

Lemma build_Ag_globalE hub comp_name c B :
  build_Ag_global hub comp_name c B =
  (Ag <- for_each (mark hub comp_name 1%R InputPortNotMapped)
           (zeros F (cols (get_characteristic_matrix c)) B) (input_ports c) ;;
   for_each (mark hub comp_name (-1)%R OutputPortNotMapped) Ag
     (output_ports c)).
Proof. by []. Qed.

Lemma build_Ag_global_shape hub comp_name c B Ag :
  build_Ag_global hub comp_name c B = Ok Ag ->
  same_shape (zeros F (cols (get_characteristic_matrix c)) B) Ag.
Proof.
rewrite build_Ag_globalE; case E: (for_each _ _ _) => [Ag1|//] /=.
have [w1 r1 c1] := mark_shape (wf_zeros _ _ _) E.
by move/(mark_shape w1) => [w2 r2 c2]; split; rewrite ?r2 ?c2.
Qed.

Lemma build_Z_block_shape hub comp_name c B Zg :
  build_Z_block hub comp_name c B = Ok Zg ->
  [/\ wf_matrix Zg, rows Zg = rows (get_characteristic_matrix c) & cols Zg = B].
Proof.
rewrite /build_Z_block; case E: (build_Ag_global _ _ _ _) => [Ag|//] /=.
have [wA rA cA] := build_Ag_global_shape E.
rewrite mmul_ok ?rA // => -[<-]; split=> //.
exact: wf_product (wf_characteristic_matrix c).
Qed.

Lemma build_Ag_global_unbound hub comp_name c B p l :
  (p, l) \in input_ports c ++ output_ports c ->
  bound_to hub comp_name p = None ->
  ~~ is_ok (build_Ag_global hub comp_name c B).
Proof.
rewrite mem_cat build_Ag_globalE => pin unb.
case E: (for_each _ _ _) => [Ag1|//] /=.
case/orP: pin => pin; last exact: mark_unbound pin unb.
by have:= mark_unbound 1%R InputPortNotMapped
            (zeros F (cols (get_characteristic_matrix c)) B) pin unb; rewrite E.
Qed.

Lemma build_Ag_global_error hub comp_name c B e :
  all (fun l => l < cols (get_characteristic_matrix c)) (local_indices c) ->
  (forall p b, bound_to hub comp_name p = Some b -> b < B) ->
  build_Ag_global hub comp_name c B = Err e -> is_binding_error e.
Proof.
rewrite /local_indices all_cat build_Ag_globalE => /andP [/allP li /allP lo] hb.
set Ag0 := zeros _ _ _; have w0 : wf_matrix Ag0 by exact: wf_zeros.
case E: (for_each _ _ _) => [Ag1|e1] /=; last first.
  case=> <-; have [] // := mark_binding_error w0 _ hb E; last by move=> p _ [->].
  by move=> pl pin; apply: li; apply/mapP; exists pl.
have [w1 r1 c1] := mark_shape w0 E => E2.
have [] // := mark_binding_error w1 _ _ E2; last by move=> p _ [->].
- by move=> pl pin; rewrite r1; apply: lo; apply/mapP; exists pl.
- by move=> p b; rewrite c1; apply: hb.
Qed.

(** When all ports are bound in range the expansion exists, and its entries
    are [-1] where an output port writes, [1] where an input port writes and
    [0] elsewhere. *)
Lemma build_Ag_global_all hub comp_name c B :
  all (fun l => l < cols (get_characteristic_matrix c)) (local_indices c) ->
  (forall pl, pl \in input_ports c ++ output_ports c ->
     exists2 b, bound_to hub comp_name pl.1 = Some b & b < B) ->
  exists2 Ag, build_Ag_global hub comp_name c B = Ok Ag &
    same_shape (zeros F (cols (get_characteristic_matrix c)) B) Ag /\
    forall i j, mget Ag i j =
      if has (hits hub comp_name i j) (output_ports c) then (-1)%R
      else if has (hits hub comp_name i j) (input_ports c) then 1%R
      else 0%R.
Proof.
rewrite /local_indices all_cat build_Ag_globalE => /andP [/allP li /allP lo] hb.
set Ag0 := zeros _ _ _; have w0 : wf_matrix Ag0 by exact: wf_zeros.
have [|Ag1 -> [[w1 r1 c1] e1]] /= :=
  mark_all (hub:=hub) (comp_name:=comp_name) 1%R InputPortNotMapped
    (ps:=input_ports c) w0.
  move=> pl pin; have [|b bp bB] := hb pl; first by rewrite mem_cat pin.
  by exists b => //; rewrite bB andbT; apply: li; apply/mapP; exists pl.
have [|Ag2 -> [[w2 r2 c2] e2]] /= :=
  mark_all (hub:=hub) (comp_name:=comp_name) (-1)%R OutputPortNotMapped
    (ps:=output_ports c) w1.
  move=> pl pin; have [|b bp bB] := hb pl; first by rewrite mem_cat pin orbT.
  by exists b => //; rewrite r1 c1 bB andbT; apply: lo; apply/mapP; exists pl.
exists Ag2 => //; split; first by split; rewrite ?r2 ?c2.
by move=> i j; rewrite e2 e1 mget_zeros.
Qed.

(** The selectors X and Y. *)
Lemma selector_shape indices B X :
  selector F indices B = Ok X ->
  [/\ wf_matrix X, rows X = size indices & cols X = B].
Proof.
rewrite /selector; set X0 := zeros _ _ _ => E.
have w0 : wf_matrix X0 by exact: wf_zeros.
apply: (@for_each_inv _ _ _ (same_shape X0) _ _ _ _ _ E); first by split.
move=> M [i b] M' _ [wM rM cM]; rewrite /setitem; case: ifP => // /andP [ir bc].
by case=> <-; split; rewrite ?wf_updated.
Qed.

Lemma Z_blocks_shape hub B (cs : seq (string * Component F)) blocks0 blocks :
  for_each (fun blocks nc =>
      Zg <- build_Z_block hub nc.1 nc.2 B ;; Ok (rcons blocks Zg))
    blocks0 cs = Ok blocks ->
  all (fun N : Matrix F => wf_matrix N && (cols N == B)) blocks0 ->
  [/\ all (fun N : Matrix F => wf_matrix N && (cols N == B)) blocks,
      sumn [seq rows N | N <- blocks] =
      sumn [seq rows N | N <- blocks0] +
      sumn [seq rows (get_characteristic_matrix nc.2) | nc <- cs]
    & size blocks = size blocks0 + size cs].
Proof.
elim: cs blocks0 => [|[n c] cs IH] blocks0 /=.
  by case=> <-; rewrite !addn0.
case E: (build_Z_block _ _ _ _) => [Zg|//] /= Ecs a0.
have [wZ rZ cZ] := build_Z_block_shape E.
have [|a -> ->] := IH _ Ecs.
  by rewrite all_rcons a0 wZ cZ eqxx.
split=> //; last by rewrite size_rcons addSnnS.
by rewrite -cats1 map_cat sumn_cat /= addn0 rZ addnA.
Qed.

Lemma build_system_matrices_shapes hub hub' X Y Z :
  build_system_matrices hub = Ok (hub', (X, Y, Z)) ->
  let B := size (global_branches hub) in
  [/\ hub' = set_system_matrices hub X Y Z,
      [/\ wf_matrix X, rows X = size (hub_input_branch_indices hub) & cols X = B],
      [/\ wf_matrix Y, rows Y = size (hub_output_branch_indices hub) & cols Y = B]
    & [/\ wf_matrix Z, rows Z = balance_rows hub & cols Z = B]].
Proof.
rewrite /build_system_matrices; case: ifP => // _.
case Eb: (for_each _ _ _) => [blocks|//] /=.
have [ab] := Z_blocks_shape Eb isT; rewrite add0n -/(balance_rows hub) => sb szb.
case EZ: (if nilp blocks then _ else _) => [Z'|//] /=.
case EX: (selector _ _ _) => [X'|//] /=.
case EY: (selector _ _ _) => [Y'|//] /= [<- <- <- <-].
split=> //; try exact: selector_shape.
move: EZ; case: blocks ab sb {Eb szb} => [|N Ns] /=.
  by move=> _ <- [<-]; split; rewrite ?wf_zeros.
case/andP=> /andP [wN /eqP cN] aNs sb.
have [S -> [wS cS rS]] := for_each_col_join wN cN aNs.
by case=> <-; split=> //; rewrite rS -sb.
Qed.

End Assembly.

(** ** Coupling derivation *)

Section Coupling.
Variable F : fieldType.
Implicit Types (a : SymbolicAnalyzer F) (X Y Z P : Matrix F).

Lemma derive_coupling_matrixE a X Y Z :
  X_matrix (energy_hub a) = Some X -> Y_matrix (energy_hub a) = Some Y ->
  Z_matrix (energy_hub a) = Some Z ->
  wf_matrix X -> wf_matrix Y -> wf_matrix Z ->
  cols X = cols Z -> cols Y = cols Z ->
  let Q := stacked X Z in
  let R := stacked (mneg (eye F (rows X))) (zeros F (rows Z) (rows X)) in
  derive_coupling_matrix a =
  if rows Q != cols Q then Err (QNotSquare (rows Q) (cols Q)) else
  if inv Q is Ok Q_inv then
    Ok (mkSymbolicAnalyzer (energy_hub a)
          (Some (product (product (mneg Y) Q_inv) R)),
        product (product (mneg Y) Q_inv) R)
  else Err QSingular.
Proof.
move=> eX eY eZ wX wY wZ cXZ cYZ Q R.
rewrite /derive_coupling_matrix eX eY eZ /= col_join_ok //= col_join_ok //=.
rewrite -/Q -/R; case: ifP => // /negbFE /eqP sq.
have wQ : wf_matrix Q by exact: wf_stacked.
case Ei: (inv Q) => [Qi|//] /=.
have sq' : rows Q = cols Q by [].
move: Ei; rewrite /inv; case: ifP => [|_]; first by rewrite sq' eqxx.
case: ifP => // _ [<-].
have /squareP [wP rP cP] := square_of_mx (invmx (to_mx (rows Q) Q)).
rewrite (@mmul_ok _ (mneg Y)) /=; first by rewrite sq cYZ cXZ.
by rewrite mmul_ok.
Qed.

End Coupling.

(** ** Claims on the coupling derivation *)

Section CouplingClaims.
Variable F : fieldType.
Implicit Types (a : SymbolicAnalyzer F) (hub : EnergyHub F).
Implicit Types (X Y Z P : Matrix F).

(** C3.  For a hub whose matrices X (m rows), Y and Z (k rows) are set and
    have the same number of columns, the derivation stacks X above Z into Q
    and the negated m-by-m identity above the k-by-m zero block into R.
    When Q is square: if P is the (exact, two-sided) inverse of Q, the
    derivation returns C = (-Y * P) * R and records it in the analyzer; if Q
    has no inverse it fails with the singular-system error. *)
Theorem coupling_matrix_is_minus_Y_Qinv_R a X Y Z :
  X_matrix (energy_hub a) = Some X -> Y_matrix (energy_hub a) = Some Y ->
  Z_matrix (energy_hub a) = Some Z ->
  wf_matrix X -> wf_matrix Y -> wf_matrix Z ->
  cols X = cols Z -> cols Y = cols Z ->
  let Q := stacked X Z in
  let R := stacked (mneg (eye F (rows X))) (zeros F (rows Z) (rows X)) in
  rows Q = cols Q ->
  [/\ vstack [:: X; Z] = Ok Q,
      vstack [:: mneg (eye F (rows X)); zeros F (rows Z) (rows X)] = Ok R,
      forall P, inverse_of Q P ->
        exists YP C,
          [/\ mmul (mneg Y) P = Ok YP, mmul YP R = Ok C
            & derive_coupling_matrix a =
              Ok (mkSymbolicAnalyzer (energy_hub a) (Some C), C)]
    & (forall P, ~ inverse_of Q P) ->
      derive_coupling_matrix a = Err QSingular].
Proof.
move=> eX eY eZ wX wY wZ cXZ cYZ Q R sq.
have wQ : wf_matrix Q by exact: wf_stacked.
have dE := derive_coupling_matrixE eX eY eZ wX wY wZ cXZ cYZ.
have sq' : rows X + rows Z = cols X := sq.
rewrite /= sq' eqxx /= -/Q -/R in dE.
split; rewrite /= ?col_join_ok //.
- move=> P iP; have [/squareP [wP rP cP] _ _] := iP.
  exists (product (mneg Y) P), (product (product (mneg Y) P) R).
  rewrite dE (inv_inverse wQ sq iP) !mmul_ok //= ?cP //.
  by rewrite rP -/(rows Q) sq /= cYZ cXZ.
- by move=> none; rewrite dE (inv_singular wQ sq none).
Qed.

(** C4.  After a successful assembly of a hub with m hub inputs, B branches
    and a total of [balance_rows] characteristic rows, the derivation fails
    with the dimension error when m + balance_rows <> B; when they are equal
    it can only fail because Q is singular. *)
Theorem squareness_precondition hub hub' X Y Z :
  build_system_matrices hub = Ok (hub', (X, Y, Z)) ->
  let m := size (hub_input_branch_indices hub) in
  let B := size (global_branches hub) in
  (m + balance_rows hub != B ->
     derive_coupling_matrix (new_analyzer hub') =
     Err (QNotSquare (m + balance_rows hub) B)) /\
  (m + balance_rows hub = B ->
     forall e, derive_coupling_matrix (new_analyzer hub') = Err e ->
     e = QSingular).
Proof.
move=> /build_system_matrices_shapes [-> [wX rX cX] [wY rY cY] [wZ rZ cZ]] m B.
have dE := @derive_coupling_matrixE _
  (new_analyzer (set_system_matrices hub X Y Z)) X Y Z erefl erefl erefl
  wX wY wZ.
rewrite cX cY cZ /= rX rZ cX in dE; rewrite {}dE //.
split=> [-> //|->]; rewrite eqxx /=.
by case: (inv _) => // e e' [<-].
Qed.

End CouplingClaims.

(** ** Claims on the assembly *)

Lemma uniq_map_inj (T U : eqType) (f : T -> U) (s : seq T) (x y : T) :
  uniq [seq f z | z <- s] -> x \in s -> y \in s -> f x = f y -> x = y.
Proof.
elim: s => [|z s IH] //=; rewrite !in_cons => /andP [nz us].
case/orP=> [/eqP ->|xs]; case/orP=> [/eqP ->|ys] // fxy; last exact: IH.
- by case/negP: nz; rewrite fxy; apply/mapP; exists y.
- by case/negP: nz; rewrite -fxy; apply/mapP; exists x.
Qed.

Section AssemblyClaims.
Variable F : fieldType.
Implicit Types (hub : EnergyHub F) (c : Component F) (i : comp_init F).

(** The row of a port holds [x] at the column of its branch and nothing
    else is written to it by the ports of [ps], when the local indices of
    [ps] are pairwise distinct. *)
Lemma has_hits_port hub comp_name (ps : seq (string * nat)) p l b j :
  uniq (dict_vals ps) -> (p, l) \in ps ->
  bound_to hub comp_name p = Some b ->
  has (hits hub comp_name l j) ps = (j == b).
Proof.
move=> u pin bp; apply/hasP/eqP => [[[p' l'] p'in /andP [/eqP /= ll bj]]|->].
- have [pp _] : (p', l') = (p, l) by apply: (uniq_map_inj u).
  by move: bj; rewrite pp bp => /eqP [].
- by exists (p, l) => //; rewrite /hits /= eqxx bp eqxx.
Qed.

Lemma has_hits_other hub comp_name (ps : seq (string * nat)) l j :
  l \notin dict_vals ps -> has (hits hub comp_name l j) ps = false.
Proof.
move=> nl; apply/hasP => -[[p' l'] pin /andP [/eqP /= ll _]].
by case/negP: nl; rewrite -ll; apply/mapP; exists (p', l').
Qed.

Lemma filter_eq_iota (B b : nat) (P : pred nat) :
  b < B -> (forall j, j < B -> P j = (j == b)) ->
  [seq j <- iota 0 B | P j] = [:: b].
Proof.
move=> bB h; rewrite -(filter_pred1_uniq (iota_uniq 0 B)) ?mem_iota //.
by apply: eq_in_filter => j; rewrite mem_iota /= add0n => /h.
Qed.

(** C5.  For a component of any class of the catalogue whose declared ports
    are all bound to branches of the hub (B branches), the incidence
    expansion exists; the row of an input port holds +1 at the column of its
    branch and 0 elsewhere, the row of an output port holds -1 there and 0
    elsewhere, so each port row has exactly one nonzero entry. *)
Theorem incidence_sign_convention hub comp_name nm i B :
  let c := new_component nm i in
  (forall pl, pl \in input_ports c ++ output_ports c ->
     exists2 b, bound_to hub comp_name pl.1 = Some b & b < B) ->
  exists2 Ag, build_Ag_global hub comp_name c B = Ok Ag &
    (forall p l b, (p, l) \in input_ports c ->
       bound_to hub comp_name p = Some b ->
       (forall j, j < B -> mget Ag l j = if j == b then 1%R else 0%R) /\
       [seq j <- iota 0 B | mget Ag l j != 0%R] = [:: b]) /\
    (forall p l b, (p, l) \in output_ports c ->
       bound_to hub comp_name p = Some b ->
       (forall j, j < B -> mget Ag l j = if j == b then (-1)%R else 0%R) /\
       [seq j <- iota 0 B | mget Ag l j != 0%R] = [:: b]).
Proof.
move=> c hb; have [] := new_component_ports nm i; rewrite -/c => u a.
have [Ag -> [_ ent]] := build_Ag_global_all a hb; exists Ag => //.
move: u; rewrite /local_indices cat_uniq => /and3P [ui /hasPn io uo].
split=> p l b pin bp.
- have bB : b < B.
    by have [|b' ] := hb (p, l); rewrite ?mem_cat ?pin //= bp => -[<-].
  have e j : mget Ag l j = if j == b then 1%R else 0%R.
    rewrite ent has_hits_other ?(has_hits_port _ ui pin bp) //.
    apply/negP => lo; have /negP [] := io _ lo.
    by apply/mapP; exists (p, l).
  split=> // ; apply: filter_eq_iota => // j _.
  by rewrite e; case: (j == b); rewrite ?oner_neq0 ?eqxx.
- have bB : b < B.
    by have [|b' ] := hb (p, l); rewrite ?mem_cat ?pin ?orbT //= bp => -[<-].
  have e j : mget Ag l j = if j == b then (-1)%R else 0%R.
    rewrite ent (has_hits_port _ uo pin bp) has_hits_other //.
    by apply: io; apply/mapP; exists (p, l).
  split=> // ; apply: filter_eq_iota => // j _.
  by rewrite e; case: (j == b); rewrite ?oppr_eq0 ?oner_neq0 ?eqxx.
Qed.

Lemma Z_loop_unbound hub comp_name c p l B blocks0 :
  List.In (comp_name, c) (components hub) ->
  (p, l) \in input_ports c ++ output_ports c ->
  bound_to hub comp_name p = None ->
  ~~ is_ok (for_each (fun blocks nc =>
       Zg <- build_Z_block hub nc.1 nc.2 B ;; Ok (rcons blocks Zg))
     blocks0 (components hub)).
Proof.
move=> cin pin unb.
apply: (@for_each_fail _ _ _ (fun=> True) _ _ (comp_name, c)) => // blocks _.
rewrite /build_Z_block /=.
by have:= build_Ag_global_unbound B pin unb; case: (build_Ag_global _ _ _ _).
Qed.

(** When the local index of every port is a column of the characteristic
    matrix of its component and every binding is a position of the branch
    list, no index is out of range, and the loop over the components can
    only fail on a port that is not bound. *)
Lemma Z_loop_fitting_error hub B blocks0 e :
  (forall nc, List.In nc (components hub) ->
     all (fun l => l < cols (get_characteristic_matrix nc.2))
         (local_indices nc.2)) ->
  (forall key b,
     dict_get (port_to_global_branch_map hub) key = Some b -> b < B) ->
  for_each (fun blocks nc =>
      Zg <- build_Z_block hub nc.1 nc.2 B ;; Ok (rcons blocks Zg))
    blocks0 (components hub) = Err e ->
  is_binding_error e.
Proof.
move=> hc hb.
apply: (@for_each_err _ _ _ (fun=> True) is_binding_error) => //.
move=> blocks [n c] e' /hc /= fit _; rewrite /build_Z_block.
case E: (build_Ag_global _ _ _ _) => [Ag|e1] /=; last first.
  by case=> <-; apply: build_Ag_global_error E => // p b; apply: hb.
by have [_ rA _] := build_Ag_global_shape E; rewrite mmul_ok.
Qed.

Lemma Z_loop_error hub B blocks0 e :
  (forall nc, List.In nc (components hub) ->
     nc.2 = new_component (name nc.2) (init nc.2)) ->
  (forall key b,
     dict_get (port_to_global_branch_map hub) key = Some b -> b < B) ->
  for_each (fun blocks nc =>
      Zg <- build_Z_block hub nc.1 nc.2 B ;; Ok (rcons blocks Zg))
    blocks0 (components hub) = Err e ->
  is_binding_error e.
Proof.
move=> hc; apply: Z_loop_fitting_error => nc /hc ->.
by have [] := new_component_ports (name nc.2) (init nc.2).
Qed.

(** C8, as amended.  If a declared port of a component of the hub is not
    bound, assembly fails and returns no matrices.  The failure is a binding
    error when no other check of the assembly can fail before: the hub has
    at least one branch, the local index of every declared port is a column
    of the characteristic matrix of its component (as it is for every
    component that a constructor of the catalogue makes), and every recorded
    binding is a position of the branch list. *)
Theorem unbound_port_fails hub comp_name c p l :
  List.In (comp_name, c) (components hub) ->
  (p, l) \in input_ports c ++ output_ports c ->
  bound_to hub comp_name p = None ->
  (exists e, build_system_matrices hub = Err e) /\
  (size (global_branches hub) != 0 ->
   (forall nc, List.In nc (components hub) ->
      all (fun l => l < cols (get_characteristic_matrix nc.2))
          (local_indices nc.2)) ->
   (forall key b,
      dict_get (port_to_global_branch_map hub) key = Some b ->
      b < size (global_branches hub)) ->
   exists2 e, build_system_matrices hub = Err e & is_binding_error e).
Proof.
move=> cin pin unb; rewrite /build_system_matrices.
have:= Z_loop_unbound (size (global_branches hub)) [::] cin pin unb.
case E: (for_each _ _ _) => [//|e] _.
split; first by case: ifP => _; [exists NoGlobalBranches | exists e].
move=> /negbTE -> hc hb; exists e => //.
exact: Z_loop_fitting_error hc hb E.
Qed.

End AssemblyClaims.

Section StorageClaims.
Variable F : fieldType.
Implicit Types (hub : EnergyHub F) (V : seq F).

Lemma sum_spike (B b : nat) (x : F) V :
  b < B ->
  (\sum_(j < B) (if (j : nat) == b then x else 0) * nth 0 V j)%R
  = (x * nth 0 V b)%R.
Proof.
move=> bB; rewrite (bigD1 (Ordinal bB)) //= eqxx big1 ?addr0 // => j.
by rewrite -val_eqE /= => /negbTE ->; rewrite mul0r.
Qed.

(** C10.  The storage registers its virtual port [delta_soc] as an input
    port with local index 2, so its incidence coefficient is +1; with its
    three ports bound to the columns [b_in], [b_out] and [b_v], and a
    discharging efficiency [eta_d] that is not zero (so that [1 / eta_d] is
    a scalar), the block of Z of the storage is one row holding [eta_c] at
    [b_in], [1 / eta_d] at [b_out] and [-1] at [b_v]: against branch values
    [V] it reads [eta_c * V b_in + V b_out / eta_d - V b_v]. *)
Theorem storage_balance_row hub comp_name nm (eta_c eta_d : F) B b_in b_out b_v :
  let c := new_component nm (Storage eta_c eta_d) in
  finite_parameters (Storage eta_c eta_d) ->
  bound_to hub comp_name "energy_in" = Some b_in ->
  bound_to hub comp_name "energy_out" = Some b_out ->
  bound_to hub comp_name "delta_soc" = Some b_v ->
  b_in < B -> b_out < B -> b_v < B ->
  [/\ dict_get (input_ports c) "delta_soc" = Some 2
      /\ dict_get (output_ports c) "delta_soc" = None,
      exists2 Ag, build_Ag_global hub comp_name c B = Ok Ag &
        forall j, j < B -> mget Ag 2 j = if j == b_v then 1%R else 0%R
    & exists2 Zg, build_Z_block hub comp_name c B = Ok Zg &
      [/\ rows Zg = 1, cols Zg = B,
          forall j, j < B ->
            mget Zg 0 j =
            ((if j == b_in then eta_c else 0) +
             (if j == b_out then 1 / eta_d else 0) +
             (if j == b_v then -1 else 0))%R
        & forall V, size V = B ->
            dot (nth [::] (entries Zg) 0) V =
            (eta_c * nth 0 V b_in + nth 0 V b_out / eta_d - nth 0 V b_v)%R]].
Proof.
move=> c _ bi bo bv iB oB vB.
have [||Ag EA [[wA rA cA] ent]] := @build_Ag_global_all _ hub comp_name c B.
- by [].
- move=> pl; rewrite !inE => /or3P [] /eqP -> /=.
  + by exists b_in.
  + by exists b_v.
  + by exists b_out.
have row0 j : mget Ag 0 j = if j == b_in then 1%R else 0%R.
  by rewrite ent /= /hits /= ?bi ?bv ?bo /= ?orbF ?andbF (eq_sym (Some _)).
have row1 j : mget Ag 1 j = if j == b_out then (-1)%R else 0%R.
  by rewrite ent /= /hits /= ?bi ?bv ?bo /= ?orbF ?andbF (eq_sym (Some _)).
have row2 j : mget Ag 2 j = if j == b_v then 1%R else 0%R.
  by rewrite ent /= /hits /= ?bi ?bv ?bo /= ?orbF ?andbF (eq_sym (Some _)).
split=> //; first by exists Ag.
have wH := wf_characteristic_matrix c.
exists (product (get_characteristic_matrix c) Ag).
  by rewrite /build_Z_block EA /= mmul_ok ?rA.
have e j : (j < B)%N ->
    mget (product (get_characteristic_matrix c) Ag) 0 j =
    ((if j == b_in then eta_c else 0) +
     (if j == b_out then 1 / eta_d else 0) +
     (if j == b_v then -1 else 0))%R.
  move=> jB; rewrite mget_product ?rA ?cA //.
  rewrite !big_ord_recl big_ord0 /= row0 row1 row2 /mget /= addr0 addrA.
  congr (_ + _ + _)%R.
  - by case: ifP; rewrite ?mulr1 ?mulr0.
  - by case: ifP; rewrite ?mulr0 // mulrN1 mulNr opprK.
  - by case: ifP; rewrite ?mulr0 // mulr1.
split=> // V sV.
have sz : size (nth [::] (entries (product (get_characteristic_matrix c) Ag)) 0)
          = B by rewrite /= size_map size_iota.
rewrite (dot_sum sz sV).
rewrite (eq_bigr (fun j : 'I_B =>
  (if (j : nat) == b_in then eta_c else 0) * nth 0 V j +
  (if (j : nat) == b_out then 1 / eta_d else 0) * nth 0 V j +
  (if (j : nat) == b_v then -1 else 0) * nth 0 V j)%R).
  by move=> j _; rewrite -/(mget _ 0 j) e // !mulrDl.
rewrite !big_split /= !sum_spike //.
by rewrite mulN1r mul1r [(_^-1 * _)%R]mulrC.
Qed.

End StorageClaims.

(** ** Compilation of the graph *)

Lemma length_append (s t : string) :
  String.length (s ++ t) = String.length s + String.length t.
Proof. by elim: s => [|a s IH] //=; rewrite IH. Qed.

Lemma append_cancel_r (s t u : string) : (s ++ u = t ++ u)%string -> s = t.
Proof.
elim: s t => [|a s IH] [|b t] //=.
- move/(congr1 String.length); rewrite /= length_append => /eqP.
  by rewrite -addSn -[X in X == _]add0n eqn_add2r.
- move/(congr1 String.length); rewrite /= length_append => /eqP.
  by rewrite -addSn -[X in _ == X]add0n eqn_add2r.
- by case=> -> /IH ->.
Qed.

Lemma virtual_branch_name_inj : injective virtual_branch_name.
Proof. by move=> s t; apply: append_cancel_r. Qed.

Section Compilation.
Variable F : fieldType.
Implicit Types (g : GraphEnergyHub F) (G : DiGraph F) (config : Config F).
Implicit Types (pm : dict string (dict string string)).

Lemma pm_binding_bind_port pm comp port b c p :
  pm_binding (bind_port pm comp port b) c p =
  if (comp == c) && (port == p) then Some b else pm_binding pm c p.
Proof.
rewrite /pm_binding /bind_port dict_get_set.
case: (comp =P c) => [<-|//] /=; rewrite dict_get_set.
by case: (port =P p) => // _; case: (dict_get pm comp).
Qed.

(** The effect of the loop body on one edge. *)
Lemma compile_edge_branches G config e :
  cfg_branches (compile_edge G config e) =
  rcons (cfg_branches config) (branch_name e.2).
Proof. by case: e => [[u v] d]. Qed.

Lemma compile_edge_binding G config e c p :
  port_binding (compile_edge G config e) c p =
  if edge_touches G c p e then Some (branch_name e.2)
  else port_binding config c p.
Proof.
case: e => [[u v] d]; rewrite /port_binding /edge_touches /=.
case: (is_component_node G u); case: (is_component_node G v) => /=;
  rewrite ?pm_binding_bind_port ?orbF //.
by rewrite orbC; case: ifP.
Qed.

Lemma edge_pass_branches G config es :
  cfg_branches (foldl (compile_edge G) config es) =
  cfg_branches config ++ [seq branch_name e.2 | e <- es].
Proof.
elim: es config => [|e es IH] config /=; first by rewrite cats0.
by rewrite IH compile_edge_branches cat_rcons.
Qed.

(** After the loop over the edges a port is bound to the branch of the last
    edge met at it. *)
Lemma edge_pass_binding G config es c p :
  port_binding (foldl (compile_edge G) config es) c p =
  if ohead (rev [seq branch_name e.2 | e <- es & edge_touches G c p e])
    is Some b then Some b
  else port_binding config c p.
Proof.
elim/last_ind: es => [|es e IH] //=.
rewrite -cats1 foldl_cat /= compile_edge_binding filter_cat map_cat rev_cat /=.
by case: ifP.
Qed.

Lemma compile_storage_branches config nc :
  cfg_branches (compile_storage config nc) =
  cfg_branches config ++
  (if is_storage nc.2 then [:: virtual_branch_name nc.1] else [::]).
Proof.
by case: nc => n c; rewrite /compile_storage; case: ifP; rewrite ?cats0 ?cats1.
Qed.

Lemma compile_storage_binding config nc c p :
  port_binding (compile_storage config nc) c p =
  if [&& is_storage nc.2, nc.1 == c & virtual_port_name == p]
  then Some (virtual_branch_name nc.1)
  else port_binding config c p.
Proof.
case: nc => n s; rewrite /compile_storage /=; case: ifP => //= _.
by rewrite /port_binding /= pm_binding_bind_port.
Qed.

Lemma storage_pass_branches config (cs : seq (string * Component F)) :
  cfg_branches (foldl (@compile_storage F) config cs) =
  cfg_branches config ++
  [seq virtual_branch_name nc.1 | nc <- cs & is_storage nc.2].
Proof.
elim: cs config => [|nc cs IH] config /=; first by rewrite cats0.
by rewrite IH compile_storage_branches -catA; case: ifP.
Qed.

Lemma storage_pass_binding config (cs : seq (string * Component F)) c p :
  port_binding (foldl (@compile_storage F) config cs) c p =
  if (p == virtual_port_name) && (c \in [seq nc.1 | nc <- cs & is_storage nc.2])
  then Some (virtual_branch_name c)
  else port_binding config c p.
Proof.
elim/last_ind: cs => [|cs nc IH] /=; first by rewrite andbF.
rewrite -cats1 foldl_cat /= compile_storage_binding IH filter_cat map_cat mem_cat.
rewrite (eq_sym virtual_port_name) /=.
case: (is_storage nc.2) => /=; last by rewrite orbF.
rewrite inE (eq_sym c); case: eqP => [->|_] /=; last by rewrite orbF.
by rewrite orbT andbT; case: (p == _).
Qed.

Lemma raw_config_branches g :
  cfg_branches (raw_config g) =
  edge_branches g ++ [seq virtual_branch_name s | s <- storages g].
Proof.
by rewrite /raw_config storage_pass_branches edge_pass_branches /storages -map_comp.
Qed.

Lemma raw_config_binding g c p :
  port_binding (raw_config g) c p =
  if (p == virtual_port_name) && (c \in storages g)
  then Some (virtual_branch_name c)
  else ohead (rev (touching_branches g c p)).
Proof.
rewrite /raw_config storage_pass_binding edge_pass_binding -/(storages g).
by rewrite -/(touching_branches g c p); case: (ohead _).
Qed.

Lemma build_config_binding l g c p :
  port_binding (build_config_with l g) c p = port_binding (raw_config g) c p.
Proof. by []. Qed.

Lemma sorted_set_mem l xs x : set_listing l -> (x \in sorted_set l xs) = (x \in xs).
Proof.
by move=> hl; rewrite /sorted_set mem_sort (perm_mem (hl xs)) mem_undup.
Qed.

Lemma sorted_set_uniq l xs : set_listing l -> uniq (sorted_set l xs).
Proof.
by move=> hl; rewrite /sorted_set sort_uniq (perm_uniq (hl xs)) undup_uniq.
Qed.

Lemma sorted_set_size l xs : set_listing l -> size (sorted_set l xs) = size (undup xs).
Proof. by move=> hl; rewrite /sorted_set size_sort (perm_size (hl xs)). Qed.

Lemma set_listing_undup : set_listing undup.
Proof. by move=> xs. Qed.

End Compilation.

(** ** Claims on compilation *)

Section CompilationClaims.
Variable F : fieldType.
Implicit Types (g : GraphEnergyHub F) (hub : EnergyHub F) (config : Config F).

Lemma load_config_branches hub config hub' :
  load_config hub config = Ok hub' ->
  global_branches hub' = cfg_branches config.
Proof.
rewrite /load_config; case: (for_each _ _ _) => [hub1|//] /=.
case: ifP => // _; set hub2 := set_global_branches _ _.
pose I (h : EnergyHub F) := global_branches h = cfg_branches config.
have I2 : I hub2 by [].
case E3: (for_each _ hub2 _) => [hub3|//] /=.
have I3 : I hub3.
  apply: (for_each_inv I2 _ E3) => h [cn pms] h' _ Ih.
  case: ifP => // _; apply: for_each_inv Ih _ => h1 [p b] h2 _ Ih1.
  by case: (dict_get _ _) => // i [<-].
case E4: (for_each _ hub3 _) => [hub4|//] /=.
have I4 : I hub4.
  apply: (for_each_inv I3 _ E4) => h b h' _ Ih.
  by case: (dict_get _ _) => // i [<-].
move=> E5; apply: (for_each_inv I4 _ E5) => h b h' _ Ih.
by case: (dict_get _ _) => // i [<-].
Qed.

Lemma build_with_branches l g hub :
  build_with l g = Ok hub ->
  global_branches hub = cfg_branches (build_config_with l g) /\
  exists X Y Z,
    [/\ X_matrix hub = Some X, Y_matrix hub = Some Y & Z_matrix hub = Some Z].
Proof.
rewrite /build_with; case E: (load_config _ _) => [hub1|//] /=.
case Em: (build_system_matrices hub1) => [[hub2 [[X Y] Z]]|//] /= [<-].
have [-> _ _ _] := build_system_matrices_shapes Em.
by split; [exact: load_config_branches E | exists X, Y, Z].
Qed.

(** C1.  Whatever the order in which Python lists the elements of the sets
    built during compilation, on two runs over one topology graph the
    configuration is the same and the hub returned (branch list, bindings to
    branch indices, X, Y and Z) is the same; the branch list is sorted
    lexicographically without repetition, and it is the branch list of the
    hub that is returned together with its three matrices. *)
Theorem build_is_deterministic (l1 l2 : seq string -> seq string) g :
  set_listing l1 -> set_listing l2 ->
  [/\ build_config_with l1 g = build_config_with l2 g,
      build_with l1 g = build_with l2 g,
      sorted str_le (cfg_branches (build_config_with l1 g))
      /\ uniq (cfg_branches (build_config_with l1 g))
    & forall hub, build_with l1 g = Ok hub ->
        global_branches hub = cfg_branches (build_config_with l1 g) /\
        exists X Y Z,
          [/\ X_matrix hub = Some X, Y_matrix hub = Some Y
            & Z_matrix hub = Some Z]].
Proof.
move=> h1 h2.
have E : build_config_with l1 g = build_config_with l2 g.
  by rewrite /build_config_with !(sorted_set_listing _ h1 h2).
split=> //; first by rewrite /build_with E.
- by split; [exact: sort_sorted str_le_total _ | exact: sorted_set_uniq].
- by move=> hub; exact: build_with_branches.
Qed.

(** X25.  For every storage component the compiled branch list holds its
    virtual branch, named from the component name and the fixed port name,
    exactly once, and the configuration binds the virtual port of the
    component to it, whether or not an edge refers to that port.  When the
    component names are distinct and no edge carries the name of a virtual
    branch, the compiled branch list has exactly one branch per storage
    beyond the branches of the edges. *)
Theorem storage_virtual_branch g :
  let config := build_config g in
  (forall s, s \in storages g ->
     [/\ virtual_branch_name s = (s ++ "_delta_soc_branch")%string,
         count_mem (virtual_branch_name s) (cfg_branches config) = 1
       & port_binding config s "delta_soc" = Some (virtual_branch_name s)]) /\
  (uniq (dict_keys (component_instances g)) ->
   (forall s, s \in storages g ->
      virtual_branch_name s \notin edge_branches g) ->
   size (cfg_branches config) =
   size (undup (edge_branches g)) + size (storages g)).
Proof.
move=> config.
have cE : cfg_branches config = sorted_set undup (cfg_branches (raw_config g)).
  by [].
split=> [s sin|uk disj].
- split=> //.
  + rewrite cE (count_uniq_mem _ (sorted_set_uniq _ set_listing_undup)).
    rewrite (sorted_set_mem _ _ set_listing_undup).
    by rewrite raw_config_branches mem_cat map_f ?orbT.
  + by rewrite build_config_binding raw_config_binding eqxx sin.
- rewrite cE (sorted_set_size _ set_listing_undup).
  rewrite raw_config_branches undup_cat size_cat.
  have us : uniq (storages g) by exact: dict_keys_filter_uniq.
  have uv : uniq [seq virtual_branch_name s | s <- storages g].
    by rewrite (map_inj_uniq virtual_branch_name_inj).
  rewrite (undup_id uv) size_map; congr (_ + _); congr size.
  apply/all_filterP/allP => b; rewrite mem_undup => bin.
  by apply/negP => /mapP [s sin bs]; have:= disj s sin; rewrite -bs bin.
Qed.

(** C9, as amended.  Compilation cannot fail, and it keeps one binding per
    port: the branch of the edge enumerated last among the edges at that
    port, so that no other branch of such an edge is bound to it; only the
    virtual port of a storage is bound to its virtual branch instead,
    whatever edges lead to it. *)
Theorem last_edge_binds_port g comp port :
  let config := build_config g in
  let bs := touching_branches g comp port in
  port_binding config comp port =
    (if (port == "delta_soc") && (comp \in storages g)
     then Some (virtual_branch_name comp) else ohead (rev bs)) /\
  (forall b, b \in bs -> Some b != ohead (rev bs) ->
     ~~ ((port == "delta_soc") && (comp \in storages g)) ->
     port_binding config comp port != Some b).
Proof.
move=> config bs.
have E : port_binding config comp port =
    if (port == "delta_soc") && (comp \in storages g)
    then Some (virtual_branch_name comp) else ohead (rev bs).
  by rewrite build_config_binding raw_config_binding.
by split=> // b _ nb /negbTE nv; rewrite E nv eq_sym.
Qed.

End CompilationClaims.

(** ** The claims on the example topologies *)

Lemma value_or_ok (A : Type) (d : A) (r : result A) :
  is_ok r -> r = Ok (value_or d r).
Proof. by case: r. Qed.

Lemma error_of_err (A : Type) (r : result A) (e : error) :
  error_of r = Some e -> r = Err e.
Proof. by case: r => // e' [->]. Qed.

Lemma matrix_data_inj (A B : Matrix rat) :
  matrix_data A = matrix_data B -> A = B.
Proof. by case: A => rA cA eA; case: B => rB cB eB [-> -> ->]. Qed.

Lemma matrix_data_some (o : option (Matrix rat)) (M : Matrix rat) :
  omap matrix_data o = Some (matrix_data M) -> o = Some M.
Proof.
case: o => //= A h; congr Some; apply: matrix_data_inj; exact: Some_inj h.
Qed.

Lemma set_listing_rev : set_listing rev_listing.
Proof. by move=> xs; rewrite /rev_listing perm_rev. Qed.

(** C7.  The topology with one back-pressure unit (eta_q = 0.8,
    eta_w = 0.3) and one boiler (eta = 0.9) fed from one gas input, both
    feeding one heat output and the unit alone feeding an electrical output,
    is built without error; it compiles to five branches in lexicographic
    order and assembles to the expected X, Y and Z. *)
Theorem two_converter_scenario :
  exists2 hub,
    (g <- two_converters 0.8%Q 0.3%Q 0.9%Q ;; build g) = Ok hub &
    [/\ global_branches hub =
          [:: "Boiler1_heat_out_to_HeatLoad_in"; "CHP1_elec_out_to_ElecLoad_in";
              "CHP1_heat_out_to_HeatLoad_in"; "GasInput_out_to_Boiler1_fuel_in";
              "GasInput_out_to_CHP1_fuel_in"],
        X_matrix hub = Some expected_X,
        Y_matrix hub = Some expected_Y
      & Z_matrix hub = Some expected_Z].
Proof.
exists (the_hub (g <- two_converters 0.8%Q 0.3%Q 0.9%Q ;; build g)).
  by apply: value_or_ok; vm_compute.
by split; [|apply: matrix_data_some ..]; vm_compute.
Qed.

(** The same scenario for arbitrary efficiencies in an arbitrary field (for
    instance symbols): the entries of Z are the parameters themselves. *)
Lemma two_converter_scenario_symbolic (F : fieldType) (eta_q eta_w eta : F) :
  match (g <- two_converters eta_q eta_w eta ;; build g) with
  | Ok hub =>
      [/\ global_branches hub =
            [:: "Boiler1_heat_out_to_HeatLoad_in";
                "CHP1_elec_out_to_ElecLoad_in";
                "CHP1_heat_out_to_HeatLoad_in";
                "GasInput_out_to_Boiler1_fuel_in";
                "GasInput_out_to_CHP1_fuel_in"],
          X_matrix hub =
            Some (Mx 2 5 [:: [:: 0; 0; 0; 1; 0]; [:: 0; 0; 0; 0; 1]]),
          Y_matrix hub =
            Some (Mx 3 5 [:: [:: 1; 0; 0; 0; 0]; [:: 0; 1; 0; 0; 0];
                             [:: 0; 0; 1; 0; 0]])
        & Z_matrix hub =
            Some (Mx 3 5 [:: [:: 0; 0; 1; 0; eta_q]; [:: 0; 1; 0; 0; eta_w];
                             [:: 1; 0; 0; eta; 0]])]%R
  | Err _ => False
  end.
Proof.
set r := two_converters eta_q eta_w eta.
have ok : is_ok r by vm_compute.
rewrite (value_or_ok (new_graph_hub F "") ok) /bind /build /build_with.
set g := value_or _ r; vm_compute in g; rewrite /g {g}.
set h := load_config _ _; vm_compute in h; rewrite /h {h}.
rewrite /build_system_matrices /=.
rewrite /stacked /product /updated /zeros /get_characteristic_matrix /of_rows /=.
rewrite /dot /column /=.
rewrite !(mulr0, mul0r, addr0, add0r, mulr1, mulrN1, mulN1r, opprK, oppr0,
          mulNr).
by split; reflexivity.
Qed.

(** C2 fails on the code: two connections from two electrical ports of one
    unit to one load are both accepted, but the graph keeps one edge between
    the two nodes, that of the second call; compilation yields no branch for
    the first, and assembly then finds the first port unbound. *)
Theorem parallel_connections_collapse :
  let g := the_graph parallel_ports in
  [/\ parallel_ports = Ok g,
      edge_branches g =
        [:: "CHP1_heat_out_to_HeatLoad_in"; "CHP1_e2_to_ElecLoad_in";
            "GasInput_out_to_CHP1_fuel_in"],
      "CHP1_e1_to_ElecLoad_in" \notin cfg_branches (build_config g)
    & build g = Err (OutputPortNotMapped "e1" "CHP1")].
Proof.
by split; [apply: value_or_ok| | |apply: error_of_err]; vm_compute.
Qed.

(** C6.  The code misses the additional branch when the name of a virtual
    branch is also the name of the branch of an edge, since branch names
    are concatenations and the branch list is made a set.  The storage named
    [Gas_out_to_Load] has the virtual branch
    [Gas_out_to_Load_delta_soc_branch], which is the name of the branch of
    the edge from [Gas] to port [delta_soc_branch] of [Load]: the build
    succeeds with the three branches of the three edges and no additional
    one, and the one branch of that name is at once a hub input, a hub
    output and the branch bound to the virtual port of the storage. *)
Lemma virtual_branch_may_coincide_with_edge_branch :
  let g := the_graph colliding_storage in
  let config := build_config g in
  let b := virtual_branch_name "Gas_out_to_Load" in
  [/\ colliding_storage = Ok g, is_ok (build g),
      storages g = [:: "Gas_out_to_Load"],
      b \in edge_branches g
    & size (cfg_branches config) = size (undup (edge_branches g))] /\
  [/\ port_binding config "Gas_out_to_Load" "delta_soc" = Some b,
      b \in cfg_hub_inputs config
    & b \in cfg_hub_outputs config].
Proof.
by split; split; [apply: value_or_ok| | | | | | |]; vm_compute.
Qed.

(** The two conditions of C8 on the indices cannot be left out: with the
    output port of the boiler unbound, a binding of its input port beyond
    the branch list, or a port with a local index beyond its matrices, is
    met first and stops the assembly with an index error. *)
Lemma index_errors_precede_the_binding_error :
  [/\ bound_to hub_binding_out_of_range "B1" "heat_out" = None,
      build_system_matrices hub_binding_out_of_range = Err IndexError,
      bound_to hub_port_added_by_hand "B1" "heat_out" = None
    & build_system_matrices hub_port_added_by_hand = Err IndexError].
Proof. by split; [|apply: error_of_err| |apply: error_of_err]; vm_compute. Qed.

(** C8 as stated fails: on a hub without branches, whose boiler has no
    port bound, assembly stops at the guard on the number of branches, which
    is not a binding error. *)
Lemma no_branches_is_not_a_binding_error :
  exists2 hub, hub_without_branches = Ok hub &
    [/\ bound_to hub "B1" "fuel_in" = None,
        build_system_matrices hub = Err NoGlobalBranches
      & is_binding_error NoGlobalBranches = false].
Proof.
exists (the_hub hub_without_branches); first by apply: value_or_ok; vm_compute.
by split; [|apply: error_of_err|]; vm_compute.
Qed.

(** C9 as stated fails: the virtual port of the storage [S] is the
    destination of two edges, and after compilation it is bound to the
    virtual branch, not to the branch of the edge enumerated last. *)
Lemma virtual_port_is_not_bound_to_last_edge :
  let g := the_graph fed_virtual_port in
  [/\ fed_virtual_port = Ok g, is_ok (build g),
      touching_branches g "S" "delta_soc" =
        [:: "I1_out_to_S_delta_soc"; "I2_out_to_S_delta_soc"]
    & port_binding (build_config g) "S" "delta_soc" = Some "S_delta_soc_branch"].
Proof. by split; [apply: value_or_ok| | |]; vm_compute. Qed.

(** *** Instances *)

Lemma build_is_deterministic_witness :
  let g := the_graph (two_converters 0.8%Q 0.3%Q 0.9%Q) in
  [/\ set_listing undup, set_listing rev_listing
    & build_with undup g = build_with rev_listing g].
Proof.
move=> g; split; [exact: set_listing_undup | exact: set_listing_rev |].
by have [] := @build_is_deterministic rat undup rev_listing g
                set_listing_undup set_listing_rev.
Defined.

Lemma coupling_matrix_is_minus_Y_Qinv_R_witness :
  let a := new_analyzer (assembled hub_simple_chp).1 in
  derive_coupling_matrix a =
  Ok (mkSymbolicAnalyzer (energy_hub a) (Some simple_chp_C), simple_chp_C).
Proof.
move=> a.
pose X : Matrix rat := Mx 1 3 [:: [:: 1; 0; 0]]%Q.
pose Y : Matrix rat := Mx 2 3 [:: [:: 0; 1; 0]; [:: 0; 0; 1]]%Q.
pose Z : Matrix rat := Mx 2 3 [:: [:: 0.8; 1; 0]; [:: 0.3; 0; 1]]%Q.
have eX : X_matrix (energy_hub a) = Some X.
  by apply: matrix_data_some; vm_compute.
have eY : Y_matrix (energy_hub a) = Some Y.
  by apply: matrix_data_some; vm_compute.
have eZ : Z_matrix (energy_hub a) = Some Z.
  by apply: matrix_data_some; vm_compute.
have [] := @coupling_matrix_is_minus_Y_Qinv_R rat a X Y Z eX eY eZ
             isT isT isT erefl erefl erefl.
move=> _ _ /(_ simple_chp_Q_inv) h _.
have [|YP [C [eYP eC ->]]] := h.
  by split=> //; rewrite mmul_ok //; congr Ok; apply: matrix_data_inj; vm_compute.
move: eYP eC; rewrite mmul_ok // => -[<-]; rewrite mmul_ok // => -[<-].
have -> // : product (product (mneg Y) simple_chp_Q_inv)
               (stacked (mneg (eye rat (rows X))) (zeros rat (rows Z) (rows X)))
             = simple_chp_C.
by apply: matrix_data_inj; vm_compute.
Defined.

Lemma squareness_precondition_witness :
  let hub := loaded (the_graph fan_out) in
  exists hub' X Y Z,
    build_system_matrices hub = Ok (hub', (X, Y, Z)) /\
    derive_coupling_matrix (new_analyzer hub') = Err (QNotSquare 2 3).
Proof.
move=> hub.
have m2 : size (hub_input_branch_indices hub) + balance_rows hub = 2.
  by vm_compute.
have B3 : size (global_branches hub) = 3 by vm_compute.
have: is_ok (build_system_matrices hub) by vm_compute.
case E: (build_system_matrices hub) => [[hub' [[X Y] Z]]|//] _.
exists hub', X, Y, Z; split; first by [].
have [h _] := squareness_precondition E.
by move: h; rewrite m2 B3; apply.
Defined.

Lemma incidence_sign_convention_witness :
  let c := new_component "CHP1" (CHPBackPressure 0.8%Q 0.3%Q [:: "elec_out"]) in
  exists2 Ag, build_Ag_global hub_simple_chp "CHP1" c 3 = Ok Ag &
    [seq j <- iota 0 3 | mget Ag 0 j != 0%R] = [:: 0] /\
    [seq j <- iota 0 3 | mget Ag 2 j != 0%R] = [:: 2].
Proof.
move=> c.
have hb : forall pl, pl \in input_ports c ++ output_ports c ->
    exists2 b, bound_to hub_simple_chp "CHP1" pl.1 = Some b & b < 3.
  move=> pl; rewrite !inE => /or3P [] /eqP ->.
  - by exists 0.
  - by exists 1.
  - by exists 2.
have [Ag EA [hi ho]] := @incidence_sign_convention rat hub_simple_chp "CHP1"
                          "CHP1" (CHPBackPressure 0.8%Q 0.3%Q [:: "elec_out"])
                          3 hb.
exists Ag => //; split.
- by have [] := hi "fuel_in" 0 0 isT erefl.
- by have [] := ho "elec_out" 2 2 isT erefl.
Defined.

Lemma unbound_port_fails_witness :
  exists2 e, build_system_matrices hub_unbound_output = Err e
           & is_binding_error e.
Proof.
have [] := @unbound_port_fails rat hub_unbound_output "B1"
             (new_component "B1" (Boiler 0.9%Q)) "heat_out" 1
             (or_introl erefl) isT erefl.
move=> _; apply=> //.
- by move=> nc [<-|[]].
- by move=> key b; rewrite /= ; case: ifP => // _ [<-].
Defined.

Lemma storage_balance_row_witness :
  exists2 Zg,
    build_Z_block hub_storage "S" (new_component "S" (Storage 0.95%Q 0.9%Q)) 3
    = Ok Zg &
    forall V : seq rat, size V = 3 ->
      dot (nth [::] (entries Zg) 0) V =
      (0.95%Q * nth 0 V 0 + nth 0 V 1 / 0.9%Q - nth 0 V 2)%R.
Proof.
have [_ _ [Zg EZ [_ _ _ hV]]] :=
  @storage_balance_row rat hub_storage "S" "S" 0.95%Q 0.9%Q 3 0 1 2
    isT erefl erefl erefl isT isT isT.
by exists Zg.
Defined.

Lemma storage_virtual_branch_witness :
  let g := the_graph fed_virtual_port in
  [/\ uniq (dict_keys (component_instances g)),
      forall s, s \in storages g -> virtual_branch_name s \notin edge_branches g,
      port_binding (build_config g) "S" "delta_soc" = Some "S_delta_soc_branch"
    & size (cfg_branches (build_config g)) = 5].
Proof.
move=> g.
have uk : uniq (dict_keys (component_instances g)) by vm_compute.
have eS : storages g = [:: "S"] by vm_compute.
have disj s : s \in storages g -> virtual_branch_name s \notin edge_branches g.
  by rewrite eS inE => /eqP ->; vm_compute.
have sS : "S" \in storages g by rewrite eS.
have [hs hsz] := @storage_virtual_branch rat g.
split; [exact: uk | exact: disj | |].
- by have [_ _ ->] := hs "S" sS; vm_compute.
- by rewrite (hsz uk disj); vm_compute.
Defined.

Lemma last_edge_binds_port_witness :
  let g := the_graph fan_out in
  touching_branches g "Boiler1" "heat_out" =
    [:: "Boiler1_heat_out_to_Load1_in"; "Boiler1_heat_out_to_Load2_in"] /\
  port_binding (build_config g) "Boiler1" "heat_out" =
    Some "Boiler1_heat_out_to_Load2_in" /\
  port_binding (build_config g) "Boiler1" "heat_out" !=
    Some "Boiler1_heat_out_to_Load1_in".
Proof.
move=> g.
have [E h] := @last_edge_binds_port rat g "Boiler1" "heat_out".
split; first by vm_compute.
split; first by rewrite E; vm_compute.
by apply: h; vm_compute.
Defined.
(** * Further theory *)

(** ** Loops that succeed *)

Section ForEachOk.
Variables (A S : Type) (body : S -> A -> result S).
Variable I : S -> Prop.

(** When the success of the body depends on the element only, as long as
    the state satisfies an invariant, the loop succeeds exactly when the body
    does on every element. *)
Lemma for_each_is_ok (ok : pred A) s xs :
  I s -> preserves body I xs ->
  (forall s x, List.In x xs -> I s -> is_ok (body s x) = ok x) ->
  is_ok (for_each body s xs) = all ok xs.
Proof.
elim: xs s => [|x xs IH] s //= Is pres hok.
have:= hok s x (or_introl erefl) Is.
case E: (body s x) => [s1|e] /= <- //=.
apply: IH.
- by apply: pres E => //; left.
- exact: preserves_cons pres.
- by move=> s2 y yin; apply: hok; right.
Qed.

End ForEachOk.

Lemma is_ok_bind (A B : Type) (r : result A) (k : A -> result B) :
  is_ok (bind r k) = if r is Ok a then is_ok (k a) else false.
Proof. by case: r. Qed.

Lemma is_okP (A : Type) (r : result A) : is_ok r -> exists a, r = Ok a.
Proof. by case: r => // a _; exists a. Qed.

(** ** More on dictionaries *)

Section MoreDict.
Variables (K : eqType) (V : Type).
Implicit Types (d : dict K V) (k : K) (v : V).

Lemma dict_mem_keys d k : dict_mem d k = (k \in dict_keys d).
Proof.
rewrite /dict_mem /dict_keys; elim: d => [|[k0 v0] d IH] //=.
by rewrite in_cons (eq_sym k); case: (k0 == k).
Qed.

Lemma dict_set_fresh d k v : ~~ dict_mem d k -> dict_set d k v = rcons d (k, v).
Proof.
rewrite /dict_mem; elim: d => [|[k0 v0] d IH] //=.
by case: (k0 == k) => // /IH ->.
Qed.

Lemma dict_mem_set d k v k' :
  dict_mem (dict_set d k v) k' = (k == k') || dict_mem d k'.
Proof. by rewrite /dict_mem dict_get_set; case: (k == k'). Qed.

Lemma dict_keys_uniq_set d k v :
  uniq (dict_keys d) -> uniq (dict_keys (dict_set d k v)).
Proof. by rewrite dict_keys_set; case: ifP => // nk u; rewrite rcons_uniq nk. Qed.

Lemma dict_get_In d k v : dict_get d k = Some v -> List.In (k, v) d.
Proof.
elim: d => [|[k0 v0] d IH] //=; case: (k0 =P k) => [-> [->]|_ /IH]; auto.
Qed.

Lemma In_dict_keys d k v : List.In (k, v) d -> k \in dict_keys d.
Proof.
rewrite /dict_keys; elim: d => [|kv d IH] //= [->|/IH]; rewrite in_cons ?eqxx //.
by move=> ->; rewrite orbT.
Qed.

Lemma dict_get_uniq d k v :
  uniq (dict_keys d) -> List.In (k, v) d -> dict_get d k = Some v.
Proof.
elim: d => [|[k0 v0] d IH] //= /andP [nk u] [[-> ->]|kin].
  by rewrite eqxx.
case: (k0 =P k) => [e|_]; last exact: IH.
by case/negP: nk; rewrite e; apply: In_dict_keys kin.
Qed.

End MoreDict.

(** ** The index of the branch names *)

Lemma branch_index_from (bs : seq string) (t : nat) (d : dict string nat) b :
  if b \in bs
  then exists2 i,
         dict_get (foldl (fun d ib => dict_set d ib.2 ib.1) d
                     (zip (iota t (size bs)) bs)) b = Some i
         & t <= i < t + size bs /\ nth "" bs (i - t) = b
  else dict_get (foldl (fun d ib => dict_set d ib.2 ib.1) d
                   (zip (iota t (size bs)) bs)) b = dict_get d b.
Proof.
elim: bs t d => [|x bs IH] t d //=.
have:= IH t.+1 (dict_set d x t); rewrite in_cons.
case: (b \in bs) => [[i -> [/andP [ti it] e]]|->].
- rewrite orbT; exists i => //; split.
    by rewrite (ltnW ti) /= addnS -addSn.
  by rewrite -(subnSK ti).
- rewrite orbF dict_get_set (eq_sym x); case: (b =P x) => [->|//].
  by exists t; rewrite // leqnn subnn /= -addSnnS ltn_addr.
Qed.

(** A name has an index exactly when it is a branch; the index is in range
    and the branch at that index is the name. *)
Lemma branch_index_spec (bs : seq string) b :
  if dict_get (branch_name_to_index bs) b is Some i
  then [/\ b \in bs, i < size bs & nth "" bs i = b]
  else b \notin bs.
Proof.
have:= @branch_index_from bs 0 [::] b; rewrite -/(enumerate bs).
rewrite -/(branch_name_to_index bs).
case: (b \in bs) => [[i -> []]|-> //].
by rewrite add0n subn0 /= => it e.
Qed.

Lemma branch_index_mem (bs : seq string) b :
  isSome (dict_get (branch_name_to_index bs) b) = (b \in bs).
Proof.
have:= branch_index_spec bs b; case: (dict_get _ _) => [i [-> //]|/negbTE -> //].
Qed.

(** ** Loading a configuration *)

Section Loading.
Variable F : fieldType.
Implicit Types (hub : EnergyHub F) (config : Config F) (c : Component F).

Lemma name_add_output_ports c (ps : seq (nat * string)) :
  name (foldl (fun c ip => add_output_port c ip.2 (2 + ip.1)) c ps) = name c.
Proof. by elim: ps c => [|p ps IH] c //=; rewrite IH. Qed.

Lemma name_new_component nm (i : comp_init F) : name (new_component nm i) = nm.
Proof. by case: i => //= *; rewrite name_add_output_ports. Qed.

Lemma init_add_output_ports c (ps : seq (nat * string)) :
  init (foldl (fun c ip => add_output_port c ip.2 (2 + ip.1)) c ps) = init c.
Proof. by elim: ps c => [|p ps IH] c //=; rewrite IH. Qed.

Lemma init_new_component nm (i : comp_init F) : init (new_component nm i) = i.
Proof. by case: i => //= *; rewrite init_add_output_ports. Qed.

(** The first loop: the components are appended in the order of the
    configuration; it fails on the first name that is already taken. *)
Lemma load_components hub (cs : seq (string * comp_init F)) :
  let r := for_each (fun h cc =>
             EnergyHub_add_component h (new_component cc.1 cc.2)) hub cs in
  if uniq (dict_keys cs)
     && all (fun n => ~~ dict_mem (components hub) n) (dict_keys cs)
  then r = Ok (mkEnergyHub (hub_name hub)
                 (components hub
                  ++ [seq (cc.1, new_component cc.1 cc.2) | cc <- cs])
                 (global_branches hub) (port_to_global_branch_map hub)
                 (hub_input_branch_indices hub)
                 (hub_output_branch_indices hub)
                 (X_matrix hub) (Y_matrix hub) (Z_matrix hub))
  else exists n, r = Err (ComponentExists n).
Proof.
elim: cs hub => [|[n i] cs IH] hub /=; first by rewrite cats0; case: hub.
rewrite [EnergyHub_add_component hub _]/EnergyHub_add_component.
rewrite name_new_component.
case nin: (dict_mem (components hub) n) => /=.
  by rewrite andbF; exists n.
set hub0 := mkEnergyHub _ _ _ _ _ _ _ _ _.
have:= IH hub0; rewrite /= dict_set_fresh ?nin //.
have -> : all (fun n0 => ~~ dict_mem (rcons (components hub) (n, new_component n i)) n0)
              (dict_keys cs)
          = (n \notin dict_keys cs)
            && all (fun n0 => ~~ dict_mem (components hub) n0) (dict_keys cs).
  elim: (dict_keys cs) => [|m ms IHm] //=; rewrite IHm in_cons negb_or.
  rewrite -cats1 !dict_mem_keys /dict_keys map_cat mem_cat /= inE negb_or.
  rewrite (eq_sym n); case: (m == n) => /=; rewrite ?andbF //.
  by rewrite andbT andbCA.
by rewrite cat_rcons -andbA andbCA.
Qed.

End Loading.

Section LoadingLoops.
Variable F : fieldType.
Implicit Types (hub h : EnergyHub F) (config : Config F) (c : Component F).
Implicit Types (index : dict string nat).

Lemma load_configE hub config :
  load_config hub config =
  (hub <- for_each (fun h cc =>
            EnergyHub_add_component h (new_component cc.1 cc.2))
          hub (cfg_components config) ;;
   let hub := set_global_branches hub (cfg_branches config) in
   if nilp (global_branches hub) then Err NoBranchesInConfig else
   let index := branch_name_to_index (global_branches hub) in
   hub <- for_each (map_ports index) hub (cfg_port_mappings config) ;;
   hub <- for_each (note_hub_input index) hub (cfg_hub_inputs config) ;;
   for_each (note_hub_output index) hub (cfg_hub_outputs config)).
Proof. by []. Qed.

(** The loop over the ports of one component. *)
Lemma map_ports_inner index h comp_name (pbs : dict string string) :
  let r := for_each (fun h pb =>
             let: (port_name, branch) := pb in
             if dict_get index branch is Some i
             then Ok (map_port h (comp_name, port_name) i)
             else Err (UnknownBranch branch comp_name port_name)) h pbs in
  if all (fun pb => dict_mem index pb.2) pbs
  then r = Ok (mkEnergyHub (hub_name h) (components h) (global_branches h)
                 (foldl (fun m kb => dict_set m kb.1 (odflt 0 (dict_get index kb.2)))
                    (port_to_global_branch_map h)
                    [seq ((comp_name, pb.1), pb.2) | pb <- pbs])
                 (hub_input_branch_indices h) (hub_output_branch_indices h)
                 (X_matrix h) (Y_matrix h) (Z_matrix h))
  else exists b p, r = Err (UnknownBranch b comp_name p).
Proof.
elim: pbs h => [|[p b] pbs IH] h /=; first by case: h.
rewrite /dict_mem; case E: (dict_get index b) => [i|] /=; last by exists b, p.
by have:= IH (map_port h (comp_name, p) i).
Qed.

Lemma map_ports_loop index h (pm : dict string (dict string string)) :
  let r := for_each (map_ports index) h pm in
  if all (fun cm => dict_mem (components h) cm.1
                    && all (fun pb => dict_mem index pb.2) cm.2) pm
  then r = Ok (mkEnergyHub (hub_name h) (components h) (global_branches h)
                 (foldl (fun m kb => dict_set m kb.1 (odflt 0 (dict_get index kb.2)))
                    (port_to_global_branch_map h)
                    (flatten [seq [seq ((cm.1, pb.1), pb.2) | pb <- cm.2]
                             | cm <- pm]))
                 (hub_input_branch_indices h) (hub_output_branch_indices h)
                 (X_matrix h) (Y_matrix h) (Z_matrix h))
  else exists e, r = Err e /\
         (e = NoBranchesInConfig -> False).
Proof.
elim: pm h => [|[cn pbs] pm IH] h /=; first by case: h.
case cin: (dict_mem (components h) cn) => /=; last first.
  by exists (MappingForUnknownComponent cn).
have:= map_ports_inner index h cn pbs.
case: (all _ pbs) => /= [->|[b [p ->]]] /=; last first.
  by exists (UnknownBranch b cn p).
set h1 := mkEnergyHub _ _ _ _ _ _ _ _ _.
by have:= IH h1; rewrite /h1 /= foldl_cat.
Qed.

Lemma hub_inputs_loop index h (bs : seq string) :
  let r := for_each (note_hub_input index) h bs in
  if all (dict_mem index) bs
  then r = Ok (mkEnergyHub (hub_name h) (components h) (global_branches h)
                 (port_to_global_branch_map h)
                 (hub_input_branch_indices h
                  ++ [seq odflt 0 (dict_get index b) | b <- bs])
                 (hub_output_branch_indices h)
                 (X_matrix h) (Y_matrix h) (Z_matrix h))
  else exists b, r = Err (UnknownHubInput b).
Proof.
elim: bs h => [|b bs IH] h /=; first by rewrite cats0; case: h.
rewrite /note_hub_input /dict_mem; case E: (dict_get index b) => [i|] /=.
  by have:= IH (append_hub_input h i); rewrite /= cat_rcons.
by exists b.
Qed.

Lemma hub_outputs_loop index h (bs : seq string) :
  let r := for_each (note_hub_output index) h bs in
  if all (dict_mem index) bs
  then r = Ok (mkEnergyHub (hub_name h) (components h) (global_branches h)
                 (port_to_global_branch_map h)
                 (hub_input_branch_indices h)
                 (hub_output_branch_indices h
                  ++ [seq odflt 0 (dict_get index b) | b <- bs])
                 (X_matrix h) (Y_matrix h) (Z_matrix h))
  else exists b, r = Err (UnknownHubOutput b).
Proof.
elim: bs h => [|b bs IH] h /=; first by rewrite cats0; case: h.
rewrite /note_hub_output /dict_mem; case E: (dict_get index b) => [i|] /=.
  by have:= IH (append_hub_output h i); rewrite /= cat_rcons.
by exists b.
Qed.

(** [load_config] returns [loaded_hub] when its checks pass and fails
    otherwise. *)
Lemma load_config_spec hub config :
  if loadable hub config
  then load_config hub config = Ok (loaded_hub hub config)
  else exists e, load_config hub config = Err e.
Proof.
rewrite load_configE /loadable /loaded_hub /cfg_index /cfg_bindings.
have:= load_components hub (cfg_components config).
rewrite andbA; case: (_ && _) => /= [->|[n ->]] /=; last by exists (ComponentExists n).
case: (cfg_branches config) => [|b0 bs] /=.
  by exists NoBranchesInConfig.
set branches := b0 :: bs; set index := branch_name_to_index _.
have hmem b : dict_mem index b = (b \in branches) by exact: branch_index_mem.
set h1 := set_global_branches _ _.
have:= map_ports_loop index h1 (cfg_port_mappings config).
have -> : all (fun cm => dict_mem (components h1) cm.1
                         && all (fun pb => dict_mem index pb.2) cm.2)
              (cfg_port_mappings config)
          = all (fun cm =>
               (dict_mem (components hub) cm.1
                || (cm.1 \in dict_keys (cfg_components config)))
               && all (fun pb => pb.2 \in branches) cm.2)
              (cfg_port_mappings config).
  apply: eq_all => cm; congr (_ && _); last by apply: eq_all => pb; rewrite hmem.
  rewrite !dict_mem_keys /= /dict_keys map_cat mem_cat -map_comp.
  by congr (_ || _).
case: (all _ (cfg_port_mappings config)) => /= [->|[e [-> _]]] /=; last by exists e.
set h2 := mkEnergyHub _ _ _ _ _ _ _ _ _.
have:= hub_inputs_loop index h2 (cfg_hub_inputs config).
rewrite (eq_all hmem).
case: (all _ (cfg_hub_inputs config)) => /= [->|[b ->]] /=; last by exists (UnknownHubInput b).
set h3 := mkEnergyHub _ _ _ _ _ _ _ _ _.
have:= hub_outputs_loop index h3 (cfg_hub_outputs config).
rewrite (eq_all hmem).
case: (all _ (cfg_hub_outputs config)) => /= [->|[b ->]] /=; last by exists (UnknownHubOutput b).
reflexivity.
Qed.

End LoadingLoops.

(** ** Properties of [load_config] *)

Section FoldedDict.
Variables (K : eqType) (V W : Type) (f : W -> V).
Implicit Types (m : dict K V) (kvs : seq (K * W)).

(** Every value of a dictionary filled by a loop was there before or was
    written by the loop. *)
Lemma dict_get_foldl_set m kvs k v :
  dict_get (foldl (fun m kv => dict_set m kv.1 (f kv.2)) m kvs) k = Some v ->
  dict_get m k = Some v \/ exists2 kv, List.In kv kvs & v = f kv.2.
Proof.
elim: kvs m => [|kv kvs IH] m /=; first by left.
case/IH=> [|[kv' kin ->]]; last by right; exists kv' => //; right.
rewrite dict_get_set; case: ifP => _; last by left.
by case=> <-; right; exists kv => //; left.
Qed.

(** Writing fresh, pairwise distinct keys appends them. *)
Lemma foldl_set_fresh m kvs :
  uniq (dict_keys kvs) -> all (fun k => ~~ dict_mem m k) (dict_keys kvs) ->
  foldl (fun m kv => dict_set m kv.1 (f kv.2)) m kvs
  = m ++ [seq (kv.1, f kv.2) | kv <- kvs].
Proof.
elim: kvs m => [|[k w] kvs IH] m /=; first by rewrite cats0.
case/andP=> nk u /andP [fk fr]; rewrite dict_set_fresh // IH ?cat_rcons //.
apply/allP => k' k'in; rewrite -cats1 dict_mem_keys /dict_keys map_cat mem_cat.
rewrite -/(dict_keys m) -dict_mem_keys (negbTE (allP fr _ k'in)) /= inE.
by apply: contraNneq nk => <-.
Qed.

Lemma dict_get_map d k :
  dict_get [seq (kv.1, f kv.2) | kv <- d] k = omap f (dict_get (d : dict K W) k).
Proof. by elim: d => [|[k0 w0] d IH] //=; case: ifP. Qed.

End FoldedDict.

(** The bindings of a nested dictionary, flattened. *)
Lemma dict_get_flatten (pm : dict string (dict string string)) c p :
  uniq (dict_keys pm) ->
  dict_get (flatten [seq [seq ((cm.1, pb.1), pb.2) | pb <- cm.2] | cm <- pm])
    (c, p) = pm_binding pm c p.
Proof.
rewrite /pm_binding; elim: pm => [|[c0 ps] pm IH] //= /andP [nc u].
have inner (qs : dict string string) rest :
    dict_get ([seq ((c0, pb.1), pb.2) | pb <- qs] ++ rest) (c, p) =
    if c0 == c then
      (if dict_get qs p is Some b then Some b else dict_get rest (c, p))
    else dict_get rest (c, p).
  elim: qs => [|[q b] qs IHq] /=; first by case: ifP.
  rewrite IHq xpair_eqE; case: (c0 == c) => //=.
  by case: (q == p).
rewrite inner IH //; case: (c0 =P c) => // <-.
case: (dict_get ps p) => // .
have -> // : dict_get pm c0 = None.
by move: nc; rewrite -dict_mem_keys /dict_mem; case: (dict_get pm c0).
Qed.

Lemma uniq_flatten_bindings (pm : dict string (dict string string)) :
  uniq (dict_keys pm) -> all (fun cm => uniq (dict_keys cm.2)) pm ->
  uniq (dict_keys
          (flatten [seq [seq ((cm.1, pb.1), pb.2) | pb <- cm.2] | cm <- pm])).
Proof.
elim: pm => [|[c0 ps] pm IH] //= /andP [nc u] /andP [ups a].
have ek : dict_keys [seq ((c0, pb.1), pb.2) | pb <- ps]
          = [seq (c0, q) | q <- dict_keys ps].
  by rewrite /dict_keys -!map_comp.
rewrite {1}/dict_keys map_cat -!/(dict_keys _) cat_uniq IH // andbT ek.
rewrite map_inj_uniq ?ups /=; first by move=> x y [].
rewrite -all_predC; apply/allP => -[c p] /mapP [[[c1 p1] b1]] /flattenP [l].
case/mapP=> -[c2 ps2] cin -> /mapP [[p3 b3] _ [-> -> _]] [-> ->] /=.
apply/negP => /mapP [q _ [e _]].
by case/negP: nc; rewrite -e; apply/mapP; exists (c2, ps2).
Qed.

Lemma branches_at_indices (bs names acc : seq string) (idx : string -> nat) :
  (forall b, b \in names -> idx b < size bs /\ nth "" bs (idx b) = b) ->
  for_each (fun acc i => b <- getitem bs i ;; Ok (rcons acc b))
    acc [seq idx b | b <- names] = Ok (acc ++ names).
Proof.
elim: names acc => [|n names IH] acc h /=; first by rewrite cats0.
have [lt e] := h n (mem_head _ _); rewrite /getitem lt e /= IH ?cat_rcons //.
by move=> b bin; apply: h; rewrite in_cons bin orbT.
Qed.

Section LoadingProperties.
Variable F : fieldType.
Implicit Types (hub : EnergyHub F) (config : Config F).

Lemma load_config_ok hub config hub' :
  load_config hub config = Ok hub' ->
  loadable hub config /\ hub' = loaded_hub hub config.
Proof.
have:= load_config_spec hub config.
by case: (loadable _ _) => [-> [<-]|[e ->]].
Qed.

Lemma cfg_index_spec config b :
  b \in cfg_branches config ->
  cfg_index config b < size (cfg_branches config) /\
  nth "" (cfg_branches config) (cfg_index config b) = b.
Proof.
rewrite /cfg_index; have:= branch_index_spec (cfg_branches config) b.
by case: (dict_get _ _) => [i [_ lt e]|/negbTE ->].
Qed.

(** X1.  [load_config] succeeds exactly when the component names of the
    configuration are pairwise distinct and new to the hub, the branch list is
    not empty, every port mapping is for a component of the hub or of the
    configuration and to a branch of the list, and the hub inputs and outputs
    are branches of the list. *)
Theorem load_config_succeeds_iff hub config :
  is_ok (load_config hub config) = loadable hub config.
Proof.
by have:= load_config_spec hub config; case: (loadable _ _) => [->|[e ->]].
Qed.

Lemma load_config_no_branches hub config :
  uniq (dict_keys (cfg_components config)) ->
  all (fun n => ~~ dict_mem (components hub) n)
      (dict_keys (cfg_components config)) ->
  cfg_branches config = [::] ->
  load_config hub config = Err NoBranchesInConfig.
Proof.
move=> u fr e; rewrite load_configE.
have:= load_components hub (cfg_components config); rewrite u fr /= => -> /=.
by rewrite e.
Qed.

(** X2.  A configuration without branches is refused with the error on
    missing branches, once its components have been added: the check comes
    after the instantiation of the components and before every other one. *)
Theorem load_config_without_branches hub config :
  uniq (dict_keys (cfg_components config)) ->
  all (fun n => ~~ dict_mem (components hub) n)
      (dict_keys (cfg_components config)) ->
  cfg_branches config = [::] ->
  load_config hub config = Err NoBranchesInConfig.
Proof. exact: load_config_no_branches. Qed.

(** X3.  [load_config] cannot be applied twice: after a successful load,
    loading the same configuration (with at least one component) into the
    resulting hub fails on the first component, whose name is taken. *)
Theorem load_config_twice hub config hub' cc cs :
  load_config hub config = Ok hub' ->
  cfg_components config = cc :: cs ->
  load_config hub' config = Err (ComponentExists cc.1).
Proof.
case/load_config_ok=> _ -> e; rewrite load_configE e /=.
rewrite /EnergyHub_add_component name_new_component /= e /=.
by rewrite dict_mem_keys /dict_keys map_cat mem_cat /= mem_head orbT.
Qed.

Lemma loaded_indices_in_range nm config hub :
  load_config (new_hub F nm) config = Ok hub ->
  let B := size (global_branches hub) in
  [/\ 0 < B,
      forall key i,
        dict_get (port_to_global_branch_map hub) key = Some i -> i < B,
      all (fun i => i < B) (hub_input_branch_indices hub)
    & all (fun i => i < B) (hub_output_branch_indices hub)].
Proof.
case/load_config_ok=> /and5P [_ _ nb /allP hpm /andP [/allP hin /allP hout]] -> /=.
split.
- by case: (cfg_branches config) nb.
- move=> key i h; have [//|[[k b] /InP kin -> /=]] := dict_get_foldl_set h.
  have [] // := @cfg_index_spec config b.
  case/flattenP: kin => l /mapP [cm /hpm /andP [_ /allP hb] ->].
  by case/mapP=> pb /hb pin [_ ->].
- apply/allP => i /mapP [b /hin bin ->].
  by have [] := cfg_index_spec bin.
- apply/allP => i /mapP [b /hout bin ->].
  by have [] := cfg_index_spec bin.
Qed.

(** X4.  After a successful load into a new hub the hub has at least one
    branch, and every branch index it records (port bindings, hub inputs, hub
    outputs) is the position of a branch of its list. *)
Theorem load_config_indices_in_range nm config hub :
  load_config (new_hub F nm) config = Ok hub ->
  let B := size (global_branches hub) in
  [/\ 0 < B,
      forall key i,
        dict_get (port_to_global_branch_map hub) key = Some i -> i < B,
      all (fun i => i < B) (hub_input_branch_indices hub)
    & all (fun i => i < B) (hub_output_branch_indices hub)].
Proof. exact: loaded_indices_in_range. Qed.

Lemma loaded_branch_names nm config hub :
  load_config (new_hub F nm) config = Ok hub ->
  hub_input_branches hub = Ok (cfg_hub_inputs config) /\
  hub_output_branches hub = Ok (cfg_hub_outputs config).
Proof.
case/load_config_ok=> /and5P [_ _ _ _ /andP [/allP hin /allP hout]] ->.
rewrite /hub_input_branches /hub_output_branches /branches_at /=.
split; rewrite branches_at_indices // => b bin; apply: cfg_index_spec.
- exact: hin.
- exact: hout.
Qed.

(** X5.  The branch names that the optimizer recovers from the indices of
    the hub inputs and outputs are the names given in the configuration, in
    the same order. *)
Theorem hub_branches_roundtrip nm config hub :
  load_config (new_hub F nm) config = Ok hub ->
  hub_input_branches hub = Ok (cfg_hub_inputs config) /\
  hub_output_branches hub = Ok (cfg_hub_outputs config).
Proof. exact: loaded_branch_names. Qed.

Lemma loaded_port_binding nm config hub c p :
  load_config (new_hub F nm) config = Ok hub ->
  uniq (dict_keys (cfg_port_mappings config)) ->
  all (fun cm => uniq (dict_keys cm.2)) (cfg_port_mappings config) ->
  match port_binding config c p with
  | Some b =>
      exists2 i, bound_to hub c p = Some i
        & i < size (global_branches hub) /\ nth "" (global_branches hub) i = b
  | None => bound_to hub c p = None
  end.
Proof.
case/load_config_ok=> /and5P [_ _ _ /allP hpm _] -> u ui.
rewrite /bound_to /port_binding /= foldl_set_fresh ?uniq_flatten_bindings //;
  first by apply/allP.
rewrite /= (dict_get_map (cfg_index config)) /cfg_bindings dict_get_flatten //.
case E: (pm_binding _ c p) => [b|] //=; exists (cfg_index config b) => //.
apply: cfg_index_spec; move: E; rewrite /pm_binding.
case Ec: (dict_get _ c) => [ps|//] Ep; have /InP pin := dict_get_In Ep.
have /InP cin := dict_get_In Ec.
have /andP [_ /allP hb] := hpm _ cin.
exact: (hb (p, b)).
Qed.

(** X6.  After a successful load into a new hub, a port is bound in the hub
    exactly when the configuration maps it, and it is bound to the position
    of the mapped branch in the branch list of the hub. *)
Theorem load_config_binds_ports nm config hub c p :
  load_config (new_hub F nm) config = Ok hub ->
  uniq (dict_keys (cfg_port_mappings config)) ->
  all (fun cm => uniq (dict_keys cm.2)) (cfg_port_mappings config) ->
  match port_binding config c p with
  | Some b =>
      exists2 i, bound_to hub c p = Some i
        & i < size (global_branches hub) /\ nth "" (global_branches hub) i = b
  | None => bound_to hub c p = None
  end.
Proof. exact: loaded_port_binding. Qed.

(** X7.  A hub that has been loaded but not assembled holds no matrices,
    and the coupling derivation refuses it. *)
Theorem derive_before_assembly nm config hub :
  load_config (new_hub F nm) config = Ok hub ->
  get_system_matrices hub = (None, None, None) /\
  derive_coupling_matrix (new_analyzer hub) = Err MatricesNotSet.
Proof. by case/load_config_ok=> _ ->. Qed.

End LoadingProperties.

(** ** Properties of the assembly *)

Section MarkingOk.
Variable F : fieldType.
Variables (hub : EnergyHub F) (comp_name : string) (x : F).
Variable err : string -> string -> error.
Implicit Types (M : Matrix F) (ps : seq (string * nat)).

Local Notation mark := (mark hub comp_name x err).
Local Notation bound_to := (bound_to hub comp_name).
Local Notation hits := (hits hub comp_name).

(** The loop over the ports succeeds exactly when every port is bound to a
    column of the matrix. *)
Lemma mark_is_ok M ps :
  wf_matrix M -> (forall pl, pl \in ps -> pl.2 < rows M) ->
  is_ok (for_each mark M ps) =
  all (fun pl => if bound_to pl.1 is Some b then b < cols M else false) ps.
Proof.
move=> wM hl; apply: (@for_each_is_ok _ _ _ (same_shape M)); first by split.
- exact: mark_preserves.
- move=> N [p l] /InP pin [wN rN cN]; rewrite /mark -/(bound_to p) /=.
  case: (bound_to p) => [b|//]; rewrite /setitem rN cN (hl _ pin) /=.
  by case: ifP.
Qed.

(** What a successful loop has written. *)
Lemma mark_entries M ps M' :
  for_each mark M ps = Ok M' ->
  forall i j, mget M' i j = if has (hits i j) ps then x else mget M i j.
Proof.
elim: ps M => [|[p l] ps IH] M /=; first by case=> <-.
rewrite -/(bound_to p); case bp: (bound_to p) => [b|//].
rewrite /setitem; case: ifP => //= _ /IH ent i j.
rewrite ent mget_updated /hits /= bp (eq_sym l).
have -> : (Some b == Some j) = (j == b) by rewrite eq_sym.
by case: (has _ ps); rewrite ?orbT // orbF.
Qed.

End MarkingOk.

Lemma all_enumerate (A : Type) (P : pred A) (xs : seq A) :
  all (fun ib => P ib.2) (enumerate xs) = all P xs.
Proof.
rewrite /enumerate -[in RHS](@unzip2_zip _ _ (iota 0 (size xs)) xs) ?size_iota //.
by rewrite all_map.
Qed.

Lemma mem_zip_fst (T U : eqType) (s : seq T) (t : seq U) x y :
  (x, y) \in zip s t -> x \in s.
Proof.
elim: s t => [|a s IH] [|b t] //=; rewrite !in_cons xpair_eqE.
by case/orP=> [/andP [-> //]|/IH ->]; rewrite orbT.
Qed.

Section AssemblyOk.
Variable F : fieldType.
Implicit Types (hub : EnergyHub F) (c : Component F) (M X Y Z : Matrix F).

Lemma build_Ag_global_is_ok hub comp_name c B :
  all (fun l => l < cols (get_characteristic_matrix c)) (local_indices c) ->
  is_ok (build_Ag_global hub comp_name c B) = ports_bound hub B (comp_name, c).
Proof.
rewrite /local_indices all_cat build_Ag_globalE => /andP [/allP li /allP lo].
set Ag0 := zeros _ _ _; have w0 : wf_matrix Ag0 by exact: wf_zeros.
rewrite /ports_bound all_cat /=.
have hi : forall pl, pl \in input_ports c -> pl.2 < rows Ag0.
  by move=> pl pin; apply: li; apply/mapP; exists pl.
rewrite -(mark_is_ok hub comp_name 1%R InputPortNotMapped w0 hi).
case E: (for_each _ Ag0 _) => [Ag1|//] /=.
have [w1 r1 c1] := mark_shape w0 E.
rewrite (mark_is_ok hub comp_name (-1)%R OutputPortNotMapped w1) ?c1 // => pl pin.
by rewrite r1; apply: lo; apply/mapP; exists pl.
Qed.

Lemma build_Ag_global_entries hub comp_name c B Ag :
  build_Ag_global hub comp_name c B = Ok Ag ->
  forall i j, mget Ag i j =
    if has (hits hub comp_name i j) (output_ports c) then (-1)%R
    else if has (hits hub comp_name i j) (input_ports c) then 1%R
    else 0%R.
Proof.
rewrite build_Ag_globalE; case E: (for_each _ _ _) => [Ag1|//] /= E2 i j.
by rewrite (mark_entries E2) (mark_entries E) mget_zeros.
Qed.

Lemma build_Z_block_is_ok hub comp_name c B :
  is_ok (build_Z_block hub comp_name c B)
  = is_ok (build_Ag_global hub comp_name c B).
Proof.
rewrite /build_Z_block; case E: (build_Ag_global _ _ _ _) => [Ag|//] /=.
by have [_ rA _] := build_Ag_global_shape E; rewrite mmul_ok.
Qed.

Lemma selector_is_ok (indices : seq nat) B :
  is_ok (selector F indices B) = all (fun b => b < B) indices.
Proof.
rewrite /selector -(all_enumerate (fun b => b < B)).
set X0 := zeros _ _ _; have w0 : wf_matrix X0 by exact: wf_zeros.
apply: (@for_each_is_ok _ _ _ (same_shape X0)); first by split.
- move=> M [i b] M' _ [wM rM cM]; rewrite /setitem; case: ifP => // /andP [ir bc].
  by case=> <-; split; rewrite ?wf_updated.
- move=> M [i b] /InP /mem_zip_fst; rewrite mem_iota add0n /= => ilt [wM rM cM].
  by rewrite /setitem rM cM /= ilt /=; case: ifP.
Qed.

Lemma selector_loop (indices : seq nat) t M M' :
  for_each (fun M ib => setitem M ib.1 ib.2 1%R) M
    (zip (iota t (size indices)) indices) = Ok M' ->
  forall i j, mget M' i j =
    if (t <= i < t + size indices) && (nth 0 indices (i - t) == j) then 1%R
    else mget M i j :> F.
Proof.
elim: indices t M => [|b idx IH] t M /=.
  by case=> <- i j; rewrite addn0; case: (leqP t i) => //= ->.
rewrite /setitem; case: ifP => //= _ /IH ent i j.
rewrite ent mget_updated addSnnS.
case: (ltngtP t i) => [ti|it|<-] //=.
- by rewrite -(subnSK ti).
- by rewrite subnn /= -addSnnS ltn_addr // (eq_sym b).
Qed.

Lemma selector_entries (indices : seq nat) B X :
  selector F indices B = Ok X ->
  forall i j, i < size indices ->
    mget X i j = if nth 0 indices i == j then 1%R else 0%R.
Proof.
rewrite /selector /enumerate => /selector_loop ent i j ilt.
by rewrite ent /= add0n ilt subn0 mget_zeros.
Qed.

End AssemblyOk.

Lemma dot_zero_r (F : fieldType) (u v : seq F) :
  (forall k, nth 0%R v k = 0%R) -> dot u v = 0%R.
Proof.
rewrite /dot; elim: u v => [|a u IH] [|b v] //= h.
have hv k : nth 0%R v k = 0%R by exact: (h k.+1).
have b0 : b = 0%R by exact: (h 0).
by rewrite (IH v hv) addr0 b0 mulr0.
Qed.

Lemma col_join_entries (F : fieldType) (B : nat) (M : Matrix F) Ms S :
  cols M = B -> all (fun N : Matrix F => wf_matrix N && (cols N == B)) Ms ->
  for_each (@col_join F) M Ms = Ok S ->
  entries S = entries M ++ flatten [seq entries N | N <- Ms].
Proof.
elim: Ms M => [|N Ms IH] M cM /=; first by move=> _ [<-]; rewrite cats0.
case/andP=> /andP [_ /eqP cN] a; rewrite col_join_ok ?cM ?cN //=.
by move=> ES; rewrite (IH (stacked M N) cM a ES) /= catA.
Qed.

Lemma all_flatten_map (T U : Type) (P : pred U) (f : T -> seq U) (s : seq T) :
  all P (flatten [seq f x | x <- s]) = all (fun x => all P (f x)) s.
Proof. by elim: s => [|x s IH] //=; rewrite all_cat IH. Qed.

Lemma In_map (T U : Type) (f : T -> U) (s : seq T) y :
  List.In y [seq f x | x <- s] -> exists2 x, List.In x s & y = f x.
Proof.
elim: s => [|x s IH] //= [<-|/IH [x' xin ->]]; first by exists x => //; left.
by exists x' => //; right.
Qed.

Section AssemblyProperties.
Variable F : fieldType.
Implicit Types (hub : EnergyHub F) (c : Component F) (M X Y Z : Matrix F).

Lemma Z_loop_is_ok hub B blocks0 :
  catalogue_instances hub ->
  is_ok (for_each (fun blocks nc =>
           Zg <- build_Z_block hub nc.1 nc.2 B ;; Ok (rcons blocks Zg))
         blocks0 (components hub))
  = all (ports_bound hub B) (components hub).
Proof.
move=> hc; apply: (@for_each_is_ok _ _ _ (fun=> True)) => //.
move=> blocks [n c] /hc /= cE _.
have a : all (fun l => l < cols (get_characteristic_matrix c)) (local_indices c).
  by rewrite cE; have [] := new_component_ports (name c) (init c).
rewrite is_ok_bind -(build_Ag_global_is_ok hub n B a) -build_Z_block_is_ok.
by case: (build_Z_block _ _ _ _).
Qed.

Lemma Z_stack_ok hub B (cs : seq (string * Component F)) blocks :
  for_each (fun blocks nc =>
      Zg <- build_Z_block hub nc.1 nc.2 B ;; Ok (rcons blocks Zg))
    [::] cs = Ok blocks ->
  exists2 Z, (if nilp blocks then Ok (zeros F 0 B) else vstack blocks) = Ok Z
    & entries Z = flatten [seq entries N | N <- blocks].
Proof.
move=> E; have [ab _ _] := Z_blocks_shape E isT.
case: blocks ab {E} => [|N Ns] /=; first by exists (zeros F 0 B).
case/andP=> /andP [wN /eqP cN] aNs.
have [S ES _] := for_each_col_join wN cN aNs.
by exists S => //; exact: (col_join_entries cN aNs ES).
Qed.

Lemma build_system_matrices_is_ok hub :
  catalogue_instances hub ->
  let B := size (global_branches hub) in
  is_ok (build_system_matrices hub) =
  [&& B != 0, all (ports_bound hub B) (components hub),
      all (fun i => i < B) (hub_input_branch_indices hub)
    & all (fun i => i < B) (hub_output_branch_indices hub)].
Proof.
move=> hc B; rewrite /build_system_matrices -/B.
case: (B == 0) => //=.
rewrite -(Z_loop_is_ok B [::] hc).
case E: (for_each _ _ _) => [blocks|//] /=.
have [Z -> _] /= := Z_stack_ok E.
rewrite -!(selector_is_ok F).
by case: (selector _ _ _) => [X|//] /=; case: (selector _ _ _).
Qed.

(** X8.  For a hub whose components are instances of the catalogue, the
    assembly succeeds exactly when the hub has a branch, every declared port
    of every component is bound to a position of the branch list, and the
    indices of the hub inputs and outputs are positions of the branch
    list. *)
Theorem assembly_succeeds_iff hub :
  catalogue_instances hub ->
  let B := size (global_branches hub) in
  is_ok (build_system_matrices hub) =
  [&& B != 0, all (ports_bound hub B) (components hub),
      all (fun i => i < B) (hub_input_branch_indices hub)
    & all (fun i => i < B) (hub_output_branch_indices hub)].
Proof. exact: build_system_matrices_is_ok. Qed.

(** X9.  The matrices X and Y of a successful assembly select branch
    values: row [i] of X holds 1 at the column of the [i]-th hub input and 0
    elsewhere, so that against branch values [V] it reads the value of that
    branch; likewise for Y and the hub outputs. *)
Theorem selectors_pick_branches hub hub' X Y Z :
  build_system_matrices hub = Ok (hub', (X, Y, Z)) ->
  let B := size (global_branches hub) in
  let ins := hub_input_branch_indices hub in
  let outs := hub_output_branch_indices hub in
  (forall i, i < size ins ->
     (forall j, mget X i j = if nth 0 ins i == j then 1%R else 0%R) /\
     (forall V, size V = B ->
        dot (nth [::] (entries X) i) V = nth 0%R V (nth 0 ins i))) /\
  (forall i, i < size outs ->
     (forall j, mget Y i j = if nth 0 outs i == j then 1%R else 0%R) /\
     (forall V, size V = B ->
        dot (nth [::] (entries Y) i) V = nth 0%R V (nth 0 outs i))).
Proof.
move=> E B ins outs.
have [_ [wX rX cX] [wY rY cY] _] := build_system_matrices_shapes E.
move: E; rewrite /build_system_matrices; case: ifP => // _.
case: (for_each _ _ _) => [blocks|//] /=.
case: (if nilp blocks then _ else _) => [Z'|//] /=.
case EX: (selector _ _ _) => [X'|//] /=.
case EY: (selector _ _ _) => [Y'|//] /= [_ eX eY _].
move: EX EY; rewrite {X'}eX {Y'}eY -/B -/ins -/outs => EX EY.
have sel (idx : seq nat) (M : Matrix F) i :
    selector F idx B = Ok M -> wf_matrix M -> rows M = size idx -> cols M = B ->
    i < size idx ->
    (forall j, mget M i j = if nth 0 idx i == j then 1%R else 0%R) /\
    (forall V, size V = B ->
       dot (nth [::] (entries M) i) V = nth 0%R V (nth 0 idx i)).
  move=> EM /wf_matrixP [sz hr] rM cM ilt.
  have ent j := selector_entries EM j ilt.
  split=> // V sV.
  have lt : nth 0 idx i < B.
    have:= selector_is_ok F idx B; rewrite EM /= => /esym /allP; apply.
    exact: mem_nth.
  rewrite (@dot_sum _ B) ?hr ?rM ?cM //.
  rewrite (eq_bigr (fun j : 'I_B =>
    (if (j : nat) == nth 0 idx i then 1 else 0) * nth 0 V j)%R).
    by move=> j _; rewrite -/(mget M i j) ent eq_sym.
  by rewrite sum_spike // mul1r.
by split=> i ilt; [apply: sel EX _ _ _ ilt | apply: sel EY _ _ _ ilt].
Qed.

(** X10.  When no storage of the hub has a discharging efficiency of zero
    (so that every characteristic matrix holds scalars), a branch to which
    no port of any component is bound has a zero column in Z. *)
Theorem unattached_branch_zero_column hub hub' X Y Z j :
  build_system_matrices hub = Ok (hub', (X, Y, Z)) ->
  all (fun nc => finite_parameters (init nc.2)) (components hub) ->
  (forall nc pl, List.In nc (components hub) ->
     pl \in input_ports nc.2 ++ output_ports nc.2 ->
     bound_to hub nc.1 pl.1 != Some j) ->
  forall r, mget Z r j = 0%R.
Proof.
rewrite /build_system_matrices; case: ifP => // _.
set B := size _.
case Eb: (for_each _ _ _) => [blocks|//] /=.
have [Z' -> eZ] /= := Z_stack_ok Eb.
case: (selector _ _ _) => [X'|//] /=; case: (selector _ _ _) => [Y'|//] /=.
case=> _ _ _ eZ'; move: eZ; rewrite {Z'}eZ' => eZ _ unb r.
pose zero_at (row : seq F) := nth 0%R row j == 0%R.
suff hall : all (fun N : Matrix F => all zero_at (entries N)) blocks.
  have hZ : all zero_at (entries Z) by rewrite eZ all_flatten_map.
  rewrite /mget; case: (ltnP r (size (entries Z))) => [rlt|ge].
    exact/eqP/(all_nthP [::] hZ).
  by rewrite (nth_default _ ge) nth_nil.
apply: (for_each_inv (I:=fun bl : seq (Matrix F) =>
          all (fun N : Matrix F => all zero_at (entries N)) bl) _ _ Eb) => //.
move=> bl [n c] bl' cin hbl /=; rewrite /build_Z_block.
case EA: (build_Ag_global _ _ _ _) => [Ag|//] /=.
rewrite /mmul; case: ifP => //= _ [<-]; rewrite all_rcons hbl andbT /=.
apply/allP => row /mapP [hrow _ ->]; rewrite /zero_at.
case: (ltnP j (cols Ag)) => jc; last first.
  by rewrite nth_default // size_map size_iota.
rewrite (nth_map 0) ?size_iota // nth_iota // add0n.
rewrite dot_zero_r // => k; rewrite nth_column (build_Ag_global_entries EA).
have nh (ps : seq (string * nat)) :
    (forall pl, pl \in ps -> bound_to hub n pl.1 != Some j) ->
    has (hits hub n k j) ps = false.
  move=> h; apply/hasPn => pl /h; rewrite /hits => /negbTE ->.
  by rewrite andbF.
rewrite !nh // => pl pin; apply: (unb (n, c)) => //=;
  by rewrite mem_cat pin ?orbT.
Qed.

Lemma loaded_hub_assembly nm config hub :
  load_config (new_hub F nm) config = Ok hub ->
  is_ok (build_system_matrices hub) =
    all (fun nc => all (fun pl => isSome (bound_to hub nc.1 pl.1))
                     (input_ports nc.2 ++ output_ports nc.2))
        (components hub) /\
  (forall e, build_system_matrices hub = Err e -> is_binding_error e).
Proof.
move=> E; have [B0 hb hin hout] := loaded_indices_in_range E.
have [_ eh] := load_config_ok E.
have hc : catalogue_instances hub.
  rewrite eh => nc /= nin; have [[n i] _ ->] /= := In_map nin.
  by rewrite name_new_component init_new_component.
split.
- rewrite (build_system_matrices_is_ok hc) -lt0n B0 hin hout !andbT /=.
  apply: eq_all => nc; apply: eq_all => pl; rewrite /bound_to.
  by case Eb: (dict_get _ _) => [b|//]; rewrite (hb _ _ Eb).
- move=> e; rewrite /build_system_matrices eqn0Ngt B0 /=.
  case Eb: (for_each _ _ _) => [blocks|e'] /=; last first.
    by case=> <-; apply: Z_loop_error Eb.
  have [Z -> _] /= := Z_stack_ok Eb.
  have:= selector_is_ok F (hub_input_branch_indices hub) (size (global_branches hub)).
  rewrite hin; case: (selector _ _ _) => [X|//] _ /=.
  have:= selector_is_ok F (hub_output_branch_indices hub) (size (global_branches hub)).
  by rewrite hout; case: (selector _ _ _).
Qed.

(** X11.  A hub loaded from a configuration assembles exactly when every
    declared port of its components is bound, and when the assembly fails it
    is for a port that is not bound: no index is out of range and no shape
    disagrees. *)
Theorem loaded_hub_assembles nm config hub :
  load_config (new_hub F nm) config = Ok hub ->
  is_ok (build_system_matrices hub) =
    all (fun nc => all (fun pl => isSome (bound_to hub nc.1 pl.1))
                     (input_ports nc.2 ++ output_ports nc.2))
        (components hub) /\
  (forall e, build_system_matrices hub = Err e -> is_binding_error e).
Proof. exact: loaded_hub_assembly. Qed.

End AssemblyProperties.

(** ** Matrix algebra *)

Section MatrixAlgebra.
Variable F : fieldType.
Implicit Types (A B C M : Matrix F) (u v : seq F).

Lemma nth_map_opp u j : nth 0%R [seq (- x)%R | x <- u] j = (- nth 0 u j)%R.
Proof.
case: (ltnP j (size u)) => h; first by rewrite (nth_map 0%R).
by rewrite !nth_default ?size_map // oppr0.
Qed.

Lemma mget_mneg M i j : mget (mneg M) i j = (- mget M i j)%R.
Proof.
rewrite /mget /=; case: (ltnP i (size (entries M))) => h.
  by rewrite (nth_map [::]) // nth_map_opp.
by rewrite !nth_default ?size_map //= oppr0.
Qed.

Lemma wf_mneg M : wf_matrix M -> wf_matrix (mneg M).
Proof.
rewrite /wf_matrix /= size_map => /andP [-> /=]; rewrite all_map.
by apply: sub_all => r /=; rewrite size_map.
Qed.

Lemma mnegK M : mneg (mneg M) = M.
Proof.
case: M => r c e; rewrite /mneg /=; congr Mx.
rewrite -map_comp -[RHS]map_id; apply: eq_map => row /=.
by rewrite -map_comp -[RHS]map_id; apply: eq_map => x /=; rewrite opprK.
Qed.

Lemma mneg_stacked A B : mneg (stacked A B) = stacked (mneg A) (mneg B).
Proof. by rewrite /mneg /stacked /= map_cat. Qed.

Lemma mneg_zeros r c : mneg (zeros F r c) = zeros F r c.
Proof. by rewrite /mneg /zeros /= !map_nseq oppr0. Qed.

Lemma dot_neg_l u v : dot [seq (- x)%R | x <- u] v = (- dot u v)%R.
Proof.
rewrite /dot; elim: u v => [|a u IH] [|b v] //=; rewrite ?oppr0 //.
by rewrite IH mulNr opprD.
Qed.

Lemma dot_neg_r u v : dot u [seq (- x)%R | x <- v] = (- dot u v)%R.
Proof.
rewrite /dot; elim: u v => [|a u IH] [|b v] //=; rewrite ?oppr0 //.
by rewrite IH mulrN opprD.
Qed.

Lemma dot_zero_l n v : dot (nseq n 0%R) v = 0%R.
Proof.
by rewrite /dot; elim: n v => [|n IH] [|b v] //=; rewrite IH mul0r addr0.
Qed.

Lemma product_mneg_l A B : product (mneg A) B = mneg (product A B).
Proof.
rewrite /product /mneg /=; congr Mx; rewrite -!map_comp.
apply: eq_map => r /=; rewrite -map_comp; apply: eq_map => j /=.
exact: dot_neg_l.
Qed.

Lemma product_mneg_r A B : product A (mneg B) = mneg (product A B).
Proof.
rewrite /product /mneg /=; congr Mx; rewrite -!map_comp.
apply: eq_map => r /=; rewrite -map_comp; apply: eq_map => j /=.
rewrite -dot_neg_r; congr dot; rewrite /column /= -!map_comp.
by apply: eq_map => row /=; rewrite nth_map_opp.
Qed.

Lemma product_stacked A B C :
  product (stacked A B) C = stacked (product A C) (product B C).
Proof. by rewrite /product /stacked /= map_cat. Qed.

Lemma product_zeros_l k m M : product (zeros F k m) M = zeros F k (cols M).
Proof.
rewrite /product /zeros /= map_nseq; congr Mx; congr nseq.
apply: (@eq_from_nth _ 0%R); first by rewrite size_map size_iota size_nseq.
rewrite size_map size_iota => i ilt.
by rewrite (nth_map 0) ?size_iota // nth_nseq ilt dot_zero_l.
Qed.

Lemma product_eye_l M : wf_matrix M -> product (eye F (rows M)) M = M.
Proof.
move=> wM; apply: matrix_eq => //; first exact: wf_product (wf_eye _ _).
move=> i j /= ilt jlt; rewrite mget_product ?wf_eye //=.
rewrite (bigD1 (Ordinal ilt)) //= mget_eye // eqxx mul1r big1 ?addr0 //.
move=> k; rewrite -val_eqE /= => ne; rewrite mget_eye // (eq_sym i).
by rewrite (negbTE ne) mul0r.
Qed.

Lemma product_assoc A B C :
  wf_matrix A -> wf_matrix B -> wf_matrix C ->
  cols A = rows B -> cols B = rows C ->
  product (product A B) C = product A (product B C).
Proof.
move=> wA wB wC ab bc.
have wAB : wf_matrix (product A B) by exact: wf_product.
have wBC : wf_matrix (product B C) by exact: wf_product.
apply: matrix_eq; [exact: wf_product | exact: wf_product | by [] | by [] |].
move=> i j /= ilt jlt.
rewrite !mget_product //=.
rewrite (eq_bigr (fun k : 'I_(cols B) =>
  \sum_(l < cols A) mget A i l * mget B l k * mget C k j)%R).
  by move=> k _; rewrite mget_product // big_distrl.
rewrite exchange_big /=; apply: eq_bigr => l _.
have lB : l < rows B by rewrite -ab.
rewrite mget_product // big_distrr /=.
by apply: eq_bigr => k _; rewrite mulrA.
Qed.

Lemma inv_ok_inverse (Q P : Matrix F) :
  wf_matrix Q -> rows Q = cols Q -> inv Q = Ok P -> inverse_of Q P.
Proof.
move=> wQ rc; rewrite /inv rc eqxx /= -rc; case: ifP => // u [<-].
exact: inv_unit.
Qed.

End MatrixAlgebra.

(** ** Properties of the coupling derivation *)

Section CouplingProperties.
Variable F : fieldType.
Implicit Types (a : SymbolicAnalyzer F) (hub : EnergyHub F).
Implicit Types (X Y Z C V : Matrix F).

Lemma derive_after_assembly hub hub' X Y Z a C :
  build_system_matrices hub = Ok (hub', (X, Y, Z)) ->
  derive_coupling_matrix (new_analyzer hub') = Ok (a, C) ->
  let Q := stacked X Z in
  let R := stacked (mneg (eye F (rows X))) (zeros F (rows Z) (rows X)) in
  [/\ rows Q = cols Q,
      exists2 P, inverse_of Q P & C = product (product (mneg Y) P) R
    & a = mkSymbolicAnalyzer hub' (Some C)].
Proof.
move=> Eb; have [eh [wX rX cX] [wY rY cY] [wZ rZ cZ]] :=
  build_system_matrices_shapes Eb.
have cXZ : cols X = cols Z by rewrite cX cZ.
have cYZ : cols Y = cols Z by rewrite cY cZ.
rewrite (@derive_coupling_matrixE _ _ X Y Z) ?eh //.
move=> + Q R; rewrite -/Q -/R.
case: ifP => // /negbFE /eqP sq.
have wQ : wf_matrix Q by exact: wf_stacked.
case Ei: (inv Q) => [P|//] [<- <-]; split=> //.
by exists P => //; apply: inv_ok_inverse.
Qed.

(** X12.  The coupling matrix derived from an assembled hub has one row per
    hub output and one column per hub input, and the analyzer keeps it. *)
Theorem coupling_matrix_shape hub hub' X Y Z a C :
  build_system_matrices hub = Ok (hub', (X, Y, Z)) ->
  derive_coupling_matrix (new_analyzer hub') = Ok (a, C) ->
  [/\ wf_matrix C,
      rows C = size (hub_output_branch_indices hub),
      cols C = size (hub_input_branch_indices hub),
      C_matrix a = Some C
    & energy_hub a = hub'].
Proof.
move=> Eb Ed; have [sq [P iP ->] ->] := derive_after_assembly Eb Ed.
have [_ [wX rX cX] [wY rY cY] _] := build_system_matrices_shapes Eb.
split=> //=; apply: wf_product; apply: wf_product; exact: wf_mneg.
Qed.

(** X13.  The derived coupling matrix maps hub inputs to hub outputs: for
    every assignment [V] of values to the branches (one column per scenario)
    that satisfies the balance equations [Z * V = 0], the output values
    [Y * V] are [C * (X * V)]. *)
Theorem coupling_matrix_maps_inputs_to_outputs hub hub' X Y Z a C V :
  build_system_matrices hub = Ok (hub', (X, Y, Z)) ->
  derive_coupling_matrix (new_analyzer hub') = Ok (a, C) ->
  wf_matrix V -> rows V = size (global_branches hub) ->
  mmul Z V = Ok (zeros F (rows Z) (cols V)) ->
  exists2 Vin, mmul X V = Ok Vin & mmul C Vin = mmul Y V.
Proof.
move=> Eb Ed wV rV; have [sq [P [sP PQ _] ->] _] := derive_after_assembly Eb Ed.
have [_ [wX rX cX] [wY rY cY] [wZ rZ cZ]] := build_system_matrices_shapes Eb.
rewrite !mmul_ok ?cX ?cY ?cZ ?rV // => hZ; have ZV := Ok_inj hZ.
exists (product X V) => //.
set Q := stacked X Z in sq sP PQ *.
set R := stacked _ _.
have /squareP [wP rP cP] := sP.
have wQ : wf_matrix Q by apply: wf_stacked; rewrite ?cX ?cZ.
have cQ : cols Q = rows V by rewrite /= cX rV.
have wXV : wf_matrix (product X V) by exact: wf_product.
have wR : wf_matrix R.
  by apply: wf_stacked; rewrite ?wf_mneg ?wf_eye ?wf_zeros.
have RXV : product R (product X V) = mneg (product Q V).
  rewrite /R /Q !product_stacked product_zeros_l ZV mneg_stacked mneg_zeros /=.
  by rewrite product_mneg_l -[rows X]/(rows (product X V)) product_eye_l.
have ePQ : product P Q = eye F (rows Q).
  by move: PQ; rewrite mmul_ok ?cP // => hPQ; exact: Ok_inj hPQ.
rewrite mmul_ok //; congr Ok.
have s1 : product (product (product (mneg Y) P) R) (product X V)
          = product (product (mneg Y) P) (product R (product X V)).
  by apply: product_assoc => //; exact: wf_product (wf_mneg wY).
have s2 : product (product Y P) (product Q V)
          = product Y (product P (product Q V)).
  apply: product_assoc => //; first exact: wf_product.
  by rewrite rP sq /= cX cY.
have s3 : product P (product Q V) = product (product P Q) V.
  by symmetry; apply: product_assoc.
rewrite s1 RXV product_mneg_r !product_mneg_l mnegK s2 s3 ePQ sq cQ.
by rewrite product_eye_l.
Qed.

End CouplingProperties.

(** ** The entries of a block of Z *)

Section BlockFormula.
Variable F : fieldType.
Variables (hub : EnergyHub F) (comp_name : string).
Implicit Types (ps : seq (string * nat)) (c : Component F).

Lemma hits_sum ps k j (y : F) :
  uniq (dict_vals ps) ->
  (if has (hits hub comp_name k j) ps then y else 0%R) =
  (\sum_(pl <- ps | bound_to hub comp_name pl.1 == Some j)
      (if pl.2 == k then y else 0))%R.
Proof.
elim: ps => [|pl ps IH] /=; first by rewrite big_nil.
case/andP=> nl u; rewrite big_cons -(IH u) {1}/hits.
case: (pl.2 =P k) => [e|_] /=; last by case: (_ == Some j); rewrite ?add0r.
by rewrite has_hits_other -?e // addr0 orbF; case: (_ == Some j).
Qed.

Lemma sum_pick n (l : nat) (f : nat -> F) :
  l < n -> (\sum_(k < n) (if l == k then f k else 0))%R = f l.
Proof.
move=> ln; rewrite (bigD1 (Ordinal ln)) //= eqxx big1 ?addr0 // => k.
by rewrite -val_eqE /= eq_sym => /negbTE ->.
Qed.

Lemma sum_ports ps n (f : nat -> F) j :
  all (fun l => l < n) (dict_vals ps) ->
  (\sum_(k < n) \sum_(pl <- ps | bound_to hub comp_name pl.1 == Some j)
      (if pl.2 == k then f k else 0))%R
  = (\sum_(pl <- ps | bound_to hub comp_name pl.1 == Some j) f pl.2)%R.
Proof.
move=> /allP a; rewrite exchange_big /= big_seq_cond [RHS]big_seq_cond.
apply: eq_bigr => pl /andP [pin _]; apply: sum_pick.
by apply: a; apply/mapP; exists pl.
Qed.

(** X14.  The block of Z of a component of the catalogue, a storage having
    a discharging efficiency that is not zero: its entry in row [r] and
    column [j] is the sum of the coefficients that the characteristic matrix
    gives, in row [r], to the input ports bound to branch [j], minus the sum
    of those it gives to the output ports bound to branch [j]. *)
Theorem balance_block_entries nm (i : comp_init F) B Zg r j :
  let c := new_component nm i in
  let Hg := get_characteristic_matrix c in
  finite_parameters i ->
  build_Z_block hub comp_name c B = Ok Zg -> r < rows Hg -> j < B ->
  mget Zg r j =
  (\sum_(pl <- input_ports c | bound_to hub comp_name pl.1 == Some j)
      mget Hg r pl.2
   - \sum_(pl <- output_ports c | bound_to hub comp_name pl.1 == Some j)
      mget Hg r pl.2)%R.
Proof.
move=> c Hg _; rewrite /build_Z_block.
case EA: (build_Ag_global _ _ _ _) => [Ag|//] /=.
have [wA rA cA] := build_Ag_global_shape EA.
rewrite mmul_ok ?rA // => hZ rlt jlt; rewrite -(Ok_inj hZ).
have wH : wf_matrix Hg := wf_characteristic_matrix c.
have [] := new_component_ports nm i; rewrite -/c -/Hg /local_indices.
rewrite cat_uniq all_cat => /and3P [ui /hasPn io uo] /andP [ai ao].
rewrite mget_product ?rA ?cA //.
rewrite -(sum_ports (fun k => mget Hg r k) j ai).
rewrite -(sum_ports (fun k => mget Hg r k) j ao) -sumrB.
apply: eq_bigr => k _; rewrite -!hits_sum // (build_Ag_global_entries EA).
case ho: (has _ (output_ports c)).
  rewrite has_hits_other ?sub0r ?mulrN1 //.
  case/hasP: ho => pl pin /andP [/eqP e _]; apply/negP => kin.
  by have /negP [] := io _ (map_f snd pin); rewrite e.
by rewrite subr0; case: ifP => _; rewrite ?mulr1 ?mulr0.
Qed.

End BlockFormula.

(** ** The local incidence matrices *)

Section LocalIncidence.
Variable F : fieldType.
Implicit Types (c : Component F) (M : Matrix F).

Lemma diagonal_loop M (t m : nat) :
  wf_matrix M -> 2 + t + m <= rows M -> 2 + t + m <= cols M ->
  exists2 M', for_each (fun Ag i => setitem Ag (2 + i) (2 + i) (-1)%R) M
                (iota t m) = Ok M'
    & same_shape M M' /\
      forall k j, mget M' k j =
        if [&& 2 + t <= k, k < 2 + t + m & k == j] then (-1)%R else mget M k j.
Proof.
elim: m t M => [|m IH] t M wM hr hc /=.
  by exists M => //; split=> // k j; rewrite addn0 ltnNge andbA andbN.
have tr : 2 + t < rows M by apply: leq_trans hr; rewrite addnS ltnS leq_addr.
have tc : 2 + t < cols M by apply: leq_trans hc; rewrite addnS ltnS leq_addr.
rewrite setitem_ok //=.
have [|||M' -> [[wM' rM' cM'] ent]] := IH t.+1 (updated M (2 + t) (2 + t) (-1)%R).
- exact: wf_updated.
- by rewrite /= !addnS -addSn in hr *.
- by rewrite /= !addnS -addSn in hc *.
exists M' => //; split=> // k j; rewrite ent mget_updated !addnS /=.
case: (ltngtP (2 + t) k) => [h|h|<-] //=.
by rewrite ltnS leq_addr /= (eq_sym j).
Qed.

(** X15.  The local incidence matrix of a component of any class is square,
    of the size of the columns of its characteristic matrix, and diagonal; its
    diagonal holds 1 at the local index of an input port and -1 at the local
    index of an output port, the signs that the assembler writes for the
    ports. *)
Theorem port_branch_matrix_diagonal nm (i : comp_init F) :
  let c := new_component nm i in
  exists2 Ag, get_port_branch_matrix c = Ok Ag &
    [/\ square (cols (get_characteristic_matrix c)) Ag,
        forall k j, k != j -> mget Ag k j = 0%R,
        forall p l, (p, l) \in input_ports c -> mget Ag l l = 1%R
      & forall p l, (p, l) \in output_ports c -> mget Ag l l = (-1)%R].
Proof.
move=> c; rewrite /get_port_branch_matrix /get_characteristic_matrix.
rewrite init_new_component.
have small2 : forall k j, k != j ->
    mget (of_rows [:: [:: 1; 0]; [:: 0; -1]] : Matrix F)%R k j = 0%R.
  by move=> [|[|k]] [|[|j]] //=; rewrite /mget /= ?nth_nil.
case: i @c => [eta_q eta_w eps|eta|eta_c eta_d|sr|eta|cop|cop|eta|eta] c;
  try by exists (of_rows [:: [:: 1; 0]; [:: 0; -1]])%R => //; split=> //;
         move=> p l; rewrite inE => /eqP [_ ->].
- set n := size (chp_elec_ports eps); set N := 2 + n.
  have wz := wf_zeros F N N.
  rewrite !setitem_ok //=.
  set M0 := updated _ _ _ _.
  have wM0 : wf_matrix M0 by rewrite !wf_updated.
  have [||Ag -> [[wA rA cA] ent]] := @diagonal_loop M0 0 n wM0.
  + by rewrite /= addn0.
  + by rewrite /= addn0.
  exists Ag => //.
  have diag k j : mget Ag k j =
      if k == j then (if k == 0 then 1%R else if k < N then (-1)%R else 0%R)
      else 0%R.
    rewrite ent /M0 !mget_updated mget_zeros addn0 /N.
    case: (k =P j) => [<-|ne]; rewrite ?andbF //=.
      by rewrite andbT; case: k => [|[|k]].
    have /negbTE nj : j != k by apply/eqP => e; case: ne.
    by case: k ne {nj} => [|[|k]] ne //=; case: j ne => [|[|j]].
  have [] := @chp_ports_spec F
               (add_output_port (add_input_port (mkComponent nm
                  (CHPBackPressure eta_q eta_w eps) [::] [::]) "fuel_in" 0)
                  "heat_out" 1) 0 (chp_elec_ports eps) => // _ ei _ /allP ao.
  split.
  + by apply/squareP; split; rewrite ?rA ?cA //= size_nseq.
  + by move=> k j /negbTE ne; rewrite diag ne.
  + move=> p l; rewrite /c /new_component /enumerate ei /= inE => /eqP [_ ->].
    by rewrite diag.
  + move=> p l pin; have /andP [l0 lN] := ao l (map_f snd pin).
    by move: lN; rewrite addn0 diag eqxx (gtn_eqF l0) => ->.
- exists (of_rows [:: [:: 1; 0; 0]; [:: 0; -1; 0]; [:: 0; 0; 1]])%R => //.
  split=> //.
  + by move=> [|[|[|k]]] [|[|[|j]]] //=; rewrite /mget /= ?nth_nil.
  + by move=> p l; rewrite !inE => /orP [] /eqP [_ ->].
  + by move=> p l; rewrite inE => /eqP [_ ->].
- exists (of_rows [:: [:: 1; 0; 0]; [:: 0; 1; 0]; [:: 0; 0; -1]])%R => //.
  split=> //.
  + by move=> [|[|[|k]]] [|[|[|j]]] //=; rewrite /mget /= ?nth_nil.
  + by move=> p l; rewrite !inE => /orP [] /eqP [_ ->].
  + by move=> p l; rewrite inE => /eqP [_ ->].
Qed.

End LocalIncidence.

(** ** The graphs made through the interface *)

Section MoreDictLoops.
Variables (K : eqType) (V : Type).
Implicit Types (d : dict K V) (k : K) (v : V).

Lemma In_dict_set d k v x :
  List.In x (dict_set d k v) -> x = (k, v) \/ List.In x d.
Proof.
elim: d => [|[k0 v0] d IH] /=; first by case=> // <-; left.
case: (k0 =P k) => [e|_] /= [<-|h].
- by left; rewrite e.
- by right; right.
- by right; left.
- by case/IH: h => [->|h]; [left | right; right].
Qed.

Lemma all_dict_set (P : pred (K * V)) d k v :
  all P d -> P (k, v) -> all P (dict_set d k v).
Proof.
elim: d => [|[k0 v0] d IH] /=; first by move=> _ ->.
case/andP=> p0 a pk; case: ifP => [/eqP e|_] /=.
  by rewrite e pk a.
by rewrite p0 IH.
Qed.

Lemma all_In (T : Type) (P : pred T) (s : seq T) x :
  all P s -> List.In x s -> P x.
Proof. by elim: s => [|y s IH] //= /andP [py a] [<-|/(IH a)]. Qed.

End MoreDictLoops.

Section Construction.
Variable F : fieldType.
Implicit Types (g : GraphEnergyHub F) (G : DiGraph F).
Implicit Types (e : string * string * edge_attr).

Lemma mem_keys_set (K : eqType) (V : Type) (d : dict K V) k v n :
  (n \in dict_keys (dict_set d k v)) = (n == k) || (n \in dict_keys d).
Proof. by rewrite -!dict_mem_keys dict_mem_set eq_sym. Qed.

Lemma edges_add_node_fresh G n a :
  n \notin dict_keys (adj G) -> edges (add_node G n a) = edges G.
Proof.
move=> nin; rewrite /add_node; case: ifP => // _.
by rewrite /edges /= dict_set_fresh ?dict_mem_keys // map_rcons flatten_rcons cats0.
Qed.

Lemma all_edges_add_edge (P : pred (string * string * edge_attr)) G u v d :
  all P (edges G) -> P (u, v, d) -> all P (edges (add_edge G u v d)).
Proof.
rewrite /edges /add_edge /= !all_flatten_map => a pe.
apply: all_dict_set => //=; rewrite all_map; apply: all_dict_set => //.
case E: (dict_get (adj G) u) => [nbrs|//].
by have:= all_In a (dict_get_In E); rewrite /= all_map.
Qed.

(** Adding a node under a new name keeps what was established of the
    sources, the destinations and the edges. *)
Lemma edge_ok_add_node g g' nm a :
  ~~ dict_mem (nodes (graph g)) nm ->
  nodes (graph g') = dict_set (nodes (graph g)) nm a ->
  forall e, edge_ok g e -> edge_ok g' e.
Proof.
move=> nin en [[u v] d]; rewrite /edge_ok /source_ok /destination_ok en /=.
rewrite !dict_get_set.
have none : dict_get (nodes (graph g)) nm = None.
  by move: nin; rewrite /dict_mem; case: (dict_get _ _).
case: (nm =P u) => [<-|_]; first by rewrite none.
by case: (nm =P v) => [<-|//]; rewrite none andbF.
Qed.

Lemma edge_ok_same_nodes g g' :
  nodes (graph g') = nodes (graph g) -> edge_ok g' =1 edge_ok g.
Proof. by move=> en e; rewrite /edge_ok /source_ok /destination_ok en. Qed.

Lemma consistent_new nm : consistent (new_graph_hub F nm).
Proof. by split. Qed.

Lemma consistent_add_node g g' nm a :
  consistent g ->
  ~~ dict_mem (nodes (graph g)) nm ->
  graph g' = add_node (graph g) nm a ->
  (forall n c, dict_get (nodes (graph g')) n = Some (NodeComponent c)
               <-> dict_get (component_instances g') n = Some c) ->
  (forall n t, dict_get (nodes (graph g')) n = Some (NodeIO F t)
               <-> dict_get (io_nodes g') n = Some t) ->
  uniq (dict_keys (component_instances g')) ->
  (forall nc, List.In nc (component_instances g') ->
     nc.2 = new_component nc.1 (init nc.2)) ->
  consistent g'.
Proof.
move=> [i1 i2 i3 i4 [i5 i6]] nin eg j1 j2 j3 j4.
have en : nodes (graph g') = dict_set (nodes (graph g)) nm a.
  by rewrite eg /add_node (negbTE nin).
have ea : adj (graph g') = dict_set (adj (graph g)) nm [::].
  by rewrite eg /add_node (negbTE nin).
have na : nm \notin dict_keys (adj (graph g)).
  by apply: contra nin => /i5; rewrite dict_mem_keys.
split=> //; split.
- move=> n; rewrite ea en !mem_keys_set => /orP [->//|/i5 ->].
  by rewrite orbT.
- rewrite eg edges_add_node_fresh //.
  by apply: sub_all i6 => e; apply: edge_ok_add_node en e.
Qed.

Lemma consistent_add_component g nm i g' :
  consistent g -> add_component g nm i = Ok g' -> consistent g'.
Proof.
move=> cg; have [i1 i2 i3 i4 _] := cg; rewrite /add_component.
case: ifP => // /negbT nin [<-].
have none : dict_get (nodes (graph g)) nm = None.
  by move: nin; rewrite /dict_mem; case: (dict_get _ _).
apply: (consistent_add_node cg nin) => //=.
- move=> n c; rewrite /add_node (negbTE nin) /= !dict_get_set.
  by case: (nm =P n) => // _; split=> -[->].
- move=> n t; rewrite /add_node (negbTE nin) /= !dict_get_set.
  case: (nm =P n) => [<-|//]; split=> // /i2.
  by rewrite none.
- exact: dict_keys_uniq_set.
- move=> nc h; have [->|/i4 //] /= := In_dict_set h.
  by rewrite init_new_component.
Qed.

Lemma consistent_add_io_node g nm t g' :
  consistent g -> add_io_node g nm t = Ok g' -> consistent g'.
Proof.
move=> cg; have [i1 i2 i3 i4 _] := cg; rewrite /add_io_node.
case: ifP => // /negbT nin [<-].
have none : dict_get (nodes (graph g)) nm = None.
  by move: nin; rewrite /dict_mem; case: (dict_get _ _).
apply: (consistent_add_node cg nin) => //=.
- move=> n c; rewrite /add_node (negbTE nin) /= !dict_get_set.
  case: (nm =P n) => [<-|//]; split=> // /i1.
  by rewrite none.
- move=> n t'; rewrite /add_node (negbTE nin) /= !dict_get_set.
  by case: (nm =P n) => // _; split=> -[->].
Qed.

(** On a consistent graph the checks of [connect] never look up a missing
    key, and they pass exactly when the source and the destination are
    acceptable. *)
Lemma check_source_spec g u p :
  consistent g ->
  check_source g u p =
  if source_ok g u p then Ok tt
  else match dict_get (nodes (graph g)) u with
       | Some (NodeComponent _) => Err (NotAnOutputPort p u)
       | Some (NodeIO _) => Err (NotAnInputNode u)
       | None => Err (SourceNotFound u)
       end.
Proof.
move=> [i1 i2 _ _ _]; rewrite /check_source /source_ok.
case E: (dict_get _ u) => [[c|t]|] //.
- by have /i1 -> := E; case: ifP.
- by have /i2 -> := E; case: (t).
Qed.

Lemma check_destination_spec g v q :
  consistent g ->
  check_destination g v q =
  if destination_ok g v q then Ok tt
  else match dict_get (nodes (graph g)) v with
       | Some (NodeComponent _) => Err (NotAnInputPort q v)
       | Some (NodeIO _) => Err (NotAnOutputNode v)
       | None => Err (DestinationNotFound v)
       end.
Proof.
move=> [i1 i2 _ _ _]; rewrite /check_destination /destination_ok.
case E: (dict_get _ v) => [[c|t]|] //.
- by have /i1 -> := E; case: ifP.
- by have /i2 -> := E; case: (t).
Qed.

Lemma connect_spec g u p v q :
  consistent g ->
  if source_ok g u p && destination_ok g v q
  then connect g u p v q =
       Ok (mkGraphEnergyHub (graph_name g)
             (add_edge (graph g) u v
                (mkEdge p q (edge_branch_name u p v q)))
             (component_instances g) (io_nodes g))
  else exists2 e, connect g u p v q = Err e
         & forall k, e <> KeyError k.
Proof.
move=> cg; rewrite /connect check_source_spec // check_destination_spec //.
have su : source_ok g u p -> dict_mem (nodes (graph g)) u.
  by rewrite /source_ok /dict_mem; case: (dict_get _ u).
have sv : destination_ok g v q -> dict_mem (nodes (graph g)) v.
  by rewrite /destination_ok /dict_mem; case: (dict_get _ v).
case so: (source_ok g u p) => /=; last first.
  case: (dict_mem _ u) => /=; last by exists (SourceNotFound u).
  case: (dict_mem _ v) => /=; last by exists (DestinationNotFound v).
  by case: (dict_get _ u) => [[c|t]|]; eexists.
rewrite (su so) /=.
case do: (destination_ok g v q) => /=; first by rewrite (sv do).
case: (dict_mem _ v) => /=; last by exists (DestinationNotFound v).
by case: (dict_get _ v) => [[c|t]|]; eexists.
Qed.

Lemma consistent_connect g u p v q g' :
  consistent g -> connect g u p v q = Ok g' -> consistent g'.
Proof.
move=> cg; have [i1 i2 i3 i4 [i5 i6]] := cg.
have:= connect_spec u p v q cg.
case: ifP => [ok ->|_ [e -> //]] [<-]; split=> //; split=> /=.
- move=> n; rewrite mem_keys_set => /orP [/eqP ->|/i5 //].
  case/andP: ok; rewrite /source_ok -dict_mem_keys /dict_mem.
  by case: (dict_get _ u).
- apply: all_edges_add_edge.
    by apply: sub_all i6 => e; rewrite (@edge_ok_same_nodes g).
  by rewrite /edge_ok /= eqxx andbT.
Qed.

Lemma constructed_consistent g : constructed g -> consistent g.
Proof.
elim=> [nm|g0 nm i g1 _ c0 /(consistent_add_component c0)
       |g0 nm t g1 _ c0 /(consistent_add_io_node c0)
       |g0 u p v q g1 _ c0 /(consistent_connect c0)] //.
Qed.

End Construction.

(** ** Compilation of a consistent graph *)

Section CompiledConfig.
Variable F : fieldType.
Implicit Types (g : GraphEnergyHub F) (G : DiGraph F) (config : Config F).
Implicit Types (pm : dict string (dict string string)).

Lemma foldl_inv (T S : Type) (P : S -> Prop) (f : S -> T -> S) (s : seq T) z :
  P z -> (forall z x, List.In x s -> P z -> P (f z x)) -> P (foldl f z s).
Proof.
elim: s z => [|x s IH] z //= pz h; apply: IH; first by apply: h => //; left.
by move=> z' y yin; apply: h; right.
Qed.

Lemma mapping_ok_rcons names bs b :
  {subset mapping_ok names bs <= mapping_ok names (rcons bs b)}.
Proof.
move=> cm /and3P [u n a]; apply/and3P; split=> //.
by apply: sub_all a => pb; rewrite mem_rcons in_cons => ->; rewrite orbT.
Qed.

Lemma bind_port_ok names bs pm c p b :
  uniq (dict_keys pm) -> all (mapping_ok names bs) pm ->
  c \in names -> b \in bs ->
  uniq (dict_keys (bind_port pm c p b))
  && all (mapping_ok names bs) (bind_port pm c p b).
Proof.
move=> u a cn bb; rewrite /bind_port dict_keys_uniq_set //=.
apply: all_dict_set => //; rewrite /mapping_ok /= cn /=.
case E: (dict_get pm c) => [ports|] /=; last by rewrite bb.
have /and3P [up _ ap] := all_In a (dict_get_In E).
by rewrite dict_keys_uniq_set //=; apply: all_dict_set.
Qed.

Lemma is_component_node_name g u :
  consistent g -> is_component_node (graph g) u ->
  u \in dict_keys (component_instances g).
Proof.
move=> [i1 _ _ _ _]; rewrite /is_component_node.
case E: (dict_get _ u) => [[c|t]|] // _.
by have /i1 := E; rewrite -dict_mem_keys /dict_mem => ->.
Qed.

Lemma compile_edge_ok g config e :
  consistent g ->
  config_ok (dict_keys (component_instances g)) config ->
  config_ok (dict_keys (component_instances g))
    (compile_edge (graph g) config e).
Proof.
move=> cg; case: e => [[u v] d] /and4P [upm apm ain aout].
set names := dict_keys _; set b := branch_name d.
set bs := rcons (cfg_branches config) b.
have bb : b \in bs by rewrite mem_rcons mem_head.
have apm' : all (mapping_ok names bs) (cfg_port_mappings config).
  by apply: sub_all apm; exact: mapping_ok_rcons.
have mono (xs : seq string) :
    all (fun x => x \in cfg_branches config) xs -> all (fun x => x \in bs) xs.
  by apply: sub_all => x; rewrite mem_rcons in_cons => ->; rewrite orbT.
rewrite /config_ok /compile_edge /= -/b -/bs.
set pm1 := if is_component_node (graph g) u then _ else _.
set pm2 := if is_component_node (graph g) v then _ else _.
have /andP [u1 a1] : uniq (dict_keys pm1) && all (mapping_ok names bs) pm1.
  rewrite /pm1; case cu: (is_component_node _ u); last by rewrite upm apm'.
  by apply: bind_port_ok => //; apply: is_component_node_name.
have /andP [u2 a2] : uniq (dict_keys pm2) && all (mapping_ok names bs) pm2.
  rewrite /pm2; case cv: (is_component_node _ v); last by rewrite u1 a1.
  by apply: bind_port_ok => //; apply: is_component_node_name.
rewrite u2 a2 /=.
by apply/andP; split; case: ifP => _; rewrite ?all_rcons ?bb mono.
Qed.

Lemma compile_storage_ok g config nc :
  List.In nc (component_instances g) ->
  config_ok (dict_keys (component_instances g)) config ->
  config_ok (dict_keys (component_instances g)) (compile_storage config nc).
Proof.
case: nc => n c nin /and4P [upm apm ain aout].
rewrite /compile_storage; case: ifP => _; last by apply/and4P.
set names := dict_keys _; set b := virtual_branch_name n.
set bs := rcons (cfg_branches config) b.
have bb : b \in bs by rewrite mem_rcons mem_head.
have apm' : all (mapping_ok names bs) (cfg_port_mappings config).
  by apply: sub_all apm; exact: mapping_ok_rcons.
have mono (xs : seq string) :
    all (fun x => x \in cfg_branches config) xs -> all (fun x => x \in bs) xs.
  by apply: sub_all => x; rewrite mem_rcons in_cons => ->; rewrite orbT.
rewrite /config_ok /= -/b -/bs !mono // !andbT.
by apply: bind_port_ok => //; apply: In_dict_keys nin.
Qed.

Lemma cfg_components_edges G config es :
  cfg_components (foldl (compile_edge G) config es) = cfg_components config.
Proof.
by elim: es config => [|[[u v] d] es IH] config //=; rewrite IH.
Qed.

Lemma cfg_components_storages config (cs : seq (string * Component F)) :
  cfg_components (foldl (@compile_storage F) config cs)
  = cfg_components config.
Proof.
elim: cs config => [|[n c] cs IH] config //=; rewrite IH /compile_storage.
by case: ifP.
Qed.

Lemma raw_config_components g :
  cfg_components (raw_config g)
  = [seq (nc.1, init nc.2) | nc <- component_instances g].
Proof.
by rewrite /raw_config cfg_components_storages cfg_components_edges.
Qed.

Lemma raw_config_ok g :
  consistent g ->
  config_ok (dict_keys (component_instances g)) (raw_config g).
Proof.
move=> cg; rewrite /raw_config.
apply: (@foldl_inv _ _ (fun c => config_ok _ c)); last first.
  by move=> c nc nin; apply: compile_storage_ok.
apply: (@foldl_inv _ _ (fun c => config_ok _ c)) => //.
by move=> c e _; apply: compile_edge_ok.
Qed.

Lemma build_config_ok g :
  consistent g ->
  config_ok (dict_keys (component_instances g)) (build_config g).
Proof.
move/raw_config_ok => /and4P [u a ai ao].
have m x xs : (x \in sorted_set undup xs) = (x \in xs).
  exact: sorted_set_mem set_listing_undup.
rewrite /config_ok /build_config /build_config_with /= u /=.
apply/and3P; split.
- apply: sub_all a => cm /and3P [uc nc ac]; apply/and3P; split=> //.
  by apply: sub_all ac => pb; rewrite m.
- apply/allP => b; rewrite m => bin; rewrite m.
  exact: (allP ai).
- apply/allP => b; rewrite m => bin; rewrite m.
  exact: (allP ao).
Qed.

End CompiledConfig.

(** ** Properties of the builder *)

Lemma map_In_id (T : Type) (f : T -> T) (s : seq T) :
  (forall x, List.In x s -> f x = x) -> [seq f x | x <- s] = s.
Proof.
elim: s => [|x s IH] //= h; rewrite (h x (or_introl erefl)) IH //.
by move=> y yin; apply: h; right.
Qed.

Lemma sorted_set_nil (xs : seq string) :
  (size (sorted_set undup xs) == 0) = (size xs == 0).
Proof.
rewrite /sorted_set size_sort; case: xs => [|x xs] //.
by apply/eqP => /size0nil /undup_nil.
Qed.

Section BuilderProperties.
Variable F : fieldType.
Implicit Types (g : GraphEnergyHub F) (hub : EnergyHub F).

(** X16.  On every graph made through [add_component], [add_io_node] and
    [connect], the node table of the graph agrees with the builder's
    dictionaries of components and of boundary nodes, component names are
    pairwise distinct, every component is the catalogue instance of its own
    name, and every edge joins an acceptable source to an acceptable
    destination under the branch name made of its four fields. *)
Theorem constructed_graph_is_consistent g : constructed g -> consistent g.
Proof. exact: constructed_consistent. Qed.

(** X17.  On such a graph [connect] succeeds exactly when the source is an
    output port of a component or an input boundary node and the destination
    is an input port of a component or an output boundary node; it never
    fails on a missing dictionary key. *)
Theorem connect_succeeds_iff g u p v q :
  constructed g ->
  is_ok (connect g u p v q) = source_ok g u p && destination_ok g v q
  /\ forall k, connect g u p v q <> Err (KeyError k).
Proof.
move/constructed_consistent => cg; have:= connect_spec u p v q cg.
case: ifP => _; [move=> -> | case=> e -> ne]; split=> // k [ek].
exact: (ne k ek).
Qed.

(** X18.  A successful [connect] from [u] to [v] makes the edge from [u] to
    [v] carry the two ports and the branch name of this call, whatever edge
    there was between the two nodes before; it leaves every other edge, the
    nodes and the dictionaries of the builder as they were. *)
Theorem connect_sets_edge g u p v q g' :
  connect g u p v q = Ok g' ->
  [/\ edge_data (graph g') u v = Some (mkEdge p q (edge_branch_name u p v q)),
      forall u' v', (u', v') != (u, v) ->
        edge_data (graph g') u' v' = edge_data (graph g) u' v',
      nodes (graph g') = nodes (graph g),
      component_instances g' = component_instances g
    & io_nodes g' = io_nodes g].
Proof.
rewrite /connect; do 2![case: ifP => // _].
case: (check_source _ _ _) => //= _; case: (check_destination _ _ _) => //= _.
case=> <- /=; split=> //.
- by rewrite /edge_data /add_edge /= dict_get_set eqxx dict_get_set eqxx.
- move=> u' v'; rewrite xpair_eqE /edge_data /add_edge /= dict_get_set.
  case: (u =P u') => [<-|//]; rewrite eqxx /= dict_get_set eq_sym => /negbTE ->.
  by case: (dict_get _ u).
Qed.

Lemma build_config_components g :
  cfg_components (build_config g)
  = [seq (nc.1, init nc.2) | nc <- component_instances g].
Proof. exact: raw_config_components. Qed.

Lemma build_config_loadable g nm :
  consistent g ->
  loadable (new_hub F nm) (build_config g)
  = ~~ (nilp (edges (graph g)) && nilp (storages g)).
Proof.
move=> cg; have [_ _ i3 _ _] := cg.
have /and4P [u a ai ao] := build_config_ok cg.
have en : dict_keys (cfg_components (build_config g))
          = dict_keys (component_instances g).
  by rewrite build_config_components /dict_keys -map_comp.
rewrite /loadable en i3 ai ao !andbT /=.
have -> /= : all (fun n => ~~ dict_mem (components (new_hub F nm)) n)
               (dict_keys (component_instances g)).
  by apply/allP.
have -> : all (fun cm =>
             (dict_mem (components (new_hub F nm)) cm.1
              || (cm.1 \in dict_keys (component_instances g)))
             && all (fun pb => pb.2 \in cfg_branches (build_config g)) cm.2)
            (cfg_port_mappings (build_config g)).
  by apply: sub_all a => cm /and3P [_ -> ->].
rewrite andbT -size_eq0 /nilp; congr (~~ _).
rewrite sorted_set_nil raw_config_branches /edge_branches size_cat addn_eq0.
by rewrite !size_map.
Qed.

Lemma loaded_components g nm :
  consistent g ->
  components (loaded_hub (new_hub F nm) (build_config g))
  = component_instances g.
Proof.
move=> [_ _ _ i4 _]; rewrite /= build_config_components -map_comp.
by apply: map_In_id => -[n c] /i4 /= <-.
Qed.

Lemma binding_connected g c p :
  isSome (port_binding (build_config g) c p) = connected g (c, p).
Proof.
rewrite build_config_binding raw_config_binding /connected /= orbC.
case: ifP => // _; rewrite orFb /touching_branches.
elim: (edges _) => [|e es IH] //=; case: ifP => _ //=.
by rewrite rev_cons -cats1; case: (rev _).
Qed.

Lemma loaded_ports_connected g nm hub :
  consistent g ->
  load_config (new_hub F nm) (build_config g) = Ok hub ->
  all (fun nc => all (fun pl => isSome (bound_to hub nc.1 pl.1))
                   (input_ports nc.2 ++ output_ports nc.2))
      (components hub)
  = all (connected g) (declared_ports g).
Proof.
move=> cg E; have [_ eh] := load_config_ok E.
have /and4P [u a _ _] := build_config_ok cg.
have ui : all (fun cm => uniq (dict_keys cm.2))
              (cfg_port_mappings (build_config g)).
  by apply: sub_all a => cm /and3P [].
have ec : components hub = component_instances g.
  by rewrite eh loaded_components.
rewrite ec /declared_ports all_flatten_map.
apply: eq_all => -[n c] /=; rewrite all_map -map_cat all_map.
apply: eq_all => -[p l] /=; rewrite -binding_connected.
have:= loaded_port_binding n p E u ui.
by case: (port_binding _ n p) => [b [i ->]|->].
Qed.

(** X19.  On a graph made through the interface, [build] succeeds exactly
    when the graph has an edge or a storage component and every declared port
    of every component is connected: it is an endpoint of an edge, or the
    virtual port of a storage. *)
Theorem build_succeeds_iff g :
  constructed g ->
  is_ok (build g)
  = ~~ (nilp (edges (graph g)) && nilp (storages g))
    && all (connected g) (declared_ports g).
Proof.
move/constructed_consistent => cg.
rewrite /build /build_with -/(build_config g).
rewrite -(build_config_loadable (graph_name g) cg).
have:= load_config_spec (new_hub F (graph_name g)) (build_config g).
case: ifP => _; [move=> E | by case=> e ->].
have [h _] := loaded_hub_assembly E.
rewrite E /= -(loaded_ports_connected cg E) -h.
by case: (build_system_matrices _).
Qed.

(** X20.  On a graph made through the interface [build] fails in two ways
    only: with the error on missing branches when the graph has neither an
    edge nor a storage, and otherwise with a binding error for a port that
    no edge reaches. *)
Theorem build_failures g :
  constructed g ->
  if nilp (edges (graph g)) && nilp (storages g)
  then build g = Err NoBranchesInConfig
  else forall e, build g = Err e -> is_binding_error e.
Proof.
move/constructed_consistent => cg; have [_ _ i3 _ _] := cg.
have lo := build_config_loadable (graph_name g) cg.
rewrite /build /build_with -/(build_config g).
case nb: (_ && _) lo => /= lo.
  have hu : uniq (dict_keys (cfg_components (build_config g))).
    by rewrite build_config_components /dict_keys -map_comp.
  have hf : all (fun n => ~~ dict_mem (components (new_hub F (graph_name g))) n)
                (dict_keys (cfg_components (build_config g))).
    by apply/allP.
  have hb : cfg_branches (build_config g) = [::].
    apply/eqP; rewrite -size_eq0 /= sorted_set_nil raw_config_branches.
    rewrite /edge_branches size_cat addn_eq0 !size_map.
    by move: nb; rewrite /nilp /storages size_map.
  by rewrite (load_config_no_branches hu hf hb).
have:= load_config_spec (new_hub F (graph_name g)) (build_config g).
rewrite lo => E e; rewrite E /=.
have [_ he] := loaded_hub_assembly E.
by case Eb: (build_system_matrices _) => [r|e'] //= [<-]; apply: he.
Qed.

End BuilderProperties.

(** ** Branch names in the optimizer *)

Lemma append_assoc (s t u : string) : ((s ++ t) ++ u = s ++ (t ++ u))%string.
Proof. by elim: s => [|a s IH] //=; rewrite IH. Qed.

Lemma append_nil_r (s : string) : (s ++ "")%string = s.
Proof. by elim: s => [|a s IH] //=; rewrite IH. Qed.

Lemma starts_with_append (p s : string) : starts_with p (p ++ s).
Proof. by elim: p => [|a p IH] //=; rewrite eqxx. Qed.

(** The characters of a separator just found are passed. *)
Lemma split_loop_skip (sep w s cur : string) :
  split_loop sep (w ++ s) (String.length w) cur = split_loop sep s 0 cur.
Proof. by elim: w => [|a w IH]. Qed.

(** A separator at the head of the text closes the current piece. *)
Lemma split_loop_sep (c : ascii) (t s cur : string) :
  split_loop (String c t) (String c t ++ s) 0 cur
  = cur :: split_loop (String c t) s 0 "".
Proof. by rewrite /= eqxx starts_with_append /= split_loop_skip. Qed.

(** A text without underscore holds no separator that starts with one. *)
Lemma split_loop_free (t s1 s2 cur : string) :
  ~~ has_underscore s1 ->
  split_loop (String "_" t) (s1 ++ s2) 0 cur
  = split_loop (String "_" t) s2 0 (cur ++ s1).
Proof.
elim: s1 cur => [|a s1 IH] cur /=; first by rewrite append_nil_r.
rewrite negb_or => /andP [/negbTE ne fr]; rewrite eq_sym ne /= IH //.
by rewrite append_assoc.
Qed.

Lemma split_loop_nonempty (sep s : string) k cur :
  exists x r, split_loop sep s k cur = x :: r.
Proof.
elim: s k cur => [|a s IH] k cur /=; first by exists cur, [::].
case: k => [|k]; last exact: IH.
by case: ifP => _; [exists cur; eexists | exact: IH].
Qed.

(** The first piece extends the current piece by a prefix of the text. *)
Lemma split_loop_head (sep s cur : string) :
  exists t s' r,
    split_loop sep s 0 cur = (cur ++ t)%string :: r /\ s = (t ++ s')%string.
Proof.
elim: s cur => [|a s IH] cur /=.
  by exists "", "", [::]; rewrite append_nil_r.
case: ifP => _.
  by exists "", (String a s); eexists; rewrite append_nil_r.
have [t [s' [r [-> ->]]]] := IH (cur ++ String a "")%string.
by exists (String a t), s', r; rewrite append_assoc.
Qed.

(** A text that holds the separator splits into two pieces at least. *)
Lemma split_loop_two (c : ascii) (t a b cur : string) :
  exists x y r,
    split_loop (String c t) (a ++ String c t ++ b) 0 cur = x :: y :: r.
Proof.
elim: a cur => [|ch a IH] cur.
  rewrite [("" ++ _)%string]/= split_loop_sep.
  have [y [r ->]] := split_loop_nonempty (String c t) b 0 "".
  by exists cur, y, r.
rewrite [(String ch a ++ _)%string]/= [split_loop _ _ _ _]/=.
case: ifP => _; last exact: IH.
have [y [r ->]] := split_loop_nonempty (String c t)
                     (a ++ String c t ++ b) (String.length t) "".
by exists cur, y, r.
Qed.

Lemma to_is_no_prefix (p s : string) :
  ~~ has_underscore p -> p != "to" ->
  starts_with "to_" (p ++ String "_" s) = false.
Proof.
case: p => [|a [|b [|d p]]] //=.
- by rewrite andbF.
- move=> _ ne; apply/negP => /and3P [/eqP ea /eqP eb _].
  by move: ne; rewrite -ea -eb eqxx.
- rewrite !negb_or => /and4P [_ _ /negbTE nd _] _.
  by rewrite (eq_sym _ d) nd !andbF.
Qed.

Lemma edge_branch_nameE (u p v q : string) :
  edge_branch_name u p v q
  = (u ++ String "_" (p ++ "_to_" ++ (v ++ String "_" q)))%string.
Proof. by []. Qed.

Lemma destination_node_ok (u p v q : string) :
  is_ok (destination_node (edge_branch_name u p v q)).
Proof.
have -> : edge_branch_name u p v q
          = (((u ++ "_") ++ p) ++ "_to_" ++ (v ++ "_" ++ q))%string.
  by rewrite /edge_branch_name !append_assoc.
rewrite /destination_node /split.
have [x [y [r ->]]] := split_loop_two "_"%char "to_"
                         (((u ++ "_") ++ p)%string)
                         (v ++ "_" ++ q)%string "".
by [].
Qed.

Lemma destination_node_decodes (u p v q : string) :
  ~~ has_underscore u -> ~~ has_underscore p -> p != "to" ->
  ~~ has_underscore v ->
  destination_node (edge_branch_name u p v q) = Ok v.
Proof.
move=> fu fp pto fv; rewrite /destination_node /split edge_branch_nameE.
have step x cur : split_loop "_to_" (String "_" x) 0 cur
    = if starts_with "to_" x then cur :: split_loop "_to_" x 3 ""
      else split_loop "_to_" x 0 (cur ++ "_")%string.
  by [].
rewrite split_loop_free // step (to_is_no_prefix _ fp pto).
rewrite split_loop_free // split_loop_sep split_loop_free //.
have [t [s' [r [-> e]]]] := split_loop_head "_to_" (String "_" q) ("" ++ v).
rewrite [("" ++ v)%string]/= split_loop_free //.
case: t e => [|a t] //=.
by case=> <- _.
Qed.

(** X21.  The node under which the optimizer files a branch: on the branch
    name that [connect] makes, the lookup never fails; when the names of the
    source node, of its port and of the destination node hold no underscore
    and the source port is not named [to], it is the destination node. *)
Theorem destination_node_of_edge_branch (u p v q : string) :
  is_ok (destination_node (edge_branch_name u p v q)) /\
  (~~ has_underscore u -> ~~ has_underscore p -> p != "to" ->
   ~~ has_underscore v ->
   destination_node (edge_branch_name u p v q) = Ok v).
Proof.
by split; [exact: destination_node_ok | exact: destination_node_decodes].
Qed.



Section OptimizerOnBuiltHubs.
Variable F : fieldType.
Implicit Types (g : GraphEnergyHub F) (hub : EnergyHub F).

Lemma raw_hub_outputs_ok g :
  consistent g ->
  all (fun b => is_ok (destination_node b)) (cfg_hub_outputs (raw_config g)).
Proof.
move=> [_ _ _ _ [_ i6]]; rewrite /raw_config.
apply: (@foldl_inv _ _ (fun c =>
          all (fun b => is_ok (destination_node b)) (cfg_hub_outputs c))).
  apply: (@foldl_inv _ _ (fun c =>
            all (fun b => is_ok (destination_node b)) (cfg_hub_outputs c))) => //.
  move=> c [[u v] d] ein a /=; case: ifP => // _; rewrite all_rcons a andbT.
  have /and3P [_ _ /eqP -> /=] := all_In i6 ein.
  exact: destination_node_ok.
by move=> c [n s] _ a; rewrite /compile_storage; case: ifP.
Qed.

(** X23.  On a hub built from a graph made through the interface, the
    bookkeeping with which the optimizer starts does not fail: the names of
    the output branches are recovered from their indices (they are the hub
    outputs of the compiled configuration) and every one of them can be filed
    under a node. *)
Theorem optimizer_groups_built_hub g hub :
  constructed g -> build g = Ok hub ->
  hub_output_branches hub = Ok (cfg_hub_outputs (build_config g)) /\
  is_ok (output_node_to_branches (cfg_hub_outputs (build_config g))).
Proof.
move/constructed_consistent => cg; rewrite /build /build_with.
rewrite -/(build_config g).
case E: (load_config _ _) => [hub1|//] /=.
case Em: (build_system_matrices hub1) => [[hub2 [[X Y] Z]]|//] /= [<-].
have [-> _ _ _] := build_system_matrices_shapes Em.
have [_ eo] := loaded_branch_names E; split; first exact: eo.
have -> : is_ok (output_node_to_branches (cfg_hub_outputs (build_config g)))
          = all (fun b => is_ok (destination_node b))
                (cfg_hub_outputs (build_config g)).
  apply: (@for_each_is_ok _ _ _ (fun=> True)) => // d b _ _.
  by case: (destination_node b).
apply/allP => b; rewrite /= (sorted_set_mem _ _ set_listing_undup) => bin.
exact: (allP (raw_hub_outputs_ok cg)).
Qed.

End OptimizerOnBuiltHubs.

(** ** Assembling twice *)

Section Reassembly.
Variable F : fieldType.
Implicit Types (hub : EnergyHub F) (X Y Z : Matrix F).

(** X24.  A successful assembly stores in the hub the matrices it returns
    and changes nothing else; assembling the resulting hub again returns the
    same matrices and the same hub. *)
Theorem assembly_is_idempotent hub hub' X Y Z :
  build_system_matrices hub = Ok (hub', (X, Y, Z)) ->
  [/\ get_system_matrices hub' = (Some X, Some Y, Some Z),
      [/\ components hub' = components hub,
          global_branches hub' = global_branches hub,
          port_to_global_branch_map hub' = port_to_global_branch_map hub,
          hub_input_branch_indices hub' = hub_input_branch_indices hub
        & hub_output_branch_indices hub' = hub_output_branch_indices hub]
    & build_system_matrices hub' = Ok (hub', (X, Y, Z))].
Proof.
move=> E; have [eh _ _ _] := build_system_matrices_shapes E.
rewrite eh; split=> //.
move: E; rewrite /build_system_matrices /=; case: ifP => // _.
case: (for_each _ _ _) => [blocks|//] /=.
case: (if nilp blocks then _ else _) => [Z'|//] /=.
case: (selector _ _ _) => [X'|//] /=.
by case: (selector _ _ _) => [Y'|//] /= [_ -> -> ->].
Qed.

End Reassembly.

(** ** Instances of the further properties *)

Section ConstructedResults.
Variable F : fieldType.
Implicit Types (g : GraphEnergyHub F) (r : result (GraphEnergyHub F)).

Lemma constructed_bind r (k : GraphEnergyHub F -> result (GraphEnergyHub F)) :
  constructed_result r ->
  (forall g, constructed g -> constructed_result (k g)) ->
  constructed_result (bind r k).
Proof. by case: r => //= g cg; apply. Qed.

Lemma constructed_add_component_result g nm i :
  constructed g -> constructed_result (add_component g nm i).
Proof.
move=> cg; rewrite /constructed_result.
by case E: (add_component g nm i) => [g'|//]; exact: constructed_add_component E.
Qed.

Lemma constructed_add_io_node_result g nm t :
  constructed g -> constructed_result (add_io_node g nm t).
Proof.
move=> cg; rewrite /constructed_result.
by case E: (add_io_node g nm t) => [g'|//]; exact: constructed_add_io_node E.
Qed.

Lemma constructed_connect_result g u p v q :
  constructed g -> constructed_result (connect g u p v q).
Proof.
move=> cg; rewrite /constructed_result.
by case E: (connect g u p v q) => [g'|//]; exact: constructed_connect E.
Qed.

Lemma two_converters_constructed (eta_q eta_w eta : F) :
  constructed_result (two_converters eta_q eta_w eta).
Proof.
rewrite /two_converters.
refine (constructed_bind
          (constructed_add_component_result _ _ (constructed_new _ _)) _).
move=> g1 c1; cbv beta.
refine (constructed_bind (constructed_add_component_result _ _ c1) _).
move=> g2 c2; cbv beta.
refine (constructed_bind (constructed_add_io_node_result _ _ c2) _).
move=> g3 c3; cbv beta.
refine (constructed_bind (constructed_add_io_node_result _ _ c3) _).
move=> g4 c4; cbv beta.
refine (constructed_bind (constructed_add_io_node_result _ _ c4) _).
move=> g5 c5; cbv beta.
refine (constructed_bind (constructed_connect_result _ _ _ _ c5) _).
move=> g6 c6; cbv beta.
refine (constructed_bind (constructed_connect_result _ _ _ _ c6) _).
move=> g7 c7; cbv beta.
refine (constructed_bind (constructed_connect_result _ _ _ _ c7) _).
move=> g8 c8; cbv beta.
refine (constructed_bind (constructed_connect_result _ _ _ _ c8) _).
move=> g9 c9; cbv beta.
exact: (constructed_connect_result _ _ _ _ c9).
Qed.

End ConstructedResults.

Lemma constructed_the_graph (r : result (GraphEnergyHub rat)) :
  constructed_result r -> is_ok r -> constructed (the_graph r).
Proof. by case: r. Qed.

Lemma two_converters_graph :
  constructed (the_graph (two_converters 0.8%Q 0.3%Q 0.9%Q)).
Proof.
have ok : is_ok (two_converters 0.8%Q 0.3%Q 0.9%Q) by vm_compute.
exact: (constructed_the_graph (two_converters_constructed _ _ _) ok).
Qed.

Lemma hub_boiler_loaded :
  load_config (new_hub rat "Hub") config_boiler = Ok hub_boiler.
Proof.
have ok : is_ok (load_config (new_hub rat "Hub") config_boiler) by vm_compute.
exact: (value_or_ok (new_hub rat "") ok).
Qed.

Lemma load_config_without_branches_witness :
  load_config (new_hub rat "Hub") config_without_branches
  = Err NoBranchesInConfig.
Proof.
exact: (@load_config_without_branches rat (new_hub rat "Hub")
          config_without_branches isT isT erefl).
Defined.

Lemma load_config_twice_witness :
  load_config hub_boiler config_boiler = Err (ComponentExists "B1").
Proof.
exact: (@load_config_twice rat (new_hub rat "Hub") config_boiler hub_boiler
          ("B1", Boiler 0.9%Q) [::] hub_boiler_loaded erefl).
Defined.

Lemma load_config_indices_in_range_witness :
  let B := size (global_branches hub_boiler) in
  [/\ 0 < B,
      forall key i,
        dict_get (port_to_global_branch_map hub_boiler) key = Some i -> i < B,
      all (fun i => i < B) (hub_input_branch_indices hub_boiler)
    & all (fun i => i < B) (hub_output_branch_indices hub_boiler)].
Proof.
exact: (@load_config_indices_in_range rat "Hub" config_boiler hub_boiler
          hub_boiler_loaded).
Defined.

Lemma hub_branches_roundtrip_witness :
  hub_input_branches hub_boiler = Ok [:: "gas"] /\
  hub_output_branches hub_boiler = Ok [:: "heat"].
Proof.
exact: (@hub_branches_roundtrip rat "Hub" config_boiler hub_boiler
          hub_boiler_loaded).
Defined.

Lemma load_config_binds_ports_witness :
  exists2 i, bound_to hub_boiler "B1" "heat_out" = Some i
    & i < size (global_branches hub_boiler)
      /\ nth "" (global_branches hub_boiler) i = "heat".
Proof.
exact: (@load_config_binds_ports rat "Hub" config_boiler hub_boiler
          "B1" "heat_out" hub_boiler_loaded isT isT).
Defined.

Lemma derive_before_assembly_witness :
  get_system_matrices hub_boiler = (None, None, None) /\
  derive_coupling_matrix (new_analyzer hub_boiler) = Err MatricesNotSet.
Proof.
exact: (@derive_before_assembly rat "Hub" config_boiler hub_boiler
          hub_boiler_loaded).
Defined.

Lemma loaded_hub_assembles_witness :
  is_ok (build_system_matrices hub_boiler) =
    all (fun nc => all (fun pl => isSome (bound_to hub_boiler nc.1 pl.1))
                     (input_ports nc.2 ++ output_ports nc.2))
        (components hub_boiler) /\
  (forall e, build_system_matrices hub_boiler = Err e -> is_binding_error e).
Proof.
exact: (@loaded_hub_assembles rat "Hub" config_boiler hub_boiler
          hub_boiler_loaded).
Defined.

Lemma simple_chp_derivation :
  exists hub' X Y Z a C,
    [/\ build_system_matrices hub_simple_chp = Ok (hub', (X, Y, Z)),
        derive_coupling_matrix (new_analyzer hub') = Ok (a, C)
      & mmul Z simple_chp_flows
        = Ok (zeros rat (rows Z) (cols simple_chp_flows))].
Proof.
pose Xc : Matrix rat := Mx 1 3 [:: [:: 1; 0; 0]]%Q.
pose Yc : Matrix rat := Mx 2 3 [:: [:: 0; 1; 0]; [:: 0; 0; 1]]%Q.
pose Zc : Matrix rat := Mx 2 3 [:: [:: 0.8; 1; 0]; [:: 0.3; 0; 1]]%Q.
have: is_ok (build_system_matrices hub_simple_chp) by vm_compute.
case E: (build_system_matrices hub_simple_chp) => [[hub' [[X Y] Z]]|//] _.
have aE : assembled hub_simple_chp = (hub', (X, Y, Z)) by rewrite /assembled E.
have eX : X = Xc.
  apply: matrix_data_inj.
  by have -> : X = (assembled hub_simple_chp).2.1.1; [rewrite aE | vm_compute].
have eY : Y = Yc.
  apply: matrix_data_inj.
  by have -> : Y = (assembled hub_simple_chp).2.1.2; [rewrite aE | vm_compute].
have eZ : Z = Zc.
  apply: matrix_data_inj.
  by have -> : Z = (assembled hub_simple_chp).2.2; [rewrite aE | vm_compute].
have [eh _ _ _] := build_system_matrices_shapes E.
exists hub', X, Y, Z, (mkSymbolicAnalyzer hub' (Some simple_chp_C)), simple_chp_C.
split=> //.
- rewrite {}eh {E aE} eX eY eZ.
  have dE := @derive_coupling_matrixE _
    (new_analyzer (set_system_matrices hub_simple_chp Xc Yc Zc)) Xc Yc Zc
    erefl erefl erefl isT isT isT erefl erefl.
  rewrite {}dE.
  have -> : (rows (stacked Xc Zc) != cols (stacked Xc Zc)) = false by [].
  have iQ : inverse_of (stacked Xc Zc) simple_chp_Q_inv.
    by split=> //; rewrite mmul_ok //; congr Ok; apply: matrix_data_inj;
       vm_compute.
  rewrite (@inv_inverse _ (stacked Xc Zc) simple_chp_Q_inv isT erefl iQ).
  have -> // : product (product (mneg Yc) simple_chp_Q_inv)
                 (stacked (mneg (eye rat (rows Xc)))
                    (zeros rat (rows Zc) (rows Xc)))
               = simple_chp_C.
  by apply: matrix_data_inj; vm_compute.
- by rewrite eZ mmul_ok //; congr Ok; apply: matrix_data_inj; vm_compute.
Qed.

Lemma coupling_matrix_shape_witness :
  exists hub' X Y Z a C,
    [/\ build_system_matrices hub_simple_chp = Ok (hub', (X, Y, Z)),
        derive_coupling_matrix (new_analyzer hub') = Ok (a, C)
      & [/\ wf_matrix C,
            rows C = size (hub_output_branch_indices hub_simple_chp),
            cols C = size (hub_input_branch_indices hub_simple_chp),
            C_matrix a = Some C
          & energy_hub a = hub']].
Proof.
have [hub' [X [Y [Z [a [C [E D _]]]]]]] := simple_chp_derivation.
exists hub', X, Y, Z, a, C; split=> //.
exact: (@coupling_matrix_shape rat hub_simple_chp hub' X Y Z a C E D).
Defined.

Lemma coupling_matrix_maps_inputs_to_outputs_witness :
  exists hub' X Y Z a C,
    [/\ build_system_matrices hub_simple_chp = Ok (hub', (X, Y, Z)),
        derive_coupling_matrix (new_analyzer hub') = Ok (a, C)
      & exists2 Vin, mmul X simple_chp_flows = Ok Vin
          & mmul C Vin = mmul Y simple_chp_flows].
Proof.
have [hub' [X [Y [Z [a [C [E D hZ]]]]]]] := simple_chp_derivation.
exists hub', X, Y, Z, a, C; split=> //.
exact: (@coupling_matrix_maps_inputs_to_outputs rat hub_simple_chp hub'
          X Y Z a C simple_chp_flows E D isT erefl hZ).
Defined.

Lemma simple_chp_catalogue : catalogue_instances hub_simple_chp.
Proof. by move=> nc [<-|[]]. Qed.

Lemma assembly_succeeds_iff_witness :
  let B := size (global_branches hub_simple_chp) in
  is_ok (build_system_matrices hub_simple_chp) =
  [&& B != 0, all (ports_bound hub_simple_chp B) (components hub_simple_chp),
      all (fun i => i < B) (hub_input_branch_indices hub_simple_chp)
    & all (fun i => i < B) (hub_output_branch_indices hub_simple_chp)].
Proof.
exact: (@assembly_succeeds_iff rat hub_simple_chp simple_chp_catalogue).
Defined.

Lemma selectors_pick_branches_witness :
  exists hub' X Y Z,
    build_system_matrices hub_simple_chp = Ok (hub', (X, Y, Z)) /\
    (forall V : seq rat, size V = 3 ->
       dot (nth [::] (entries X) 0) V = nth 0%R V 0 /\
       dot (nth [::] (entries Y) 0) V = nth 0%R V 1 /\
       dot (nth [::] (entries Y) 1) V = nth 0%R V 2).
Proof.
have [hub' [X [Y [Z [a [C [E _ _]]]]]]] := simple_chp_derivation.
exists hub', X, Y, Z; split=> // V sV.
have [hX hY] := @selectors_pick_branches rat hub_simple_chp hub' X Y Z E.
have [_ x0] := hX 0 isT; have [_ y0] := hY 0 isT; have [_ y1] := hY 1 isT.
by split; [exact: x0 | split; [exact: y0 | exact: y1]].
Defined.

Lemma assembly_is_idempotent_witness :
  exists hub' X Y Z,
    build_system_matrices hub_simple_chp = Ok (hub', (X, Y, Z)) /\
    [/\ get_system_matrices hub' = (Some X, Some Y, Some Z),
        components hub' = components hub_simple_chp
      & build_system_matrices hub' = Ok (hub', (X, Y, Z))].
Proof.
have [hub' [X [Y [Z [a [C [E _ _]]]]]]] := simple_chp_derivation.
exists hub', X, Y, Z; split=> //.
have [g [c _ _ _ _] b] :=
  @assembly_is_idempotent rat hub_simple_chp hub' X Y Z E.
by split.
Defined.

Lemma unattached_branch_zero_column_witness :
  exists hub' X Y Z,
    build_system_matrices hub_spare_branch = Ok (hub', (X, Y, Z)) /\
    forall r, mget Z r 3 = 0%R.
Proof.
have: is_ok (build_system_matrices hub_spare_branch) by vm_compute.
case E: (build_system_matrices hub_spare_branch) => [[hub' [[X Y] Z]]|//] _.
exists hub', X, Y, Z; split=> //.
apply: (@unattached_branch_zero_column rat hub_spare_branch hub' X Y Z 3
          E isT).
move=> nc pl [<-|[]] /=.
by rewrite !inE => /or3P [] /eqP ->.
Defined.


Lemma balance_block_entries_witness :
  let c := new_component "S" (Storage 0.95%Q 0.9%Q) in
  exists2 Zg, build_Z_block hub_storage "S" c 3 = Ok Zg &
    mget Zg 0 1 =
    (\sum_(pl <- input_ports c | bound_to hub_storage "S" pl.1 == Some 1)
        mget (get_characteristic_matrix c) 0 pl.2
     - \sum_(pl <- output_ports c | bound_to hub_storage "S" pl.1 == Some 1)
        mget (get_characteristic_matrix c) 0 pl.2)%R.
Proof.
move=> c.
have: is_ok (build_Z_block hub_storage "S" c 3) by vm_compute.
case E: (build_Z_block hub_storage "S" c 3) => [Zg|//] _.
exists Zg => //.
exact: (@balance_block_entries rat hub_storage "S" "S" (Storage 0.95%Q 0.9%Q)
          3 Zg 0 1 isT E isT isT).
Defined.

Lemma constructed_graph_is_consistent_witness :
  consistent (the_graph (two_converters 0.8%Q 0.3%Q 0.9%Q)).
Proof.
exact: (@constructed_graph_is_consistent rat _ two_converters_graph).
Defined.

Lemma connect_succeeds_iff_witness :
  let g := the_graph (two_converters 0.8%Q 0.3%Q 0.9%Q) in
  is_ok (connect g "HeatLoad" "in" "CHP1" "fuel_in")
  = source_ok g "HeatLoad" "in" && destination_ok g "CHP1" "fuel_in"
  /\ forall k, connect g "HeatLoad" "in" "CHP1" "fuel_in" <> Err (KeyError k).
Proof.
exact: (@connect_succeeds_iff rat _ "HeatLoad" "in" "CHP1" "fuel_in"
          two_converters_graph).
Defined.

Lemma two_converters_reconnected :
  let g := the_graph (two_converters 0.8%Q 0.3%Q 0.9%Q) in
  connect g "GasInput" "out" "CHP1" "fuel_in"
  = Ok (the_graph (connect g "GasInput" "out" "CHP1" "fuel_in")).
Proof.
move=> g.
have ok : is_ok (connect g "GasInput" "out" "CHP1" "fuel_in") by vm_compute.
exact: (value_or_ok (new_graph_hub rat "") ok).
Qed.

Lemma connect_sets_edge_witness :
  let g := the_graph (two_converters 0.8%Q 0.3%Q 0.9%Q) in
  let g' := the_graph (connect g "GasInput" "out" "CHP1" "fuel_in") in
  [/\ edge_data (graph g') "GasInput" "CHP1"
      = Some (mkEdge "out" "fuel_in"
                (edge_branch_name "GasInput" "out" "CHP1" "fuel_in")),
      forall u' v', (u', v') != ("GasInput", "CHP1") ->
        edge_data (graph g') u' v' = edge_data (graph g) u' v',
      nodes (graph g') = nodes (graph g),
      component_instances g' = component_instances g
    & io_nodes g' = io_nodes g].
Proof.
exact: (@connect_sets_edge rat _ "GasInput" "out" "CHP1" "fuel_in" _
          two_converters_reconnected).
Defined.

Lemma build_succeeds_iff_witness :
  let g := the_graph (two_converters 0.8%Q 0.3%Q 0.9%Q) in
  is_ok (build g)
  = ~~ (nilp (edges (graph g)) && nilp (storages g))
    && all (connected g) (declared_ports g).
Proof.
exact: (@build_succeeds_iff rat _ two_converters_graph).
Defined.

Lemma build_failures_witness :
  build (new_graph_hub rat "Empty") = Err NoBranchesInConfig.
Proof.
exact: (@build_failures rat _ (constructed_new rat "Empty")).
Defined.

Lemma two_converters_built :
  let g := the_graph (two_converters 0.8%Q 0.3%Q 0.9%Q) in
  build g = Ok (the_hub (build g)).
Proof.
move=> g; have ok : is_ok (build g) by vm_compute.
exact: (value_or_ok (new_hub rat "") ok).
Qed.

Lemma optimizer_groups_built_hub_witness :
  let g := the_graph (two_converters 0.8%Q 0.3%Q 0.9%Q) in
  hub_output_branches (the_hub (build g))
  = Ok (cfg_hub_outputs (build_config g)) /\
  is_ok (output_node_to_branches (cfg_hub_outputs (build_config g))).
Proof.
exact: (@optimizer_groups_built_hub rat _ _ two_converters_graph
          two_converters_built).
Defined.

Lemma destination_node_of_edge_branch_witness :
  destination_node (edge_branch_name "GasInput" "out" "CHP1" "fuel_in")
  = Ok "CHP1".
Proof.
have [_ h] := destination_node_of_edge_branch "GasInput" "out" "CHP1" "fuel_in".
exact: (h isT isT isT isT).
Defined.

